(** * URL shortener with Huffman encoding: a shallow embedding

    The repository holds two variants of one class, [URLShortener]:
    [URL.py] (codec metadata indexed by short code, [expand_url] scans all
    records) and [_URL.py] (codec metadata indexed by compressed code,
    [expand_url] is a keyed lookup).  The Huffman codec and the short-code
    generator are the same text in both files.

    Python values are embedded as follows.
    - [str] is [string], for the code points below 256; a character is a
      one-character [string], as in Python.
    - [int] is [Z]; list positions and lengths are [nat].
    - [bytes] is [list Z] with every element in [0, 256).
    - [dict] is an association list in insertion order with unique keys.
    - an exception is the [Raise] case of [result].
    - a method that mutates [self] takes the object and returns the new one. *)

From Stdlib Require Import ZArith String Ascii Lia.
From stdpp Require Import base list strings.

Local Open Scope Z_scope.

(** ** Exceptions *)

Inductive exn : Type :=
| IndexError
| KeyError
| ValueError
| OverflowError
| BinasciiError.

Inductive result (A : Type) : Type :=
| Ok (a : A)
| Raise (e : exn).

Arguments Ok {A} a.
Arguments Raise {A} e.

#[export] Instance result_ret : MRet result := fun A a => Ok a.
#[export] Instance result_bind : MBind result := fun A B f m =>
  match m with
  | Ok a => f a
  | Raise e => Raise e
  end.

(** [try: body except Exception: handler] *)
Definition try_except {A} (body : result A) (handler : result A) : result A :=
  match body with
  | Ok a => Ok a
  | Raise _ => handler
  end.

(** ** Strings *)

(** The characters of a [str], each a [str] of length one ([for c in s]). *)
Fixpoint chars (s : string) : list string :=
  match s with
  | EmptyString => []
  | String c s' => String c EmptyString :: chars s'
  end.

(** [''.join(l)] *)
Definition join (l : list string) : string := foldr String.append EmptyString l.

(** [c * n] for a character [c] *)
Fixpoint repeat_char (c : ascii) (n : nat) : string :=
  match n with
  | O => EmptyString
  | S n' => String c (repeat_char c n')
  end.

(** The truth value of a [str]: non-empty. *)
Definition truthy (s : string) : bool :=
  match s with
  | EmptyString => false
  | String _ _ => true
  end.

(** ** Dictionaries *)

Section Dict.
Context {V : Type}.

Definition dict := list (string * V).

(** [d.get(k)] *)
Fixpoint dict_get (d : dict) (k : string) : option V :=
  match d with
  | [] => None
  | (k', v) :: d' => if String.eqb k' k then Some v else dict_get d' k
  end.

(** [k in d] *)
Definition dict_in (k : string) (d : dict) : bool :=
  match dict_get d k with
  | Some _ => true
  | None => false
  end.

(** [d[k]] *)
Definition dict_item (d : dict) (k : string) : result V :=
  match dict_get d k with
  | Some v => Ok v
  | None => Raise KeyError
  end.

(** [d[k] = v]: an existing key keeps its position, a new key goes last. *)
Fixpoint dict_set (d : dict) (k : string) (v : V) : dict :=
  match d with
  | [] => [(k, v)]
  | (k', v') :: d' =>
      if String.eqb k' k then (k', v) :: d' else (k', v') :: dict_set d' k v
  end.
End Dict.

Arguments dict V : clear implicits.

(** [collections.Counter(iterable)]: [mapping[elem] = mapping.get(elem, 0) + 1]
    for each element in turn. *)
Definition Counter (elems : list string) : dict Z :=
  fold_left (fun m e => dict_set m e (default 0 (dict_get m e) + 1)) elems [].

(** ** [heapq] on a list, for any [<]

    [heappush] and [heappop] read the list only at positions inside it; a
    read outside, which Python would refuse, leaves the heap as it is. *)

Section Heapq.
Context {A : Type} (lt : A → A → bool).

(** The loop of [_siftdown]; it runs at most [pos] times. *)
Fixpoint _siftdown_loop (fuel : nat) (heap : list A) (startpos pos : nat)
    (newitem : A) : list A :=
  match fuel with
  | O => <[pos:=newitem]> heap
  | S fuel' =>
      if (startpos <? pos)%nat then
        let parentpos := ((pos - 1) / 2)%nat in
        match heap !! parentpos with
        | Some parent =>
            if lt newitem parent
            then _siftdown_loop fuel' (<[pos:=parent]> heap) startpos parentpos newitem
            else <[pos:=newitem]> heap
        | None => <[pos:=newitem]> heap
        end
      else <[pos:=newitem]> heap
  end.

Definition _siftdown (heap : list A) (startpos pos : nat) : list A :=
  match heap !! pos with
  | Some newitem => _siftdown_loop pos heap startpos pos newitem
  | None => heap
  end.

(** The loop of [_siftup]; it returns the heap with a hole and the hole's
    position.  [childpos] grows at every turn, so [length heap] turns are
    enough. *)
Fixpoint _siftup_loop (fuel : nat) (heap : list A) (pos : nat) : list A * nat :=
  match fuel with
  | O => (heap, pos)
  | S fuel' =>
      let endpos := length heap in
      let childpos := (2 * pos + 1)%nat in
      if (childpos <? endpos)%nat then
        let rightpos := (childpos + 1)%nat in
        let childpos :=
          match heap !! childpos, heap !! rightpos with
          | Some c, Some r => if negb (lt c r) then rightpos else childpos
          | _, _ => childpos
          end in
        match heap !! childpos with
        | Some c => _siftup_loop fuel' (<[pos:=c]> heap) childpos
        | None => (heap, pos)
        end
      else (heap, pos)
  end.

Definition _siftup (heap : list A) (pos : nat) : list A :=
  match heap !! pos with
  | Some newitem =>
      let '(heap, pos') := _siftup_loop (length heap) heap pos in
      _siftdown (<[pos':=newitem]> heap) pos pos'
  | None => heap
  end.

Definition heappush (heap : list A) (item : A) : list A :=
  _siftdown (heap ++ [item]) 0 (length heap).

(** [heap.pop()] removes the last element. *)
Definition heappop (heap : list A) : result (A * list A) :=
  match last heap with
  | None => Raise IndexError
  | Some lastelt =>
      let heap := removelast heap in
      match heap with
      | returnitem :: _ => Ok (returnitem, _siftup (<[0%nat:=lastelt]> heap) 0)
      | [] => Ok (lastelt, heap)
      end
  end.
End Heapq.

(** ** The Huffman codec (the same in both files) *)

#[local] Set Warnings "-register-all".
Inductive HuffmanNode : Type :=
  mkNode (char : string) (freq : Z) (left right : option HuffmanNode).
#[local] Set Warnings "+register-all".

Definition char (n : HuffmanNode) : string := let 'mkNode c _ _ _ := n in c.
Definition freq (n : HuffmanNode) : Z := let 'mkNode _ f _ _ := n in f.
Definition left (n : HuffmanNode) : option HuffmanNode := let 'mkNode _ _ l _ := n in l.
Definition right (n : HuffmanNode) : option HuffmanNode := let 'mkNode _ _ _ r := n in r.

(** [HuffmanNode.__lt__] *)
Definition node_lt (self other : HuffmanNode) : bool := freq self <? freq other.

(** The nested [generate_codes]; [codes] is the dictionary it writes to. *)
Fixpoint generate_codes (node : HuffmanNode) (code : string) (codes : dict string)
    : dict string :=
  match node with
  | mkNode c _ l r =>
      if truthy c then dict_set codes c code
      else
        let codes :=
          match l with
          | Some n => generate_codes n (code +:+ "0") codes
          | None => codes
          end in
        match r with
        | Some n => generate_codes n (code +:+ "1") codes
        | None => codes
        end
  end.

(** [while len(heap) > 1]: every turn removes one node, so [length heap]
    turns are enough. *)
Fixpoint merge_loop (fuel : nat) (heap : list HuffmanNode) : result (list HuffmanNode) :=
  match fuel with
  | O => Ok heap
  | S fuel' =>
      if (1 <? length heap)%nat then
        '(l, heap) ← heappop node_lt heap;
        '(r, heap) ← heappop node_lt heap;
        let internal := mkNode "" (freq l + freq r) (Some l) (Some r) in
        merge_loop fuel' (heappush node_lt heap internal)
      else Ok heap
  end.

Definition _build_huffman_tree (data : string) : result (dict string) :=
  let freq := Counter (chars data) in
  if (length freq =? 1)%nat then
    match chars data with
    | c :: _ => Ok [(c, "0")]
    | [] => Raise IndexError
    end
  else
    let heap :=
      fold_left (fun heap '(c, count) => heappush node_lt heap (mkNode c count None None))
        freq [] in
    heap ← merge_loop (length heap) heap;
    match heap with
    | root :: _ => Ok (generate_codes root "" [])
    | [] => Ok []
    end.

(** ** Integers, bytes and base64 *)

(** [int(s, 2)] for a string of binary digits; the empty string is refused.
    [_compress] passes nothing else: the codes are made of '0' and '1'. *)
Fixpoint int2_loop (s : string) (acc : Z) : result Z :=
  match s with
  | EmptyString => Ok acc
  | String c s' =>
      if Ascii.eqb c "0" then int2_loop s' (2 * acc)
      else if Ascii.eqb c "1" then int2_loop s' (2 * acc + 1)
      else Raise ValueError
  end.

Definition int2 (s : string) : result Z :=
  match s with
  | EmptyString => Raise ValueError
  | _ => int2_loop s 0
  end.

(** The [len] low bytes of [n], most significant first. *)
Fixpoint be_bytes (n : Z) (len : nat) : list Z :=
  match len with
  | O => []
  | S len' => (n / 256 ^ Z.of_nat len') mod 256 :: be_bytes n len'
  end.

(** [n.to_bytes(len, byteorder='big')] *)
Definition to_bytes (n : Z) (len : nat) : result (list Z) :=
  if (n <? 0) || (256 ^ Z.of_nat len <=? n) then Raise OverflowError
  else Ok (be_bytes n len).

(** [int.from_bytes(bs, byteorder='big')] *)
Definition from_bytes (bs : list Z) : Z :=
  fold_left (fun acc b => acc * 256 + b) bs 0.

Fixpoint pos_bin (p : positive) : string :=
  match p with
  | xH => "1"
  | xO p' => pos_bin p' +:+ "0"
  | xI p' => pos_bin p' +:+ "1"
  end.

(** [bin(n)[2:]] *)
Definition bin_digits (n : Z) : string :=
  match n with
  | Z0 => "0"
  | Zpos p => pos_bin p
  | Zneg p => "b" +:+ pos_bin p
  end.

(** [s.zfill(width)] for [s] without a sign *)
Definition zfill (s : string) (width : nat) : string :=
  repeat_char "0" (width - String.length s) +:+ s.

Definition ord (c : ascii) : Z := Z.of_N (N_of_ascii c).
Definition chr (n : Z) : ascii := ascii_of_N (Z.to_N n).

(** [s.encode()]: UTF-8, for code points below 256 *)
Fixpoint encode (s : string) : list Z :=
  match s with
  | EmptyString => []
  | String c s' =>
      if ord c <? 128 then ord c :: encode s'
      else (192 + ord c / 64) :: (128 + ord c mod 64) :: encode s'
  end.

Definition b64_alphabet : string :=
  "ABCDEFGHIJKLMNOPQRSTUVWXYZabcdefghijklmnopqrstuvwxyz0123456789+/".

Definition b64char (v : Z) : ascii :=
  default "="%char (String.get (Z.to_nat v) b64_alphabet).

(** [binascii.b2a_base64(bs, newline=False)]; the result is ASCII, so the
    [bytes] and its [.decode()] are the same [string]. *)
Fixpoint b64encode (bs : list Z) : string :=
  match bs with
  | [] => ""
  | [a] =>
      String (b64char (a / 4)) (String (b64char (a mod 4 * 16)) "==")
  | [a; b] =>
      String (b64char (a / 4)) (String (b64char (a mod 4 * 16 + b / 16))
        (String (b64char (b mod 16 * 4)) "="))
  | a :: b :: c :: rest =>
      String (b64char (a / 4)) (String (b64char (a mod 4 * 16 + b / 16))
        (String (b64char (b mod 16 * 4 + c / 64))
          (String (b64char (c mod 64)) (b64encode rest))))
  end.

(** [base64._urlsafe_encode_translation]: '+' to '-' and '/' to '_' *)
Definition urlsafe_encode_char (c : ascii) : ascii :=
  (if Ascii.eqb c "+" then "-" else if Ascii.eqb c "/" then "_" else c)%char.

(** [bytes.translate] with that table *)
Fixpoint urlsafe_encode_translate (s : string) : string :=
  match s with
  | EmptyString => EmptyString
  | String c s' => String (urlsafe_encode_char c) (urlsafe_encode_translate s')
  end.

Definition urlsafe_b64encode (bs : list Z) : string :=
  urlsafe_encode_translate (b64encode bs).

(** [base64._urlsafe_decode_translation]: '-' to '+' and '_' to '/' *)
Definition urlsafe_decode_translate (b : Z) : Z :=
  if b =? 45 then 43 else if b =? 95 then 47 else b.

(** [binascii]'s [table_a2b_base64]: the value of a base64 digit *)
Definition table_a2b_base64 (b : Z) : option Z :=
  if (65 <=? b) && (b <=? 90) then Some (b - 65)
  else if (97 <=? b) && (b <=? 122) then Some (b - 71)
  else if (48 <=? b) && (b <=? 57) then Some (b + 4)
  else if b =? 43 then Some 62
  else if b =? 47 then Some 63
  else None.

(** [binascii.a2b_base64(s)] without [strict_mode]: bytes outside the
    alphabet are skipped; a pad that completes the quad ends the input; an
    incomplete quad at the end is an error. *)
Fixpoint a2b_base64_loop (s : list Z) (quad_pos : nat) (leftchar : Z) (pads : nat)
    (bin_data : list Z) : result (list Z) :=
  match s with
  | [] => if (quad_pos =? 0)%nat then Ok bin_data else Raise BinasciiError
  | this_ch :: s' =>
      if this_ch =? 61 then
        if (2 <=? quad_pos)%nat then
          if (4 <=? quad_pos + (pads + 1))%nat then Ok bin_data
          else a2b_base64_loop s' quad_pos leftchar (pads + 1) bin_data
        else a2b_base64_loop s' quad_pos leftchar pads bin_data
      else
        match table_a2b_base64 this_ch with
        | None => a2b_base64_loop s' quad_pos leftchar pads bin_data
        | Some v =>
            match quad_pos with
            | 0%nat => a2b_base64_loop s' 1 v 0 bin_data
            | 1%nat =>
                a2b_base64_loop s' 2 (v mod 16) 0 (bin_data ++ [leftchar * 4 + v / 16])
            | 2%nat =>
                a2b_base64_loop s' 3 (v mod 4) 0 (bin_data ++ [leftchar * 16 + v / 4])
            | _ =>
                a2b_base64_loop s' 0 0 0 (bin_data ++ [leftchar * 64 + v])
            end
        end
  end.

Definition a2b_base64 (s : list Z) : result (list Z) := a2b_base64_loop s 0 0 0 [].

Definition urlsafe_b64decode (s : list Z) : result (list Z) :=
  a2b_base64 (map urlsafe_decode_translate s).

(** ** Compression and decompression *)

Definition _compress (data : string) : result (string * dict string) :=
  huffman_codes ← _build_huffman_tree data;
  codes ← mapM (dict_item huffman_codes) (chars data);
  let compressed := join codes in
  let padding_length := ((8 - String.length compressed mod 8) mod 8)%nat in
  let padded_binary := compressed +:+ repeat_char "0" padding_length in
  n ← int2 padded_binary;
  bytes_data ← to_bytes n ((String.length padded_binary + 7) / 8)%nat;
  let compressed_str := urlsafe_b64encode bytes_data in
  Ok (compressed_str, huffman_codes).

(** The decoding loop of [_decompress] over the bits that remain. *)
Fixpoint decode_loop (reverse_codes : dict string) (binary : list string)
    (current_code : string) (result : list string) : list string :=
  match binary with
  | [] => result
  | bit :: binary' =>
      let current_code := current_code +:+ bit in
      match dict_get reverse_codes current_code with
      | Some c => decode_loop reverse_codes binary' "" (result ++ [c])
      | None => decode_loop reverse_codes binary' current_code result
      end
  end.

(** [{code: char for char, code in huffman_codes.items()}] *)
Definition reverse_mapping (huffman_codes : dict string) : dict string :=
  fold_left (fun d '(c, code) => dict_set d code c) huffman_codes [].

Definition _decompress (compressed_str : string) (huffman_codes : dict string)
    : result string :=
  let reverse_codes := reverse_mapping huffman_codes in
  bytes_data ← urlsafe_b64decode (encode compressed_str);
  let binary := zfill (bin_digits (from_bytes bytes_data)) (length bytes_data * 8) in
  Ok (join (decode_loop reverse_codes (chars binary) "" [])).

(** ** [hashlib.sha256] *)

Definition w32 (x : Z) : Z := x mod 4294967296.
Definition rotr (n x : Z) : Z := Z.lor (Z.shiftr x n) (w32 (Z.shiftl x (32 - n))).
Definition Ch (x y z : Z) : Z := Z.lxor (Z.land x y) (Z.land (Z.lxor x 4294967295) z).
Definition Maj (x y z : Z) : Z := Z.lxor (Z.lxor (Z.land x y) (Z.land x z)) (Z.land y z).
Definition bsig0 (x : Z) : Z := Z.lxor (Z.lxor (rotr 2 x) (rotr 13 x)) (rotr 22 x).
Definition bsig1 (x : Z) : Z := Z.lxor (Z.lxor (rotr 6 x) (rotr 11 x)) (rotr 25 x).
Definition ssig0 (x : Z) : Z := Z.lxor (Z.lxor (rotr 7 x) (rotr 18 x)) (Z.shiftr x 3).
Definition ssig1 (x : Z) : Z := Z.lxor (Z.lxor (rotr 17 x) (rotr 19 x)) (Z.shiftr x 10).

(** Primality by trial division, and the first [n] primes. *)
Definition is_prime (n : Z) : bool :=
  forallb (fun d => negb (n mod Z.of_nat d =? 0)) (seq 2 (Z.to_nat n - 2)).

Definition first_primes (n : nat) : list Z :=
  take n (List.filter is_prime (Z.of_nat <$> seq 2 400)).

(** The largest [r] below [2 ^ bits] beyond the bits already set in [r]
    with [r ^ 3 <= n]. *)
Fixpoint cube_root_loop (bits : nat) (n r : Z) : Z :=
  match bits with
  | O => r
  | S bits' =>
      let r' := r + 2 ^ Z.of_nat bits' in
      cube_root_loop bits' n (if r' ^ 3 <=? n then r' else r)
  end.

(** The round constants: the first 32 bits of the fractional parts of the
    cube roots of the first 64 primes. *)
Definition sha256_K : list Z :=
  Eval vm_compute in
    (fun p => w32 (cube_root_loop 40 (p * 2 ^ 96) 0)) <$> first_primes 64.

(** The initial hash value: the first 32 bits of the fractional parts of
    the square roots of the first 8 primes. *)
Definition sha256_H0 : list Z :=
  Eval vm_compute in (fun p => w32 (Z.sqrt (p * 2 ^ 64))) <$> first_primes 8.

(** The message followed by the bit 1, zeros, and its length in bits on 64
    bits, a multiple of 64 bytes in all. *)
Definition sha256_pad (msg : list Z) : list Z :=
  let len := length msg in
  let zeros := ((64 - (len + 9) mod 64) mod 64)%nat in
  msg ++ [128] ++ replicate zeros 0 ++ be_bytes (8 * Z.of_nat len) 8.

(** Big-endian 32-bit words of a byte sequence. *)
Fixpoint be_words (bs : list Z) : list Z :=
  match bs with
  | a :: b :: c :: d :: bs' => (((a * 256 + b) * 256 + c) * 256 + d) :: be_words bs'
  | _ => []
  end.

(** The message schedule: [n] more words after the ones in [w]. *)
Fixpoint sha256_schedule (n : nat) (w : list Z) : list Z :=
  match n with
  | O => w
  | S n' =>
      let t := length w in
      let x := w32 (ssig1 (nth (t - 2) w 0) + nth (t - 7) w 0
                    + ssig0 (nth (t - 15) w 0) + nth (t - 16) w 0) in
      sha256_schedule n' (w ++ [x])
  end.

Definition sha256_round (s : list Z) (kw : Z * Z) : list Z :=
  match s with
  | [a; b; c; d; e; f; g; h] =>
      let t1 := h + bsig1 e + Ch e f g + fst kw + snd kw in
      let t2 := bsig0 a + Maj a b c in
      [w32 (t1 + t2); a; b; c; w32 (d + t1); e; f; g]
  | _ => s
  end.

Definition sha256_block (h : list Z) (block : list Z) : list Z :=
  let w := sha256_schedule 48 (be_words block) in
  let s := fold_left sha256_round (zip sha256_K w) h in
  zip_with (fun x y => w32 (x + y)) h s.

(** The state after the blocks of [bs], 64 bytes a block. *)
Fixpoint sha256_blocks (n : nat) (h : list Z) (bs : list Z) : list Z :=
  match n with
  | O => h
  | S n' => sha256_blocks n' (sha256_block h (take 64 bs)) (drop 64 bs)
  end.

(** [hashlib.sha256(msg).digest()] *)
Definition sha256 (msg : list Z) : list Z :=
  let padded := sha256_pad msg in
  let h := sha256_blocks (length padded / 64) sha256_H0 padded in
  concat (map (fun x => be_bytes x 4) h).

Definition hexchar (v : Z) : ascii :=
  default "0"%char (String.get (Z.to_nat v) "0123456789abcdef").

(** [bs.hex()], as in [hexdigest] *)
Fixpoint hex (bs : list Z) : string :=
  match bs with
  | [] => ""
  | b :: bs' => String (hexchar (b / 16)) (String (hexchar (b mod 16)) (hex bs'))
  end.

Definition hexval (c : ascii) : option Z :=
  let n := ord c in
  if (48 <=? n) && (n <=? 57) then Some (n - 48)
  else if (97 <=? n) && (n <=? 102) then Some (n - 87)
  else if (65 <=? n) && (n <=? 70) then Some (n - 55)
  else None.

(** [bytes.fromhex(s)] for [s] without spaces *)
Fixpoint fromhex (s : string) : result (list Z) :=
  match s with
  | EmptyString => Ok []
  | String c1 (String c2 s') =>
      match hexval c1, hexval c2 with
      | Some h, Some l => bs ← fromhex s'; Ok (h * 16 + l :: bs)
      | _, _ => Raise ValueError
      end
  | String _ EmptyString => Raise ValueError
  end.

(** ** The short-code generator (the same in both files) *)

(** [s.rstrip(c)] for a single character [c] *)
Fixpoint rstrip (c : ascii) (s : string) : string :=
  match s with
  | EmptyString => EmptyString
  | String a s' =>
      match rstrip c s' with
      | EmptyString => if Ascii.eqb a c then EmptyString else String a EmptyString
      | r => String a r
      end
  end.

(** The candidate of one attempt: eight base64 characters made from the
    first eight bytes of the digest, then the random letters. *)
Definition short_code_candidate (hash_hex suffix : string) : result string :=
  bs ← fromhex (substring 0 16 hash_hex);
  let short_code := substring 0 8 (rstrip "=" (urlsafe_b64encode bs)) in
  Ok (short_code +:+ suffix).

(** [for _ in range(attempts)]; [rnd i] is what the [i]-th call of
    [''.join(random.choices(string.ascii_lowercase, k=4))] returns.  The
    second component is the number of the next draw. *)
Fixpoint generate_loop (attempts : nat) (code_to_url : dict string) (hash_hex : string)
    (rnd : nat → string) (i : nat) : result string * nat :=
  match attempts with
  | O => (Raise ValueError, i)
  | S attempts' =>
      match short_code_candidate hash_hex (rnd i) with
      | Ok short_code =>
          if dict_in short_code code_to_url
          then generate_loop attempts' code_to_url hash_hex rnd (S i)
          else (Ok short_code, S i)
      | Raise e => (Raise e, i)
      end
  end.

Definition generate_short_code (max_collision_attempts : nat) (code_to_url : dict string)
    (rnd : nat → string) (i : nat) (url : string) : result string * nat :=
  let hash_hex := hex (sha256 (encode url)) in
  generate_loop max_collision_attempts code_to_url hash_hex rnd i.

Definition is_lowercase (c : ascii) : bool := (97 <=? ord c) && (ord c <=? 122).

Fixpoint all_chars (p : ascii → bool) (s : string) : bool :=
  match s with
  | EmptyString => true
  | String c s' => p c && all_chars p s'
  end.

(** What [''.join(random.choices(string.ascii_lowercase, k=4))] can return. *)
Definition lowercase4 (s : string) : bool :=
  (String.length s =? 4)%nat && all_chars is_lowercase s.

Definition is_letter (c : ascii) : bool :=
  is_lowercase c || ((65 <=? ord c) && (ord c <=? 90)).

(** What [random.choice(string.ascii_letters)] can return. *)
Definition letter1 (s : string) : bool :=
  (String.length s =? 1)%nat && all_chars is_letter s.

(** ** The example at the end of both files *)

(** [str(x)] in the f-strings, and the newline. *)
Definition str_option (o : option string) : string := default "None" o.
Definition str_bool (b : bool) : string := if b then "True" else "False".
Definition newline : string := String "010"%char "".

(** [expanded == url] *)
Definition matches (expanded : option string) (url : string) : bool :=
  match expanded with
  | Some u => String.eqb u url
  | None => false
  end.

(** ** [URL.py]: codec metadata by short code, [expand_url] scans *)

Module URL.

Record compressed_info : Type := mk_info {
  compressed : string;
  huffman_codes : dict string;
  original_url : string
}.

Record URLShortener : Type := mk_shortener {
  url_to_code : dict string;
  code_to_url : dict string;
  compressed_data : dict compressed_info;
  max_collision_attempts : nat
}.

Definition __init__ : URLShortener :=
  {| url_to_code := []; code_to_url := []; compressed_data := [];
     max_collision_attempts := 10 |}.

Definition _generate_short_code (self : URLShortener) (rnd : nat → string)
    (url : string) : result string :=
  fst (generate_short_code (max_collision_attempts self) (code_to_url self) rnd 0 url).

Definition shorten_url (self : URLShortener) (rnd : nat → string) (long_url : string)
    : result (string * string) * URLShortener :=
  if dict_in long_url (url_to_code self) then
    (short_code ← dict_item (url_to_code self) long_url;
     compressed_info ← dict_item (compressed_data self) short_code;
     Ok (short_code, compressed compressed_info), self)
  else
    match _generate_short_code self rnd long_url with
    | Raise e => (Raise e, self)
    | Ok short_code =>
        let self :=
          {| url_to_code := dict_set (url_to_code self) long_url short_code;
             code_to_url := dict_set (code_to_url self) short_code long_url;
             compressed_data := compressed_data self;
             max_collision_attempts := max_collision_attempts self |} in
        match _compress short_code with
        | Raise e => (Raise e, self)
        | Ok (compressed_str, huffman_codes) =>
            let info :=
              {| compressed := compressed_str; huffman_codes := huffman_codes;
                 original_url := long_url |} in
            (Ok (short_code, compressed_str),
             {| url_to_code := url_to_code self;
                code_to_url := code_to_url self;
                compressed_data := dict_set (compressed_data self) short_code info;
                max_collision_attempts := max_collision_attempts self |})
        end
    end.

(** The body of the [try] for one record: [Some u] is [return u]. *)
Definition expand_try (self : URLShortener) (compressed_code : string)
    (data : compressed_info) : result (option string) :=
  decompressed ← _decompress compressed_code (huffman_codes data);
  if dict_in decompressed (code_to_url self) then
    url ← dict_item (code_to_url self) decompressed;
    if String.eqb url (original_url data) then
      url ← dict_item (code_to_url self) decompressed;
      Ok (Some url)
    else Ok None
  else Ok None.

(** [for short_code, data in self.compressed_data.items()] *)
Fixpoint expand_loop (self : URLShortener) (compressed_code : string)
    (items : list (string * compressed_info)) : result (option string) :=
  match items with
  | [] => Ok None
  | (short_code, data) :: items' =>
      r ← try_except (expand_try self compressed_code data) (Ok None);
      match r with
      | Some url => Ok (Some url)
      | None => expand_loop self compressed_code items'
      end
  end.

Definition expand_url (self : URLShortener) (compressed_code : string)
    : result (option string) * URLShortener :=
  (expand_loop self compressed_code (compressed_data self), self).

(** The objects a program can hold: a new one, and what calls of the two
    methods leave behind, whatever they return.  The draws are strings that
    [random.choices(string.ascii_lowercase, k=4)] can produce. *)
Inductive reachable : URLShortener → Prop :=
| reachable_init : reachable __init__
| reachable_shorten self rnd long_url r self' :
    reachable self →
    (∀ i, lowercase4 (rnd i) = true) →
    shorten_url self rnd long_url = (r, self') →
    reachable self'
| reachable_expand self compressed_code r self' :
    reachable self →
    expand_url self compressed_code = (r, self') →
    reachable self'.

(** The three URLs of the example at the end of the file. *)
Definition test_urls : list string :=
  [ "https://www.example.com/very/long/path/to/resource?param1=value1&param2=value2";
    "https://another-example.com/blog/post/2024/01/15/how-to-implement-url-shortener";
    "https://third-example.net/products/category/subcategory/item?id=12345&sort=price" ].

(** [for url in test_urls]; [draws k] is the sequence of random strings
    for the [k]-th pass.  The result is the arguments of [print] so far,
    and the exception that ended the run, if any. *)
Fixpoint main_loop (shortener : URLShortener) (draws : nat → nat → string) (k : nat)
    (urls : list string) (out : list string) : list string * option exn :=
  match urls with
  | [] => (out, None)
  | url :: urls' =>
      let out := out ++ ["Original URL: " +:+ url] in
      match shorten_url shortener (draws k) url with
      | (Raise e, _) => (out, Some e)
      | (Ok (short_code, compressed), shortener) =>
          let out := out ++ ["Short Code: " +:+ short_code;
                             "Compressed Code: " +:+ compressed] in
          match expand_url shortener compressed with
          | (Raise e, _) => (out, Some e)
          | (Ok expanded, shortener) =>
              let out := out ++ ["Expanded URL: " +:+ str_option expanded;
                                 "Matches original: " +:+ str_bool (matches expanded url)
                                 +:+ newline] in
              main_loop shortener draws (S k) urls' out
          end
      end
  end.

(** The example at the end of the file. *)
Definition main (draws : nat → nat → string) : list string * option exn :=
  main_loop __init__ draws 0 test_urls
    ["Testing URL Shortener with Huffman Encoding:" +:+ newline].

End URL.

(** ** [_URL.py]: codec metadata by compressed code, [expand_url] looks up *)

Module _URL.

(** The records of this file have no ['compressed'] entry. *)
Record compressed_info : Type := mk_info {
  huffman_codes : dict string;
  original_url : string
}.

Record URLShortener : Type := mk_shortener {
  url_to_code : dict string;
  code_to_url : dict string;
  compressed_data : dict compressed_info;
  max_collision_attempts : nat
}.

Definition __init__ : URLShortener :=
  {| url_to_code := []; code_to_url := []; compressed_data := [];
     max_collision_attempts := 10 |}.

(** [info[key]] on a record of [compressed_data] *)
Definition info_str (info : compressed_info) (key : string) : result string :=
  if String.eqb key "original_url" then Ok (original_url info) else Raise KeyError.

Definition _generate_short_code (self : URLShortener) (rnd : nat → string) (i : nat)
    (url : string) : result string * nat :=
  generate_short_code (max_collision_attempts self) (code_to_url self) rnd i url.

(** [while short_code in self.code_to_url]; [letters j] is what the [j]-th
    call of [random.choice(string.ascii_letters)] returns.  [None] when
    [fuel] turns did not end the loop. *)
Fixpoint regenerate (fuel : nat) (self : URLShortener) (rnd letters : nat → string)
    (long_url short_code : string) (i j : nat) : option (result string) :=
  match fuel with
  | O => None
  | S fuel' =>
      if dict_in short_code (code_to_url self) then
        match _generate_short_code self rnd i (long_url +:+ letters j) with
        | (Ok short_code, i') =>
            regenerate fuel' self rnd letters long_url short_code i' (S j)
        | (Raise e, _) => Some (Raise e)
        end
      else Some (Ok short_code)
  end.

Definition shorten_url (fuel : nat) (self : URLShortener) (rnd letters : nat → string)
    (long_url : string) : option (result (string * string) * URLShortener) :=
  if dict_in long_url (url_to_code self) then
    Some (short_code ← dict_item (url_to_code self) long_url;
          compressed_info ← dict_item (compressed_data self) short_code;
          compressed ← info_str compressed_info "compressed";
          Ok (short_code, compressed), self)
  else
    match _generate_short_code self rnd 0 long_url with
    | (Raise e, _) => Some (Raise e, self)
    | (Ok short_code, i) =>
        match regenerate fuel self rnd letters long_url short_code i 0 with
        | None => None
        | Some (Raise e) => Some (Raise e, self)
        | Some (Ok short_code) =>
            let self :=
              {| url_to_code := dict_set (url_to_code self) long_url short_code;
                 code_to_url := dict_set (code_to_url self) short_code long_url;
                 compressed_data := compressed_data self;
                 max_collision_attempts := max_collision_attempts self |} in
            match _compress short_code with
            | Raise e => Some (Raise e, self)
            | Ok (compressed_str, huffman_codes) =>
                let info :=
                  {| huffman_codes := huffman_codes; original_url := long_url |} in
                Some (Ok (short_code, compressed_str),
                      {| url_to_code := url_to_code self;
                         code_to_url := code_to_url self;
                         compressed_data :=
                           dict_set (compressed_data self) compressed_str info;
                         max_collision_attempts := max_collision_attempts self |})
            end
        end
    end.

Definition expand_url (self : URLShortener) (compressed_code : string)
    : result (option string) * URLShortener :=
  if negb (dict_in compressed_code (compressed_data self)) then (Ok None, self)
  else
    (data ← dict_item (compressed_data self) compressed_code;
     let huffman_codes := huffman_codes data in
     match _decompress compressed_code huffman_codes with
     | Raise _ => Ok None
     | Ok short_code => Ok (dict_get (code_to_url self) short_code)
     end,
     self).

(** The objects a program can hold, as for [URL.py]; the letters are what
    [random.choice(string.ascii_letters)] can produce. *)
Inductive reachable : URLShortener → Prop :=
| reachable_init : reachable __init__
| reachable_shorten fuel self rnd letters long_url r self' :
    reachable self →
    (∀ i, lowercase4 (rnd i) = true) →
    (∀ j, letter1 (letters j) = true) →
    shorten_url fuel self rnd letters long_url = Some (r, self') →
    reachable self'
| reachable_expand self compressed_code r self' :
    reachable self →
    expand_url self compressed_code = (r, self') →
    reachable self'.

(** The example at the end of the file: its list of URLs is empty. *)
Definition test_urls : list string := [].

Fixpoint main_loop (fuel : nat) (shortener : URLShortener) (draws : nat → nat → string)
    (letters : nat → nat → string) (k : nat) (urls : list string) (out : list string)
    : option (list string * option exn) :=
  match urls with
  | [] => Some (out, None)
  | url :: urls' =>
      let out := out ++ ["Original URL: " +:+ url] in
      match shorten_url fuel shortener (draws k) (letters k) url with
      | None => None
      | Some (Raise e, _) => Some (out, Some e)
      | Some (Ok (short_code, compressed), shortener) =>
          let out := out ++ ["Short Code: " +:+ short_code;
                             "Compressed Code: " +:+ compressed] in
          match expand_url shortener compressed with
          | (Raise e, _) => Some (out, Some e)
          | (Ok expanded, shortener) =>
              let out := out ++ ["Expanded URL: " +:+ str_option expanded;
                                 "Matches original: "
                                 +:+ str_bool (matches expanded url)
                                 +:+ newline] in
              main_loop fuel shortener draws letters (S k) urls' out
          end
      end
  end.

Definition main (fuel : nat) (draws letters : nat → nat → string)
    : option (list string * option exn) :=
  main_loop fuel __init__ draws letters 0 test_urls
    ["Testing URL Shortener with Huffman Encoding:" +:+ newline].

End _URL.

(** ** Vocabulary of the properties *)

Definition is_bit (c : ascii) : bool := Ascii.eqb c "0" || Ascii.eqb c "1".

(** The leaves [generate_codes] reaches below a node, each with the code
    it receives when the node itself has code [code]. *)
Fixpoint paths (node : HuffmanNode) (code : string) : list (string * string) :=
  match node with
  | mkNode c _ l r =>
      if truthy c then [(c, code)]
      else
        match l with
        | Some n => paths n (code +:+ "0")
        | None => []
        end ++
        match r with
        | Some n => paths n (code +:+ "1")
        | None => []
        end
  end.

Definition leaves (node : HuffmanNode) : list string := (paths node "").*1.

(** No string of the list is a prefix of a string at another position. *)
Definition pairwise_prefix_free (l : list string) : Prop :=
  ∀ i j p q, l !! i = Some p → l !! j = Some q → String.prefix p q = true → i = j.

(** No code of the table is a prefix of the code of another symbol. *)
Definition prefix_free (codes : dict string) : Prop :=
  ∀ c1 c2 p1 p2,
    dict_get codes c1 = Some p1 → dict_get codes c2 = Some p2 → c1 ≠ c2 →
    String.prefix p1 p2 = false.

(** The symbols [_decompress] makes of [n] padding bits under a table. *)
Definition padding_symbols (codes : dict string) (n : nat) : list string :=
  decode_loop (reverse_mapping codes) (chars (repeat_char "0" n)) "" [].

(** The tree node of an entry of the frequency table. *)
Definition leaf_of (e : string * Z) : HuffmanNode := mkNode e.1 e.2 None None.

(** Every candidate of the first [n] attempts for [url] is a key of
    [code_to_url]. *)
Definition all_taken (n : nat) (code_to_url : dict string) (rnd : nat → string)
    (url : string) : Prop :=
  ∀ k, (k < n)%nat →
    ∃ short_code,
      short_code_candidate (hex (sha256 (encode url))) (rnd k) = Ok short_code
      ∧ dict_in short_code code_to_url = true.

(** [compressed_code] decodes, under the table of a record of [URL.py], to
    the short code the record is stored under. *)
Definition decodes_to (compressed_code : string) (entry : string * URL.compressed_info)
    : bool :=
  match _decompress compressed_code (URL.huffman_codes entry.2) with
  | Ok s => String.eqb s entry.1
  | Raise _ => false
  end.

(** The three mappings of [URL.py] agree: [url_to_code] and [code_to_url]
    are inverse to each other, and every URL has one record, stored under
    its short code, that holds the URL and the compression of the short
    code. *)
Record URL_consistent (self : URL.URLShortener) : Prop := {
  consistent_fwd : ∀ u sc,
    dict_get (URL.url_to_code self) u = Some sc →
    dict_get (URL.code_to_url self) sc = Some u;
  consistent_bwd : ∀ u sc,
    dict_get (URL.code_to_url self) sc = Some u →
    dict_get (URL.url_to_code self) u = Some sc;
  consistent_record : ∀ u sc,
    dict_get (URL.url_to_code self) u = Some sc →
    ∃ data, dict_get (URL.compressed_data self) sc = Some data;
  consistent_data : ∀ sc data,
    (sc, data) ∈ URL.compressed_data self →
    dict_get (URL.code_to_url self) sc = Some (URL.original_url data)
    ∧ _compress sc = Ok (URL.compressed data, URL.huffman_codes data);
  consistent_keys : NoDup (URL.compressed_data self).*1
}.

(** The number of base64 digits among the bytes of a text. *)
Definition b64_digits (s : list Z) : nat :=
  length (filter (fun b => is_Some (table_a2b_base64 (urlsafe_decode_translate b))) s).

(** ** Example runs *)

Definition first_url : string := default "" (URL.test_urls !! 0%nat).
Definition third_url : string := default "" (URL.test_urls !! 2%nat).

(** [URL.py]: a new object after [shorten_url(first_url)] when
    [random.choices] returns a, b, c, d. *)
Definition store_abcd : URL.URLShortener :=
  (URL.shorten_url URL.__init__ (fun _ => "abcd") first_url).2.

(** [URL.py]: a new object after [shorten_url(first_url)], and then after
    [shorten_url(third_url)], when [random.choices] returns x, x, y, y both
    times. *)
Definition store_xxyy : URL.URLShortener :=
  (URL.shorten_url URL.__init__ (fun _ => "xxyy") first_url).2.

Definition store_xxyy_twice : URL.URLShortener :=
  (URL.shorten_url store_xxyy (fun _ => "xxyy") third_url).2.

(** [_URL.py]: the same runs. *)
Definition _store_after (self : _URL.URLShortener) (draw url : string)
    : _URL.URLShortener :=
  match _URL.shorten_url 1 self (fun _ => draw) (fun _ => "a") url with
  | Some (_, self') => self'
  | None => self
  end.

Definition _store_abcd : _URL.URLShortener := _store_after _URL.__init__ "abcd" first_url.
Definition _store_xxyy : _URL.URLShortener := _store_after _URL.__init__ "xxyy" first_url.
Definition _store_xxyy_twice : _URL.URLShortener := _store_after _store_xxyy "xxyy" third_url.

(** A store in which the only candidate for [first_url] with the draw
    x, x, y, y is taken, and one attempt is allowed. *)
Definition store_taken : URL.URLShortener :=
  {| URL.url_to_code := [("https://example.org/", "mWPJSCMsxxyy")];
     URL.code_to_url := [("mWPJSCMsxxyy", "https://example.org/")];
     URL.compressed_data := [];
     URL.max_collision_attempts := 1 |}.

(** The three mappings of [_URL.py] agree: [url_to_code] and [code_to_url]
    are inverse to each other, the short codes have twelve characters, and
    every record is stored under the compression of the short code of its
    URL, with the table of that compression. *)
Record _URL_consistent (self : _URL.URLShortener) : Prop := {
  _consistent_fwd : ∀ u sc,
    dict_get (_URL.url_to_code self) u = Some sc →
    dict_get (_URL.code_to_url self) sc = Some u;
  _consistent_bwd : ∀ u sc,
    dict_get (_URL.code_to_url self) sc = Some u →
    dict_get (_URL.url_to_code self) u = Some sc;
  _consistent_length : ∀ u sc,
    dict_get (_URL.code_to_url self) sc = Some u → String.length sc = 12%nat;
  _consistent_data : ∀ q data,
    (q, data) ∈ _URL.compressed_data self →
    ∃ sc, dict_get (_URL.code_to_url self) sc = Some (_URL.original_url data)
      ∧ _compress sc = Ok (q, _URL.huffman_codes data);
  _consistent_keys : NoDup (_URL.compressed_data self).*1
}.

(** ** Vocabulary of the further properties *)

(** A tree as [_build_huffman_tree] makes them: a node with a character
    is a leaf, a node without one has two such children. *)
Fixpoint full (node : HuffmanNode) : bool :=
  match node with
  | mkNode c _ l r =>
      truthy c
      || match l, r with
         | Some a, Some b => full a && full b
         | _, _ => false
         end
  end.

(** The characters of URL-safe base64 other than the pad: letters, digits,
    '-' and '_'. *)
Definition is_urlsafe (c : ascii) : bool :=
  is_letter c || ((48 <=? ord c) && (ord c <=? 57)) || Ascii.eqb c "-" || Ascii.eqb c "_".

Definition is_urlsafe_or_pad (c : ascii) : bool := is_urlsafe c || Ascii.eqb c "=".

(** A byte the base64 decoder skips: not the pad and, after the URL-safe
    translation, not a digit. *)
Definition b64_skipped_byte (b : Z) : bool :=
  negb (b =? 61)
  && match table_a2b_base64 (urlsafe_decode_translate b) with
     | Some _ => false
     | None => true
     end.

(** A character whose bytes the decoder skips. *)
Definition b64_skipped (c : ascii) : bool := b64_skipped_byte (ord c).

(** A string, a tree and a table with every character replaced by its
    image under [f]. *)
Fixpoint rename (f : ascii → ascii) (s : string) : string :=
  match s with
  | EmptyString => EmptyString
  | String c s' => String (f c) (rename f s')
  end.

Fixpoint rename_node (f : ascii → ascii) (node : HuffmanNode) : HuffmanNode :=
  match node with
  | mkNode c n l r =>
      mkNode (rename f c) n
        match l with
        | Some a => Some (rename_node f a)
        | None => None
        end
        match r with
        | Some b => Some (rename_node f b)
        | None => None
        end
  end.

Definition rename_keys {V} (f : ascii → ascii) (d : dict V) : dict V :=
  (fun e => (rename f e.1, e.2)) <$> d.

(** An exchange of characters that turns the short code "mWPJSCMsxxyy"
    into "wu2HfOzaxxyy". *)
Definition exchange (c : ascii) : ascii :=
  fold_right
    (fun '(a, b) rest =>
       if Ascii.eqb c a then b else if Ascii.eqb c b then a else rest)
    c
    [("m", "w"); ("W", "u"); ("P", "2"); ("J", "H"); ("S", "f"); ("C", "O");
     ("M", "z"); ("s", "a")]%char.

(** The invariant of [heapq]: no element is less than its parent, which
    is the element at half its position. *)
Definition heap_ordered {A} (lt : A → A → bool) (heap : list A) : Prop :=
  ∀ i x p, (0 < i)%nat →
    heap !! i = Some x → heap !! ((i - 1) / 2)%nat = Some p → lt x p = false.

(** One step of Huffman's algorithm on a collection of trees: a tree of
    least frequency and a tree of least frequency among the others are
    joined, the first to the left. *)
Definition huffman_step (forest forest' : list HuffmanNode) : Prop :=
  ∃ l r rest,
    forest ≡ₚ l :: r :: rest
    ∧ Forall (fun n => freq l ≤ freq n) (r :: rest)
    ∧ Forall (fun n => freq r ≤ freq n) rest
    ∧ forest' ≡ₚ mkNode "" (freq l + freq r) (Some l) (Some r) :: rest.

(** The number of times a character occurs. *)
Definition occurrences (c : string) (elems : list string) : Z :=
  Z.of_nat (length (List.filter (String.eqb c) elems)).

(** Huffman's algorithm: steps one after the other. *)
Inductive huffman_steps : list HuffmanNode → list HuffmanNode → Prop :=
| huffman_steps_refl forest : huffman_steps forest forest
| huffman_steps_step forest forest' forest'' :
    huffman_step forest forest' →
    huffman_steps forest' forest'' →
    huffman_steps forest forest''.

(** * Properties *)

(** ** The model on known values *)

Example sha256_abc :
  hex (sha256 (encode "abc"))
  = "ba7816bf8f01cfea414140de5dae2223b00361a396177a9cb410ff61f20015ad".
Proof. vm_compute. reflexivity. Qed.

Example sha256_empty :
  hex (sha256 [])
  = "e3b0c44298fc1c149afbf4c8996fb92427ae41e4649b934ca495991b7852b855".
Proof. vm_compute. reflexivity. Qed.

Example short_code_first_url :
  short_code_candidate (hex (sha256 (encode (default "" (URL.test_urls !! 0%nat))))) "abcd"
  = Ok "mWPJSCMsabcd".
Proof. vm_compute. reflexivity. Qed.

Example urlsafe_b64encode_bytes :
  urlsafe_b64encode [251; 255; 191; 0] = "-_-_AA==" ∧ urlsafe_b64encode [] = "".
Proof. split; vm_compute; reflexivity. Qed.

(** The decoder skips '!', stops at the pad that completes a group, and
    refuses a text that ends inside a group. *)
Example urlsafe_b64decode_texts :
  urlsafe_b64decode (encode "AA=!=") = Ok [0]
  ∧ urlsafe_b64decode (encode "AA==AA") = Ok [0]
  ∧ urlsafe_b64decode (encode "_-+/") = Ok [255; 239; 191]
  ∧ urlsafe_b64decode (encode "not-a-real-code") = Raise BinasciiError
  ∧ urlsafe_b64decode (encode "AA=A") = Raise BinasciiError.
Proof. split_and!; vm_compute; reflexivity. Qed.

Example heapq_pushes_and_pops :
  let heap := fold_left (heappush Z.ltb) [5; 3; 8; 1; 4] [] in
  heap = [1; 3; 8; 5; 4]
  ∧ heappop Z.ltb heap = Ok (1, [3; 4; 8; 5]).
Proof. split; vm_compute; reflexivity. Qed.

Example _build_huffman_tree_abracadabra :
  _build_huffman_tree "abracadabra"
  = Ok [("a", "0"); ("c", "100"); ("d", "101"); ("r", "110"); ("b", "111")].
Proof. vm_compute. reflexivity. Qed.

(** [bin(0)] is '0': the empty text decodes as one '0' bit. *)
Example _decompress_empty_text : _decompress "" [("a", "0")] = Ok "a".
Proof. vm_compute. reflexivity. Qed.

(** ** Exceptions *)

Lemma bind_Ok {A B} (f : A → result B) (a : A) : Ok a ≫= f = f a.
Proof. reflexivity. Qed.


(** ** Dictionaries *)

Section DictFacts.
Context {V : Type}.
Implicit Types (d : dict V) (k : string) (v : V).

Lemma dict_get_set_eq d k v : dict_get (dict_set d k v) k = Some v.
Proof.
  induction d as [|[k' v'] d IH]; simpl.
  - by rewrite String.eqb_refl.
  - destruct (String.eqb k' k) eqn:E; simpl; rewrite E; auto.
Qed.

Lemma dict_get_set_ne d k k' v :
  k ≠ k' → dict_get (dict_set d k v) k' = dict_get d k'.
Proof.
  intros Hne. induction d as [|[k0 v0] d IH]; simpl.
  - destruct (String.eqb_spec k k'); congruence.
  - destruct (String.eqb_spec k0 k) as [->|]; simpl.
    + destruct (String.eqb_spec k k'); congruence.
    + destruct (String.eqb_spec k0 k'); auto.
Qed.

Lemma dict_get_set d k k' v :
  dict_get (dict_set d k v) k' = if String.eqb k k' then Some v else dict_get d k'.
Proof.
  destruct (String.eqb_spec k k') as [->|].
  - apply dict_get_set_eq.
  - by apply dict_get_set_ne.
Qed.

Lemma dict_item_Some d k v : dict_get d k = Some v → dict_item d k = Ok v.
Proof. unfold dict_item. by intros ->. Qed.

Lemma dict_item_None d k : dict_get d k = None → dict_item d k = Raise KeyError.
Proof. unfold dict_item. by intros ->. Qed.

Lemma dict_in_true d k : dict_in k d = true ↔ ∃ v, dict_get d k = Some v.
Proof.
  unfold dict_in. destruct (dict_get d k); split; eauto; try discriminate.
  intros [? ?]; discriminate.
Qed.

Lemma dict_in_false d k : dict_in k d = false ↔ dict_get d k = None.
Proof. unfold dict_in. destruct (dict_get d k); split; congruence. Qed.

Lemma dict_get_None d k : dict_get d k = None ↔ k ∉ d.*1.
Proof.
  induction d as [|[k' v'] d IH]; simpl.
  - split; [intros _; apply not_elem_of_nil | done].
  - rewrite not_elem_of_cons.
    destruct (String.eqb_spec k' k) as [->|]; split; try done.
    + intros [? _]; congruence.
    + intros ?; split; [congruence | by apply IH].
    + intros [_ ?]; by apply IH.
Qed.

Lemma dict_get_Some_elem d k v : dict_get d k = Some v → (k, v) ∈ d.
Proof.
  induction d as [|[k' v'] d IH]; simpl; [done|].
  destruct (String.eqb_spec k' k) as [->|].
  - intros [= ->]. apply list_elem_of_here.
  - intros ?. apply list_elem_of_further; auto.
Qed.

(** With unique keys an entry is what [get] finds. *)
Lemma dict_elem_get d k v : NoDup d.*1 → (k, v) ∈ d → dict_get d k = Some v.
Proof.
  induction d as [|[k' v'] d IH]; simpl; intros Hnd Hin.
  - by apply elem_of_nil in Hin.
  - apply NoDup_cons in Hnd as [Hk Hnd].
    apply elem_of_cons in Hin as [[= <- <-]|Hin].
    + by rewrite String.eqb_refl.
    + destruct (String.eqb_spec k' k) as [->|]; auto.
      exfalso; apply Hk. apply list_elem_of_fmap. by exists (k, v).
Qed.

(** A new key goes last. *)
Lemma dict_set_new d k v : k ∉ d.*1 → dict_set d k v = d ++ [(k, v)].
Proof.
  induction d as [|[k' v'] d IH]; simpl; [done|].
  rewrite not_elem_of_cons. intros [Hne Hk].
  destruct (String.eqb_spec k' k); [congruence|]. by rewrite IH.
Qed.

Lemma dict_set_keys_old d k v : k ∈ d.*1 → (dict_set d k v).*1 = d.*1.
Proof.
  induction d as [|[k' v'] d IH]; simpl; intros Hin.
  - by apply elem_of_nil in Hin.
  - destruct (String.eqb_spec k' k) as [->|]; [done|].
    rewrite !fmap_cons in *. simpl in *.
    apply elem_of_cons in Hin as [?|?]; [congruence|]. by rewrite IH.
Qed.

Lemma dict_set_NoDup d k v : NoDup d.*1 → NoDup (dict_set d k v).*1.
Proof.
  intros Hnd. destruct (decide (k ∈ d.*1)) as [Hin|Hnin].
  - by rewrite dict_set_keys_old.
  - rewrite dict_set_new, fmap_app by done. simpl.
    apply NoDup_app; split_and!; [done| |apply NoDup_singleton].
    intros x Hx Hx'. apply list_elem_of_singleton in Hx'. congruence.
Qed.

Lemma dict_set_keys_elem d k v k' : k' ∈ (dict_set d k v).*1 ↔ k' = k ∨ k' ∈ d.*1.
Proof.
  destruct (decide (k ∈ d.*1)) as [Hin|Hnin].
  - rewrite dict_set_keys_old by done. split; [auto|]. intros [->|]; auto.
  - rewrite dict_set_new, fmap_app, elem_of_app by done. simpl.
    rewrite list_elem_of_singleton. tauto.
Qed.

(** Writing entries with fresh, distinct keys appends them in order. *)
Lemma fold_dict_set_new (l : list (string * V)) d :
  NoDup (d ++ l).*1 →
  fold_left (fun d '(k, v) => dict_set d k v) l d = d ++ l.
Proof.
  revert d. induction l as [|[k v] l IH]; intros d Hnd; simpl.
  - by rewrite app_nil_r.
  - assert (k ∉ d.*1) as Hk.
    { rewrite fmap_app in Hnd. apply NoDup_app in Hnd as (_ & Hd & _).
      intros Hin. apply (Hd k Hin). simpl. apply list_elem_of_here. }
    rewrite dict_set_new by done. rewrite IH; rewrite <- app_assoc; done.
Qed.
End DictFacts.

(** ** [heapq]: the operations permute the heap *)

Section HeapqFacts.
Context {A : Type} (lt : A → A → bool).
Implicit Types (heap : list A).

(** Moving the hole from [i] to [j]: the element at [j] goes to [i]. *)
Lemma hole_move heap (i j : nat) (x y : A) :
  i ≠ j → (i < length heap)%nat → heap !! j = Some y →
  <[j:=x]> (<[i:=y]> heap) ≡ₚ <[i:=x]> heap.
Proof.
  intros Hne Hi Hj.
  rewrite <- (list_insert_insert_eq heap i y x).
  apply Permutation_insert_swap.
  - by apply list_lookup_insert_eq.
  - by rewrite list_lookup_insert_ne.
Qed.

Lemma _siftdown_loop_perm fuel heap startpos pos newitem :
  (pos < length heap)%nat →
  _siftdown_loop lt fuel heap startpos pos newitem ≡ₚ <[pos:=newitem]> heap.
Proof.
  revert heap pos. induction fuel as [|fuel IH]; intros heap pos Hpos;
    cbn [_siftdown_loop]; [reflexivity|].
  destruct (startpos <? pos)%nat eqn:Hlt; [|reflexivity].
  apply Nat.ltb_lt in Hlt.
  assert ((pos - 1) / 2 < pos)%nat as Hparent.
  { apply Nat.Div0.div_lt_upper_bound. lia. }
  destruct (heap !! ((pos - 1) / 2)%nat) as [parent|] eqn:Hp;
    [|reflexivity].
  destruct (lt newitem parent); [|reflexivity].
  rewrite IH by (rewrite length_insert; lia).
  apply hole_move; [lia|done|done].
Qed.

Lemma _siftdown_perm heap startpos pos : _siftdown lt heap startpos pos ≡ₚ heap.
Proof.
  unfold _siftdown. destruct (heap !! pos) as [newitem|] eqn:Hpos; [|reflexivity].
  rewrite _siftdown_loop_perm by (by eapply lookup_lt_Some).
  by rewrite list_insert_id.
Qed.

Lemma _siftup_loop_hole fuel heap pos heap' pos' :
  (pos < length heap)%nat →
  _siftup_loop lt fuel heap pos = (heap', pos') →
  (pos' < length heap')%nat ∧ ∀ x, <[pos':=x]> heap' ≡ₚ <[pos:=x]> heap.
Proof.
  revert heap pos. induction fuel as [|fuel IH]; intros heap pos Hpos;
    cbn [_siftup_loop].
  { intros [= <- <-]. done. }
  destruct (2 * pos + 1 <? length heap)%nat eqn:Hc; [|intros [= <- <-]; done].
  set (childpos := match heap !! (2 * pos + 1)%nat with
                   | Some c => _ | None => _ end).
  assert (pos < childpos)%nat as Hgt.
  { subst childpos. repeat case_match; lia. }
  destruct (heap !! childpos) as [c|] eqn:Hchild; [|intros [= <- <-]; done].
  intros Hloop. apply IH in Hloop as [Hlen Hperm].
  - split; [done|]. intros x. rewrite Hperm.
    apply hole_move; [lia|done|done].
  - rewrite length_insert. by eapply lookup_lt_Some.
Qed.

Lemma _siftup_perm heap pos : _siftup lt heap pos ≡ₚ heap.
Proof.
  unfold _siftup. destruct (heap !! pos) as [newitem|] eqn:Hpos; [|reflexivity].
  destruct (_siftup_loop lt (length heap) heap pos) as [heap' pos'] eqn:Hloop.
  apply _siftup_loop_hole in Hloop as [_ Hperm]; [|by eapply lookup_lt_Some].
  rewrite _siftdown_perm, Hperm. by rewrite list_insert_id.
Qed.

(** The loops end by their own tests: more turns than the bound given in
    [_siftdown], [_siftup] and [merge_loop] change nothing. *)
Lemma _siftdown_loop_fuel fuel fuel' heap startpos pos newitem :
  (pos ≤ fuel)%nat → (pos ≤ fuel')%nat →
  _siftdown_loop lt fuel heap startpos pos newitem
  = _siftdown_loop lt fuel' heap startpos pos newitem.
Proof.
  revert fuel' heap pos. induction fuel as [|fuel IH]; intros fuel' heap pos Hf Hf'.
  - assert (pos = 0)%nat as -> by lia. destruct fuel'; [done|].
    cbn [_siftdown_loop]. by replace (startpos <? 0)%nat with false
      by (symmetry; apply Nat.ltb_ge; lia).
  - destruct fuel' as [|fuel'].
    + assert (pos = 0)%nat as -> by lia.
      cbn [_siftdown_loop]. by replace (startpos <? 0)%nat with false
        by (symmetry; apply Nat.ltb_ge; lia).
    + cbn [_siftdown_loop]. destruct (startpos <? pos)%nat eqn:Hlt; [|done].
      apply Nat.ltb_lt in Hlt.
      assert ((pos - 1) / 2 < pos)%nat by (apply Nat.Div0.div_lt_upper_bound; lia).
      destruct (heap !! ((pos - 1) / 2)%nat); [|done].
      destruct (lt newitem _); [|done]. apply IH; lia.
Qed.

Lemma _siftup_loop_fuel fuel fuel' heap pos :
  (length heap ≤ fuel + pos)%nat → (length heap ≤ fuel' + pos)%nat →
  _siftup_loop lt fuel heap pos = _siftup_loop lt fuel' heap pos.
Proof.
  revert fuel' heap pos. induction fuel as [|fuel IH]; intros fuel' heap pos Hf Hf'.
  - destruct fuel'; [done|]. cbn [_siftup_loop].
    by replace (2 * pos + 1 <? length heap)%nat with false
      by (symmetry; apply Nat.ltb_ge; lia).
  - destruct fuel' as [|fuel'].
    + cbn [_siftup_loop].
      by replace (2 * pos + 1 <? length heap)%nat with false
        by (symmetry; apply Nat.ltb_ge; lia).
    + cbn [_siftup_loop]. destruct (2 * pos + 1 <? length heap)%nat eqn:Hc; [|done].
      set (childpos := match heap !! (2 * pos + 1)%nat with
                       | Some c => _ | None => _ end).
      assert (pos < childpos)%nat as Hgt by (subst childpos; repeat case_match; lia).
      destruct (heap !! childpos); [|done].
      apply IH; rewrite length_insert; lia.
Qed.

Lemma heappush_perm heap item : heappush lt heap item ≡ₚ item :: heap.
Proof.
  unfold heappush. rewrite _siftdown_perm. by rewrite Permutation_app_comm.
Qed.

Lemma heappop_perm heap item heap' :
  heappop lt heap = Ok (item, heap') → heap ≡ₚ item :: heap'.
Proof.
  unfold heappop.
  destruct (last heap) as [lastelt|] eqn:Hlast; [|done].
  apply last_Some in Hlast as [heap0 ->].
  rewrite removelast_last.
  destruct heap0 as [|returnitem t]; intros [= <- <-].
  - done.
  - rewrite _siftup_perm. simpl. apply perm_skip.
    by rewrite <- Permutation_cons_append.
Qed.

Lemma heappop_nonempty heap :
  heap ≠ [] → ∃ item heap', heappop lt heap = Ok (item, heap').
Proof.
  intros Hne. unfold heappop.
  destruct (last heap) as [lastelt|] eqn:Hlast.
  - destruct (removelast heap); eauto.
  - apply last_None in Hlast. done.
Qed.
End HeapqFacts.

(** ** Strings *)

#[local] Arguments String.append : simpl nomatch.

Lemma string_app_nil_r (s : string) : s +:+ "" = s.
Proof. induction s; simpl; congruence. Qed.

Lemma string_app_assoc (s t u : string) : (s +:+ t) +:+ u = s +:+ (t +:+ u).
Proof. induction s; simpl; congruence. Qed.

Lemma string_app_length (s t : string) :
  String.length (s +:+ t) = (String.length s + String.length t)%nat.
Proof. induction s; simpl; congruence. Qed.

Lemma prefix_true (p s : string) : String.prefix p s = true ↔ ∃ t, s = p +:+ t.
Proof.
  revert s. induction p as [|a p IH]; intros s.
  - destruct s; simpl; split; eauto.
  - destruct s as [|b s]; simpl.
    { split; [done | intros [? ?]; done]. }
    destruct (ascii_dec a b) as [->|Hne].
    + rewrite IH. split; intros [t Ht]; exists t; congruence.
    + split; [done | intros [t Ht]; congruence].
Qed.

Lemma chars_truthy (s c : string) : c ∈ chars s → truthy c = true.
Proof.
  induction s as [|a s IH]; simpl; intros Hin.
  - by apply elem_of_nil in Hin.
  - apply elem_of_cons in Hin as [->|Hin]; auto.
Qed.

Lemma join_chars (s : string) : join (chars s) = s.
Proof.
  induction s as [|a s IH]; [done|].
  change (String a (join (chars s)) = String a s). by rewrite IH.
Qed.

Lemma all_chars_app (p : ascii → bool) (s t : string) :
  all_chars p (s +:+ t) = all_chars p s && all_chars p t.
Proof. induction s; simpl; [done|]. rewrite IHs. by rewrite andb_assoc. Qed.

(** ** The Huffman tree *)

Lemma HuffmanNode_nested_ind (P : HuffmanNode → Prop) :
  (∀ c f l r,
     (∀ n, l = Some n → P n) → (∀ n, r = Some n → P n) → P (mkNode c f l r)) →
  ∀ n, P n.
Proof.
  intros step. fix IH 1. intros [c f l r]. apply step.
  - destruct l as [n'|]; intros n Hn; [|discriminate].
    injection Hn as <-. apply IH.
  - destruct r as [n'|]; intros n Hn; [|discriminate].
    injection Hn as <-. apply IH.
Qed.

Lemma generate_codes_paths node code codes :
  generate_codes node code codes
  = fold_left (fun d '(c, p) => dict_set d c p) (paths node code) codes.
Proof.
  revert code codes. induction node as [c f l r IHl IHr] using HuffmanNode_nested_ind.
  intros code codes. simpl. destruct (truthy c); [done|].
  rewrite fold_left_app.
  destruct l as [nl|], r as [nr|]; simpl;
    rewrite ?(IHl _ eq_refl), ?(IHr _ eq_refl); done.
Qed.

Lemma paths_keys node code : (paths node code).*1 = leaves node.
Proof.
  unfold leaves. generalize "". revert code.
  induction node as [c f l r IHl IHr] using HuffmanNode_nested_ind.
  intros code code'. simpl. destruct (truthy c); [done|].
  rewrite !fmap_app. f_equal.
  - destruct l; [by apply IHl | done].
  - destruct r; [by apply IHr | done].
Qed.

(** Every code below a node extends the code of the node by binary digits. *)
Lemma paths_extend node code :
  Forall (fun p => ∃ t, p = code +:+ t ∧ all_chars is_bit t = true) (paths node code).*2.
Proof.
  revert code. induction node as [c f l r IHl IHr] using HuffmanNode_nested_ind.
  intros code. simpl. destruct (truthy c).
  - repeat constructor. exists "". by rewrite string_app_nil_r.
  - rewrite fmap_app. apply Forall_app. split.
    + destruct l as [n|]; [|constructor].
      eapply Forall_impl; [by apply IHl|]. simpl. intros p (t & -> & Ht).
      exists ("0" +:+ t). by rewrite string_app_assoc.
    + destruct r as [n|]; [|constructor].
      eapply Forall_impl; [by apply IHr|]. simpl. intros p (t & -> & Ht).
      exists ("1" +:+ t). by rewrite string_app_assoc.
Qed.

Lemma paths_prefix_free node code : pairwise_prefix_free (paths node code).*2.
Proof.
  revert code. induction node as [c f l r IHl IHr] using HuffmanNode_nested_ind.
  intros code. simpl. destruct (truthy c).
  - intros [|i] [|j] p q; simpl; try done.
  - rewrite fmap_app.
    set (L := match l with Some n => paths n (code +:+ "0") | None => [] end).
    set (R := match r with Some n => paths n (code +:+ "1") | None => [] end).
    assert (pairwise_prefix_free L.*2) as HL.
    { subst L. destruct l; [by apply IHl | by intros [|?] ?]. }
    assert (pairwise_prefix_free R.*2) as HR.
    { subst R. destruct r; [by apply IHr | by intros [|?] ?]. }
    assert (Forall (fun p => ∃ t, p = code +:+ "0" +:+ t) L.*2) as HL0.
    { subst L. destruct l as [n|]; [|constructor].
      eapply Forall_impl; [apply paths_extend|]. simpl. intros p (t & -> & _).
      exists t. by rewrite string_app_assoc. }
    assert (Forall (fun p => ∃ t, p = code +:+ "1" +:+ t) R.*2) as HR1.
    { subst R. destruct r as [n|]; [|constructor].
      eapply Forall_impl; [apply paths_extend|]. simpl. intros p (t & -> & _).
      exists t. by rewrite string_app_assoc. }
    clearbody L R. rewrite Forall_lookup in HL0, HR1.
    intros i j p q Hi Hj Hpre. apply prefix_true in Hpre as [t ->].
    apply lookup_app_Some in Hi as [Hi|[Hlen Hi]];
      apply lookup_app_Some in Hj as [Hj|[Hlen' Hj]].
    + eapply HL; eauto. apply prefix_true. eauto.
    + exfalso. destruct (HL0 _ _ Hi) as [t1 ->]. destruct (HR1 _ _ Hj) as [t2 Heq].
      rewrite !string_app_assoc in Heq. apply String.app_inj in Heq. done.
    + exfalso. destruct (HR1 _ _ Hi) as [t1 ->]. destruct (HL0 _ _ Hj) as [t2 Heq].
      rewrite !string_app_assoc in Heq. apply String.app_inj in Heq. done.
    + assert (i - length L.*2 = j - length L.*2)%nat; [|lia].
      eapply HR; eauto. apply prefix_true. eauto.
Qed.

(** ** The frequency table *)

Lemma Counter_loop_keys (elems : list string) (m : dict Z) :
  NoDup m.*1 →
  let r := fold_left (fun m e => dict_set m e (default 0 (dict_get m e) + 1)) elems m in
  NoDup r.*1 ∧ ∀ k, k ∈ r.*1 ↔ k ∈ m.*1 ∨ k ∈ elems.
Proof.
  revert m. induction elems as [|e elems IH]; intros m Hnd; simpl.
  - split; [done|]. intros k. rewrite elem_of_nil. tauto.
  - destruct (IH (dict_set m e (default 0 (dict_get m e) + 1))) as [Hnd' Hk].
    { by apply dict_set_NoDup. }
    split; [done|]. intros k. rewrite Hk, dict_set_keys_elem, elem_of_cons. tauto.
Qed.

Lemma Counter_NoDup elems : NoDup (Counter elems).*1.
Proof. apply (Counter_loop_keys elems []). constructor. Qed.

Lemma Counter_keys elems k : k ∈ (Counter elems).*1 ↔ k ∈ elems.
Proof.
  unfold Counter. destruct (Counter_loop_keys elems []) as [_ ->]; [constructor|].
  simpl. rewrite elem_of_nil. tauto.
Qed.

(** ** Building the tree *)

Lemma push_leaves_perm (freq : dict Z) (heap : list HuffmanNode) :
  fold_left (fun heap '(c, count) => heappush node_lt heap (mkNode c count None None))
    freq heap
  ≡ₚ heap ++ (leaf_of <$> freq).
Proof.
  revert heap. induction freq as [|[c count] freq IH]; intros heap; simpl.
  - by rewrite app_nil_r.
  - rewrite IH, heappush_perm. apply (Permutation_middle heap).
Qed.

Lemma leaves_leaf c count : truthy c = true → leaves (mkNode c count None None) = [c].
Proof. intros Hc. unfold leaves. simpl. by rewrite Hc. Qed.

Lemma leaves_internal f l r :
  leaves (mkNode "" f (Some l) (Some r)) = leaves l ++ leaves r.
Proof.
  unfold leaves. simpl. rewrite fmap_app.
  by rewrite (paths_keys l "0"), (paths_keys r "1").
Qed.

Lemma leaf_of_leaves (freq : dict Z) :
  Forall (fun k => truthy k = true) freq.*1 → (leaf_of <$> freq) ≫= leaves = freq.*1.
Proof.
  induction freq as [|[c count] freq IH]; [done|].
  rewrite !fmap_cons, bind_cons. intros [Hc Hall]%Forall_cons.
  rewrite IH by done. unfold leaf_of. simpl in *. by rewrite leaves_leaf.
Qed.

(** The loop ends with the nodes merged into at most one tree over the same
    leaves; when it merged at all, the root is an internal node. *)
Lemma merge_loop_spec fuel heap :
  (length heap ≤ fuel)%nat →
  ∃ heap', merge_loop fuel heap = Ok heap'
    ∧ heap' ≫= leaves ≡ₚ heap ≫= leaves
    ∧ ((length heap ≤ 1)%nat → heap' = heap)
    ∧ ((2 ≤ length heap)%nat → ∃ f l r, heap' = [mkNode "" f (Some l) (Some r)]).
Proof.
  revert heap. induction fuel as [|fuel IH]; intros heap Hlen; simpl.
  { exists heap. split_and!; [done..|lia]. }
  destruct (1 <? length heap)%nat eqn:Hgt.
  2: { apply Nat.ltb_ge in Hgt. exists heap. split_and!; [done..|lia]. }
  apply Nat.ltb_lt in Hgt.
  destruct (heappop_nonempty node_lt heap) as (l & h1 & Hpop1).
  { intros ->. simpl in Hgt. lia. }
  pose proof (heappop_perm _ _ _ _ Hpop1) as Hp1.
  pose proof (Permutation_length Hp1) as Hl1. simpl in Hl1.
  destruct (heappop_nonempty node_lt h1) as (r & h2 & Hpop2).
  { intros ->. simpl in Hl1. lia. }
  pose proof (heappop_perm _ _ _ _ Hpop2) as Hp2.
  pose proof (Permutation_length Hp2) as Hl2. simpl in Hl2.
  rewrite Hpop1. simpl. rewrite Hpop2. simpl.
  set (internal := mkNode "" (freq l + freq r) (Some l) (Some r)).
  pose proof (heappush_perm node_lt h2 internal) as Hp3.
  pose proof (Permutation_length Hp3) as Hl3. simpl in Hl3.
  destruct (IH (heappush node_lt h2 internal)) as (heap' & -> & Hleaves & Hsmall & Hbig);
    [lia|].
  exists heap'. split_and!; [done| |lia|].
  - rewrite Hleaves, Hp3, Hp1, Hp2. rewrite !bind_cons.
    subst internal. rewrite leaves_internal. by rewrite app_assoc.
  - intros _. destruct (decide (length h2 = 0)%nat) as [Hz|Hnz].
    + apply nil_length_inv in Hz as ->. rewrite Hsmall by (rewrite Hl3; simpl; lia).
      apply Permutation_singleton_r in Hp3 as ->. eauto.
    + apply Hbig. lia.
Qed.

Lemma merge_loop_fuel fuel fuel' heap :
  (length heap ≤ fuel)%nat → (length heap ≤ fuel')%nat →
  merge_loop fuel heap = merge_loop fuel' heap.
Proof.
  revert fuel' heap. induction fuel as [|fuel IH]; intros fuel' heap Hf Hf'.
  - destruct fuel'; [done|]. simpl.
    by replace (1 <? length heap)%nat with false by (symmetry; apply Nat.ltb_ge; lia).
  - destruct fuel' as [|fuel'].
    + simpl.
      by replace (1 <? length heap)%nat with false by (symmetry; apply Nat.ltb_ge; lia).
    + simpl. destruct (1 <? length heap)%nat eqn:Hgt; [|done].
      destruct (heappop node_lt heap) as [[l h1]|e] eqn:Hpop1; [|done].
      pose proof (Permutation_length (heappop_perm _ _ _ _ Hpop1)) as Hl1.
      simpl. destruct (heappop node_lt h1) as [[r h2]|e] eqn:Hpop2; [|done].
      pose proof (Permutation_length (heappop_perm _ _ _ _ Hpop2)) as Hl2.
      simpl in *. apply IH.
      all: rewrite (Permutation_length (heappush_perm _ _ _)); simpl; lia.
Qed.

(** ** The code table *)

Lemma pairwise_prefix_free_dict (codes : dict string) :
  NoDup codes.*1 → pairwise_prefix_free codes.*2 → prefix_free codes.
Proof.
  intros Hnd Hpf c1 c2 p1 p2 H1 H2 Hne.
  apply dict_get_Some_elem, list_elem_of_lookup in H1 as [i Hi].
  apply dict_get_Some_elem, list_elem_of_lookup in H2 as [j Hj].
  destruct (String.prefix p1 p2) eqn:Hpre; [|done].
  assert (i = j) as ->.
  { apply (Hpf i j p1 p2); [| |done]; rewrite list_lookup_fmap.
    - by rewrite Hi.
    - by rewrite Hj. }
  congruence.
Qed.

(** What [_build_huffman_tree] returns: it never raises; the table has one
    entry for each distinct character of the input, and the codes are
    non-empty binary strings none of which is a prefix of another. *)
Lemma _build_huffman_tree_spec (data : string) :
  ∃ codes, _build_huffman_tree data = Ok codes
    ∧ NoDup codes.*1
    ∧ (∀ c, c ∈ codes.*1 ↔ c ∈ chars data)
    ∧ pairwise_prefix_free codes.*2
    ∧ Forall (fun p => p ≠ "" ∧ all_chars is_bit p = true) codes.*2.
Proof.
  unfold _build_huffman_tree.
  pose proof (Counter_NoDup (chars data)) as Hnd.
  pose proof (Counter_keys (chars data)) as Hkeys.
  set (freq := Counter (chars data)) in *.
  destruct (length freq =? 1)%nat eqn:Hone.
  - apply Nat.eqb_eq in Hone.
    destruct freq as [|[k n] [|? ?]]; try done. simpl in Hkeys.
    destruct (chars data) as [|c cs] eqn:Hchars.
    { exfalso. apply (elem_of_nil k), Hkeys, list_elem_of_here. }
    exists [(c, "0")]. split_and!; [done|apply NoDup_singleton| | |].
    + intros x. simpl. rewrite <- Hkeys, !list_elem_of_singleton.
      assert (c = k) as ->; [|done].
      apply list_elem_of_singleton, Hkeys, list_elem_of_here.
    + intros [|i] [|j] p q; simpl; done.
    + repeat constructor. done.
  - apply Nat.eqb_neq in Hone.
    set (heap := fold_left _ freq []).
    pose proof (push_leaves_perm freq []) as Hheap. fold heap in Hheap. simpl in Hheap.
    pose proof (Permutation_length Hheap) as Hlen. rewrite length_fmap in Hlen.
    destruct (merge_loop_spec (length heap) heap) as (heap' & -> & Hleaves & Hsmall & Hbig);
      [done|].
    simpl. destruct (decide (length freq = 0)%nat) as [Hz|Hnz].
    + apply nil_length_inv in Hz. rewrite Hz in *.
      apply Permutation_nil_r in Hheap. rewrite Hsmall by (rewrite Hheap; simpl; lia).
      rewrite Hheap. exists []. split_and!; [done|constructor|done| |constructor].
      intros [|?] ?; done.
    + destruct Hbig as (f & l & r & ->); [lia|].
      rewrite bind_singleton in Hleaves.
      set (root := mkNode "" f (Some l) (Some r)) in *.
      assert (leaves root ≡ₚ freq.*1) as Hroot.
      { rewrite Hleaves, Hheap. rewrite leaf_of_leaves; [done|].
        apply Forall_forall. intros k Hk. apply (chars_truthy data), Hkeys, Hk. }
      assert (generate_codes root "" [] = paths root "") as Hcodes.
      { rewrite generate_codes_paths. rewrite fold_dict_set_new; [done|].
        rewrite app_nil_l, paths_keys. by rewrite Hroot. }
      exists (paths root ""). split_and!.
      * by rewrite Hcodes.
      * rewrite paths_keys. by rewrite Hroot.
      * intros c. rewrite paths_keys, Hroot. apply Hkeys.
      * apply paths_prefix_free.
      * subst root. simpl. rewrite fmap_app. apply Forall_app. split.
        -- eapply Forall_impl; [apply paths_extend|]. simpl.
           intros p (t & -> & Ht). done.
        -- eapply Forall_impl; [apply paths_extend|]. simpl.
           intros p (t & -> & Ht). done.
Qed.

(** ** [_compress] returns *)

Lemma mapM_dict_item (codes : dict string) (l : list string) :
  (∀ c, c ∈ l → c ∈ codes.*1) →
  ∃ ps, mapM (dict_item codes) l = Ok ps
    ∧ Forall2 (fun c p => dict_get codes c = Some p) l ps.
Proof.
  induction l as [|c l IH]; intros Hin; simpl.
  - exists []. split; [done|constructor].
  - destruct (dict_get codes c) as [p|] eqn:Hc.
    2: { exfalso. apply dict_get_None in Hc. apply Hc, Hin, list_elem_of_here. }
    destruct IH as (ps & Hps & Hall).
    { intros c' Hc'. apply Hin. by apply list_elem_of_further. }
    exists (p :: ps). split; [|by constructor].
    rewrite (dict_item_Some _ _ _ Hc). simpl. by rewrite Hps.
Qed.

Lemma int2_loop_bits (s : string) (acc : Z) :
  all_chars is_bit s = true → 0 ≤ acc →
  ∃ n, int2_loop s acc = Ok n
    ∧ acc * 2 ^ Z.of_nat (String.length s) ≤ n < (acc + 1) * 2 ^ Z.of_nat (String.length s).
Proof.
  revert acc. induction s as [|c s IH]; intros acc Hbits Hacc.
  - exists acc. simpl. split; [done|lia].
  - simpl in Hbits. apply andb_true_iff in Hbits as [Hc Hbits].
    cbn [int2_loop String.length]. rewrite Nat2Z.inj_succ, Z.pow_succ_r by lia.
    unfold is_bit in Hc.
    destruct (Ascii.eqb c "0") eqn:H0.
    + destruct (IH (2 * acc) Hbits) as (n & -> & Hn); [lia|]. exists n. split; [done|lia].
    + simpl in Hc. rewrite Hc.
      destruct (IH (2 * acc + 1) Hbits) as (n & -> & Hn); [lia|]. exists n. split; [done|lia].
Qed.

Lemma all_chars_repeat (p : ascii → bool) (c : ascii) (n : nat) :
  p c = true → all_chars p (repeat_char c n) = true.
Proof. intros Hc. induction n; simpl; [done|]. by rewrite Hc. Qed.

Lemma repeat_char_length (c : ascii) (n : nat) : String.length (repeat_char c n) = n.
Proof. induction n; simpl; congruence. Qed.

Lemma join_bits (ps : list string) :
  Forall (fun p => all_chars is_bit p = true) ps → all_chars is_bit (join ps) = true.
Proof.
  induction 1 as [|p ps Hp _ IH]; [done|].
  change (join (p :: ps)) with (p +:+ join ps). by rewrite all_chars_app, Hp, IH.
Qed.

(** Arithmetic with division and remainder by constants. *)
Ltac div_lia := zify; Z.to_euclidean_division_equations; lia.

(** Padding to the next multiple of 8 gives whole bytes. *)
Lemma padded_length (a : nat) :
  (a + (8 - a mod 8) mod 8 = (a + (8 - a mod 8) mod 8 + 7) / 8 * 8)%nat.
Proof.
  pose proof (Nat.mod_upper_bound a 8 ltac:(lia)) as Hr.
  pose proof (Nat.div_mod_eq a 8) as Ha.
  set (r := (a mod 8)%nat) in *. set (q := (a / 8)%nat) in *. clearbody r q. subst a.
  destruct r as [|r].
  - change ((8 - 0) mod 8)%nat with 0%nat.
    replace (8 * q + 0 + 0 + 7)%nat with (7 + q * 8)%nat by lia.
    rewrite Nat.div_add by lia. change (7 / 8)%nat with 0%nat. lia.
  - replace ((8 - S r) mod 8)%nat with (7 - r)%nat by (rewrite Nat.mod_small; lia).
    replace (8 * q + S r + (7 - r) + 7)%nat with (7 + (q + 1) * 8)%nat by lia.
    rewrite Nat.div_add by lia. change (7 / 8)%nat with 0%nat. lia.
Qed.

(** What [_compress] returns on a non-empty string: the codes of the
    characters, padded with '0' to whole bytes, as the base64 text of the
    bytes of their value. *)
Lemma _compress_spec (data : string) :
  data ≠ "" →
  ∃ huffman_codes codes n len,
    _build_huffman_tree data = Ok huffman_codes
    ∧ Forall2 (fun c p => dict_get huffman_codes c = Some p) (chars data) codes
    ∧ (let compressed := join codes in
       let padding_length := ((8 - String.length compressed mod 8) mod 8)%nat in
       let padded_binary := compressed +:+ repeat_char "0" padding_length in
       all_chars is_bit padded_binary = true
       ∧ padded_binary ≠ ""
       ∧ String.length padded_binary = (len * 8)%nat
       ∧ int2_loop padded_binary 0 = Ok n)
    ∧ 0 ≤ n < 256 ^ Z.of_nat len
    ∧ _compress data = Ok (urlsafe_b64encode (be_bytes n len), huffman_codes).
Proof.
  intros Hne. unfold _compress.
  destruct (_build_huffman_tree_spec data) as (codes & -> & Hnd & Hkeys & _ & Hcodes).
  rewrite bind_Ok.
  destruct (mapM_dict_item codes (chars data)) as (ps & -> & Hps).
  { intros c. apply Hkeys. }
  rewrite bind_Ok. cbv zeta.
  assert (Forall (fun p => p ≠ "" ∧ all_chars is_bit p = true) ps) as Hbits.
  { rewrite Forall_lookup in Hcodes. apply Forall_lookup. intros i p Hi.
    destruct (Forall2_lookup_r _ _ _ _ _ Hps Hi) as (c & _ & Hc).
    apply dict_get_Some_elem, list_elem_of_lookup in Hc as [j Hj].
    apply (Hcodes j). by rewrite list_lookup_fmap, Hj. }
  set (compressed := join ps).
  assert (compressed ≠ "") as Hcne.
  { destruct data as [|a data]; [done|]. simpl in Hps. inversion Hps as [|? p ? ps' _ _]; subst.
    apply Forall_cons in Hbits as [[Hp _] _]. subst compressed.
    change (join (p :: ps')) with (p +:+ join ps'). destruct p; done. }
  set (padding_length := ((8 - String.length compressed mod 8) mod 8)%nat).
  set (padded_binary := compressed +:+ repeat_char "0" padding_length).
  assert (all_chars is_bit padded_binary = true) as Hpb.
  { subst padded_binary. rewrite all_chars_app, all_chars_repeat by done.
    rewrite andb_true_r. apply join_bits. eapply Forall_impl; [done|]. by intros ? [_ ?]. }
  assert (padded_binary ≠ "") as Hpne.
  { subst padded_binary. destruct compressed; done. }
  destruct (int2_loop_bits padded_binary 0 Hpb) as (n & Hn & Hrange); [lia|].
  assert (int2 padded_binary = Ok n) as ->.
  { unfold int2. destruct padded_binary; done. }
  rewrite bind_Ok. unfold to_bytes.
  set (len := String.length padded_binary) in *.
  assert (len = ((len + 7) / 8 * 8)%nat) as Hlen.
  { subst len padded_binary padding_length.
    rewrite string_app_length, repeat_char_length. apply padded_length. }
  assert (2 ^ Z.of_nat len = 256 ^ Z.of_nat ((len + 7) / 8)) as Hpow.
  { rewrite Hlen at 1. change 256 with (2 ^ 8). rewrite <- Z.pow_mul_r by lia.
    f_equal. lia. }
  destruct (n <? 0) eqn:Hneg; [lia|].
  destruct (256 ^ Z.of_nat ((len + 7) / 8) <=? n) eqn:Hbig; [lia|].
  cbn [orb]. rewrite bind_Ok.
  exists codes, ps, n, ((len + 7) / 8)%nat. split_and!; try done; lia.
Qed.

Theorem _compress_returns (data : string) :
  data ≠ "" →
  ∃ compressed_str huffman_codes,
    _compress data = Ok (compressed_str, huffman_codes)
    ∧ _build_huffman_tree data = Ok huffman_codes.
Proof.
  intros Hne.
  destruct (_compress_spec data Hne) as (codes & ps & n & len & Hb & _ & _ & _ & Hc).
  eauto.
Qed.

(** ** The short-code generator *)

Lemma be_bytes_length (n : Z) (len : nat) : length (be_bytes n len) = len.
Proof. induction len; simpl; congruence. Qed.

Lemma be_bytes_range (n : Z) (len : nat) :
  Forall (fun b => 0 ≤ b < 256) (be_bytes n len).
Proof.
  induction len; simpl; constructor; [|done].
  apply Z.mod_pos_bound. lia.
Qed.

Lemma sha256_round_length (s : list Z) (kw : Z * Z) :
  length (sha256_round s kw) = length s.
Proof.
  unfold sha256_round.
  destruct s as [|a [|b [|c [|d [|e [|f [|g [|h [|? ?]]]]]]]]]; done.
Qed.

Lemma sha256_block_length (h block : list Z) :
  length (sha256_block h block) = length h.
Proof.
  unfold sha256_block. rewrite length_zip_with.
  assert (∀ l s, length (fold_left sha256_round l s) = length s) as ->; [|lia].
  induction l as [|kw l IH]; intros s; simpl; [done|].
  by rewrite IH, sha256_round_length.
Qed.

Lemma sha256_blocks_length (n : nat) (h bs : list Z) :
  length (sha256_blocks n h bs) = length h.
Proof.
  revert h bs. induction n as [|n IH]; intros h bs; simpl; [done|].
  by rewrite IH, sha256_block_length.
Qed.

(** The digest has 32 bytes. *)
Lemma sha256_digest (msg : list Z) :
  length (sha256 msg) = 32%nat ∧ Forall (fun b => 0 ≤ b < 256) (sha256 msg).
Proof.
  unfold sha256.
  set (h := sha256_blocks _ _ _).
  assert (length h = 8%nat) as Hlen by apply sha256_blocks_length.
  destruct h as [|a [|b [|c [|d [|e [|f [|g [|h' [|? ?]]]]]]]]]; try done.
  split; [done|].
  simpl. repeat (constructor; [apply Z.mod_pos_bound; lia|]). constructor.
Qed.

Lemma hexval_hexchar (v : Z) : 0 ≤ v < 16 → hexval (hexchar v) = Some v.
Proof.
  intros Hv.
  assert (v ∈ Z.of_nat <$> seq 0 16) as Hin.
  { apply list_elem_of_fmap. exists (Z.to_nat v). split; [lia|].
    apply elem_of_seq. lia. }
  revert Hin. generalize v. apply Forall_forall.
  let l := eval vm_compute in (Z.of_nat <$> seq 0 16) in
  change (Z.of_nat <$> seq 0 16) with l.
  repeat (constructor; [by vm_compute|]). constructor.
Qed.

Lemma fromhex_hex (bs : list Z) :
  Forall (fun b => 0 ≤ b < 256) bs → fromhex (hex bs) = Ok bs.
Proof.
  induction 1 as [|b bs Hb _ IH]; [done|].
  cbn [hex fromhex].
  rewrite !hexval_hexchar.
  - rewrite IH, bind_Ok. do 2 f_equal. symmetry. rewrite Z.mul_comm. apply Z.div_mod. lia.
  - apply Z.mod_pos_bound. lia.
  - split; [apply Z.div_pos; lia | apply Z.div_lt_upper_bound; lia].
Qed.

Lemma substring_hex (n : nat) (bs : list Z) :
  substring 0 (2 * n) (hex bs) = hex (take n bs).
Proof.
  revert bs. induction n as [|n IH]; intros bs.
  - simpl. by destruct (hex bs).
  - destruct bs as [|b bs]; [done|].
    replace (2 * S n)%nat with (S (S (2 * n))) by lia.
    cbn [hex take substring]. by rewrite IH.
Qed.

Lemma urlsafe_b64char_not_pad (v : Z) :
  0 ≤ v < 64 → urlsafe_encode_char (b64char v) ≠ "="%char.
Proof.
  intros Hv.
  assert (v ∈ Z.of_nat <$> seq 0 64) as Hin.
  { apply list_elem_of_fmap. exists (Z.to_nat v). split; [lia|].
    apply elem_of_seq. lia. }
  revert Hin. generalize v. apply Forall_forall.
  let l := eval vm_compute in (Z.of_nat <$> seq 0 64) in
  change (Z.of_nat <$> seq 0 64) with l.
  repeat (constructor; [by vm_compute|]). constructor.
Qed.

Lemma rstrip_keep (c a : ascii) (s : string) :
  a ≠ c → rstrip c (String a s) = String a (rstrip c s).
Proof.
  intros Hne. simpl. destruct (rstrip c s); [|done].
  by apply Ascii.eqb_neq in Hne as ->.
Qed.

(** The candidate is eight characters made from the digest, then the
    random letters; it never raises. *)
Lemma short_code_candidate_spec (url suffix : string) :
  ∃ short_code,
    short_code_candidate (hex (sha256 (encode url))) suffix = Ok (short_code +:+ suffix)
    ∧ String.length short_code = 8%nat.
Proof.
  unfold short_code_candidate.
  destruct (sha256_digest (encode url)) as [Hlen Hrange].
  change 16%nat with (2 * 8)%nat. rewrite substring_hex.
  rewrite fromhex_hex by (by apply Forall_take).
  rewrite bind_Ok. eexists. split; [done|].
  destruct (sha256 (encode url))
    as [|b1 [|b2 [|b3 [|b4 [|b5 [|b6 [|b7 [|b8 bs]]]]]]]]; try done.
  repeat (apply Forall_cons in Hrange as [? Hrange]).
  cbn [take b64encode urlsafe_b64encode urlsafe_encode_translate].
  repeat (rewrite rstrip_keep;
          [|apply urlsafe_b64char_not_pad;
            repeat match goal with
                   | |- _ ≤ _ < _ => split
                   | |- 0 ≤ _ / _ => apply Z.div_pos; lia
                   | |- _ / _ < _ => apply Z.div_lt_upper_bound; lia
                   end;
            try (pose proof (Z.mod_pos_bound b1 4); pose proof (Z.mod_pos_bound b2 16);
                 pose proof (Z.mod_pos_bound b3 64); pose proof (Z.mod_pos_bound b4 4);
                 pose proof (Z.mod_pos_bound b5 16); pose proof (Z.mod_pos_bound b6 64);
                 pose proof (Z.div_pos b2 16); pose proof (Z.div_pos b3 64);
                 pose proof (Z.div_pos b5 16); pose proof (Z.div_pos b6 64);
                 pose proof (Z.div_lt_upper_bound b2 16 16);
                 pose proof (Z.div_lt_upper_bound b3 64 4);
                 pose proof (Z.div_lt_upper_bound b5 16 16);
                 pose proof (Z.div_lt_upper_bound b6 64 4); lia)]).
  cbn [substring String.length]. by destruct (rstrip _ _).
Qed.

(** ** The generator loop *)

Lemma generate_loop_Ok attempts code_to_url hash_hex rnd i short_code j :
  generate_loop attempts code_to_url hash_hex rnd i = (Ok short_code, j) →
  dict_in short_code code_to_url = false
  ∧ ∃ k, (i ≤ k < i + attempts)%nat
      ∧ short_code_candidate hash_hex (rnd k) = Ok short_code.
Proof.
  revert i. induction attempts as [|n IH]; intros i; simpl; [done|].
  destruct (short_code_candidate hash_hex (rnd i)) as [sc|e] eqn:Hc; [|done].
  destruct (dict_in sc code_to_url) eqn:Hin.
  - intros [Hnew (k & Hk & Hcand)]%IH. split; [done|]. exists k. split; [lia|done].
  - intros [= <- <-]. split; [done|]. exists i. split; [lia|done].
Qed.

Lemma generate_loop_exhausted attempts code_to_url hash_hex rnd i :
  (∀ k, (i ≤ k < i + attempts)%nat →
     ∃ sc, short_code_candidate hash_hex (rnd k) = Ok sc
       ∧ dict_in sc code_to_url = true) →
  generate_loop attempts code_to_url hash_hex rnd i = (Raise ValueError, (i + attempts)%nat).
Proof.
  revert i. induction attempts as [|n IH]; intros i Hall; simpl.
  - by rewrite Nat.add_0_r.
  - destruct (Hall i) as (sc & -> & ->); [lia|].
    rewrite IH; [f_equal; lia|]. intros k Hk. apply Hall. lia.
Qed.

(** A short code the generator returns is new; it is eight characters
    followed by one of the draws, so it is not empty. *)
Lemma generate_short_code_Ok n code_to_url rnd i url short_code j :
  generate_short_code n code_to_url rnd i url = (Ok short_code, j) →
  dict_in short_code code_to_url = false
  ∧ short_code ≠ ""
  ∧ ∃ k p, (i ≤ k < i + n)%nat ∧ short_code = p +:+ rnd k ∧ String.length p = 8%nat.
Proof.
  unfold generate_short_code. intros [Hnew (k & Hk & Hcand)]%generate_loop_Ok.
  destruct (short_code_candidate_spec url (rnd k)) as (p & Hp & Hlen).
  rewrite Hp in Hcand. injection Hcand as <-.
  split_and!; [done|by destruct p|eauto].
Qed.

(** ** [URL.py]: the store *)

Lemma URL_shorten_url_known self rnd long_url short_code :
  dict_get (URL.url_to_code self) long_url = Some short_code →
  URL.shorten_url self rnd long_url
  = (compressed_info ← dict_item (URL.compressed_data self) short_code;
     Ok (short_code, URL.compressed compressed_info), self).
Proof.
  intros Hu. unfold URL.shorten_url, dict_in. rewrite Hu.
  by rewrite (dict_item_Some _ _ _ Hu), bind_Ok.
Qed.

(** A call for a new URL either fails in the generator and changes nothing,
    or stores the three entries. *)
Lemma URL_shorten_url_new self rnd long_url r self' :
  dict_get (URL.url_to_code self) long_url = None →
  URL.shorten_url self rnd long_url = (r, self') →
  (∃ e, r = Raise e ∧ self' = self
        ∧ URL._generate_short_code self rnd long_url = Raise e)
  ∨ (∃ short_code compressed_str huffman_codes,
       r = Ok (short_code, compressed_str)
       ∧ URL._generate_short_code self rnd long_url = Ok short_code
       ∧ dict_get (URL.code_to_url self) short_code = None
       ∧ _compress short_code = Ok (compressed_str, huffman_codes)
       ∧ self' =
         {| URL.url_to_code := dict_set (URL.url_to_code self) long_url short_code;
            URL.code_to_url := dict_set (URL.code_to_url self) short_code long_url;
            URL.compressed_data :=
              dict_set (URL.compressed_data self) short_code
                {| URL.compressed := compressed_str;
                   URL.huffman_codes := huffman_codes;
                   URL.original_url := long_url |};
            URL.max_collision_attempts := URL.max_collision_attempts self |}).
Proof.
  intros Hu. unfold URL.shorten_url, dict_in. rewrite Hu.
  destruct (URL._generate_short_code self rnd long_url) as [short_code|e] eqn:Hgen.
  2: { intros [= <- <-]. left. eauto. }
  unfold URL._generate_short_code in Hgen.
  destruct (generate_short_code _ _ _ _ _) as [r0 j] eqn:Hg. simpl in Hgen. subst r0.
  apply generate_short_code_Ok in Hg as (Hnew & Hne & _).
  destruct (_compress_returns short_code Hne) as (c & codes & Hc & _).
  rewrite Hc. simpl. intros [= <- <-]. right.
  exists short_code, c, codes. split_and!; try done. by apply dict_in_false.
Qed.

Lemma URL_shorten_url_consistent self rnd long_url r self' :
  URL_consistent self →
  URL.shorten_url self rnd long_url = (r, self') →
  URL_consistent self'.
Proof.
  intros Hcons Hs.
  destruct (dict_get (URL.url_to_code self) long_url) as [sc0|] eqn:Hu.
  { rewrite (URL_shorten_url_known _ _ _ _ Hu) in Hs. by injection Hs as _ <-. }
  apply URL_shorten_url_new in Hs as [(e & _ & -> & _)|Hs]; [done| |done].
  destruct Hs as (sc & c & codes & _ & _ & Hnew & Hc & ->).
  destruct Hcons as [Hfwd Hbwd Hrec Hdata Hkeys].
  assert (dict_get (URL.compressed_data self) sc = None) as Hfresh.
  { destruct (dict_get (URL.compressed_data self) sc) as [data|] eqn:Hd; [|done].
    apply dict_get_Some_elem, Hdata in Hd as [Hd _]. congruence. }
  constructor; simpl.
  - intros u sc'. rewrite !dict_get_set.
    destruct (String.eqb_spec long_url u) as [<-|Hne].
    + intros [= <-]. by rewrite String.eqb_refl.
    + intros Hu'. pose proof (Hfwd _ _ Hu') as Hsc'.
      destruct (String.eqb_spec sc sc') as [<-|]; [congruence|done].
  - intros u sc'. rewrite !dict_get_set.
    destruct (String.eqb_spec sc sc') as [<-|Hne].
    + intros [= <-]. by rewrite String.eqb_refl.
    + intros Hsc'. pose proof (Hbwd _ _ Hsc') as Hu'.
      destruct (String.eqb_spec long_url u) as [<-|]; [congruence|done].
  - intros u sc'. rewrite !dict_get_set.
    destruct (String.eqb_spec long_url u) as [<-|Hne].
    + intros [= <-]. rewrite String.eqb_refl. eauto.
    + intros Hu'. destruct (Hrec _ _ Hu') as [data Hd].
      destruct (String.eqb_spec sc sc') as [<-|]; eauto.
  - intros sc' data. rewrite dict_set_new by (by apply dict_get_None).
    rewrite elem_of_app, list_elem_of_singleton, dict_get_set.
    intros [Hin|[= -> ->]].
    + destruct (Hdata _ _ Hin) as [Hcu Hcomp]. split; [|done].
      destruct (String.eqb_spec sc sc') as [<-|]; [congruence|done].
    + simpl. by rewrite String.eqb_refl.
  - by apply dict_set_NoDup.
Qed.

Lemma URL_reachable_consistent self : URL.reachable self → URL_consistent self.
Proof.
  induction 1 as [|self rnd long_url r self' _ IH _ Hs|self q r self' _ IH He].
  - constructor; simpl; try done.
    + intros ? ? Hin. by apply elem_of_nil in Hin.
    + constructor.
  - by eapply URL_shorten_url_consistent.
  - unfold URL.expand_url in He. by injection He as _ <-.
Qed.

(** In a consistent store, the [try] for a record returns the URL of the
    record when the query decodes to the short code of the record, and
    nothing otherwise. *)
Lemma URL_expand_try_spec self compressed_code short_code data :
  URL_consistent self →
  (short_code, data) ∈ URL.compressed_data self →
  try_except (URL.expand_try self compressed_code data) (Ok None)
  = Ok (if decodes_to compressed_code (short_code, data)
        then Some (URL.original_url data) else None).
Proof.
  intros [Hfwd Hbwd Hrec Hdata Hkeys] Hin.
  destruct (Hdata _ _ Hin) as [Hsc _].
  unfold URL.expand_try, decodes_to. simpl.
  destruct (_decompress compressed_code (URL.huffman_codes data)) as [d|e]; [|done].
  rewrite bind_Ok. unfold dict_in.
  destruct (String.eqb_spec d short_code) as [->|Hne].
  - rewrite Hsc, (dict_item_Some _ _ _ Hsc), bind_Ok. by rewrite String.eqb_refl.
  - destruct (dict_get (URL.code_to_url self) d) as [u|] eqn:Hd; [|done].
    rewrite (dict_item_Some _ _ _ Hd), bind_Ok.
    destruct (String.eqb_spec u (URL.original_url data)) as [->|]; [|done].
    apply Hbwd in Hd, Hsc. congruence.
Qed.

Lemma URL_expand_loop_find self compressed_code items :
  URL_consistent self →
  items ⊆ URL.compressed_data self →
  URL.expand_loop self compressed_code items
  = Ok (URL.original_url ∘ snd <$> find (decodes_to compressed_code) items).
Proof.
  intros Hcons. induction items as [|[sc data] items IH]; intros Hsub; [done|].
  cbn [URL.expand_loop find].
  rewrite (URL_expand_try_spec _ _ sc) by (done || apply Hsub, list_elem_of_here).
  rewrite bind_Ok.
  destruct (decodes_to compressed_code (sc, data)); [done|].
  apply IH. intros x Hx. apply Hsub. by apply list_elem_of_further.
Qed.

(** What [expand_url] of [URL.py] computes on a store the program can hold:
    the URL of the first record, in insertion order, whose own table decodes
    the query to the short code of the record. *)
Lemma URL_expand_url_find self compressed_code :
  URL.reachable self →
  URL.expand_url self compressed_code
  = (Ok (URL.original_url ∘ snd
           <$> find (decodes_to compressed_code) (URL.compressed_data self)),
     self).
Proof.
  intros Hr. unfold URL.expand_url.
  by rewrite URL_expand_loop_find by (done || by apply URL_reachable_consistent).
Qed.

(** ** [_URL.py]: the store *)

(** The [while] loop after a successful generator call ends at its first
    test. *)
Lemma _URL_regenerate_new fuel self rnd letters long_url short_code i j :
  dict_in short_code (_URL.code_to_url self) = false →
  _URL.regenerate (S fuel) self rnd letters long_url short_code i j = Some (Ok short_code).
Proof. intros Hnew. simpl. by rewrite Hnew. Qed.

Lemma _URL_shorten_url_known fuel self rnd letters long_url short_code :
  dict_get (_URL.url_to_code self) long_url = Some short_code →
  _URL.shorten_url fuel self rnd letters long_url = Some (Raise KeyError, self).
Proof.
  intros Hu. unfold _URL.shorten_url, dict_in. rewrite Hu.
  rewrite (dict_item_Some _ _ _ Hu), bind_Ok.
  destruct (dict_get (_URL.compressed_data self) short_code) as [info|] eqn:Hd.
  - by rewrite (dict_item_Some _ _ _ Hd).
  - by rewrite (dict_item_None _ _ Hd).
Qed.

Lemma _URL_shorten_url_new fuel self rnd letters long_url :
  dict_get (_URL.url_to_code self) long_url = None →
  (∃ e i, _URL._generate_short_code self rnd 0 long_url = (Raise e, i)
        ∧ _URL.shorten_url (S fuel) self rnd letters long_url = Some (Raise e, self))
  ∨ (∃ short_code i compressed_str huffman_codes,
       _URL._generate_short_code self rnd 0 long_url = (Ok short_code, i)
       ∧ dict_get (_URL.code_to_url self) short_code = None
       ∧ (∃ k p, short_code = p +:+ rnd k ∧ String.length p = 8%nat)
       ∧ _compress short_code = Ok (compressed_str, huffman_codes)
       ∧ _URL.shorten_url (S fuel) self rnd letters long_url
         = Some (Ok (short_code, compressed_str),
             {| _URL.url_to_code := dict_set (_URL.url_to_code self) long_url short_code;
                _URL.code_to_url := dict_set (_URL.code_to_url self) short_code long_url;
                _URL.compressed_data :=
                  dict_set (_URL.compressed_data self) compressed_str
                    {| _URL.huffman_codes := huffman_codes;
                       _URL.original_url := long_url |};
                _URL.max_collision_attempts := _URL.max_collision_attempts self |})).
Proof.
  intros Hu. unfold _URL.shorten_url, dict_in. rewrite Hu.
  destruct (_URL._generate_short_code self rnd 0 long_url) as [[short_code|e] i] eqn:Hgen.
  2: { left. eauto. }
  right. unfold _URL._generate_short_code in Hgen.
  apply generate_short_code_Ok in Hgen as (Hnew & Hne & k & p & _ & Hsc & Hp).
  rewrite _URL_regenerate_new by done.
  destruct (_compress_returns short_code Hne) as (c & codes & Hc & _).
  rewrite Hc. exists short_code, i, c, codes. split_and!; try done; [|eauto].
  by apply dict_in_false.
Qed.

(** One turn of fuel is enough for [shorten_url] to return. *)
Lemma _URL_shorten_url_returns fuel self rnd letters long_url :
  ∃ r self', _URL.shorten_url (S fuel) self rnd letters long_url = Some (r, self').
Proof.
  destruct (dict_get (_URL.url_to_code self) long_url) as [sc|] eqn:Hu.
  - rewrite (_URL_shorten_url_known _ _ _ _ _ _ Hu). eauto.
  - destruct (_URL_shorten_url_new fuel self rnd letters long_url Hu)
      as [(e & i & _ & ->)|(sc & i & c & codes & _ & _ & _ & _ & ->)]; eauto.
Qed.

Lemma _URL_shorten_url_failed fuel self rnd letters long_url e self' :
  _URL.shorten_url fuel self rnd letters long_url = Some (Raise e, self') → self' = self.
Proof.
  destruct (dict_get (_URL.url_to_code self) long_url) as [sc|] eqn:Hu.
  { rewrite (_URL_shorten_url_known _ _ _ _ _ _ Hu). by intros [= _ <-]. }
  destruct fuel as [|fuel].
  - unfold _URL.shorten_url, dict_in. rewrite Hu.
    destruct (_URL._generate_short_code self rnd 0 long_url) as [[short_code|e'] i];
      [done|]. by intros [= _ <-].
  - destruct (_URL_shorten_url_new fuel self rnd letters long_url Hu)
      as [(e' & i & _ & ->)|(sc & i & c & codes & _ & _ & _ & _ & ->)]; [|done].
    by intros [= _ <-].
Qed.

(** What [expand_url] of [_URL.py] computes, on any store. *)
Lemma _URL_expand_url_spec self compressed_code :
  _URL.expand_url self compressed_code
  = (Ok match dict_get (_URL.compressed_data self) compressed_code with
        | Some data =>
            match _decompress compressed_code (_URL.huffman_codes data) with
            | Ok short_code => dict_get (_URL.code_to_url self) short_code
            | Raise _ => None
            end
        | None => None
        end,
     self).
Proof.
  unfold _URL.expand_url, dict_in.
  destruct (dict_get (_URL.compressed_data self) compressed_code) as [data|] eqn:Hd;
    [|done].
  simpl. rewrite (dict_item_Some _ _ _ Hd), bind_Ok.
  by destruct (_decompress compressed_code (_URL.huffman_codes data)).
Qed.

Lemma dict_set_elem {V} (d : dict V) (k k' : string) (v v' : V) :
  (k', v') ∈ dict_set d k v → (k' = k ∧ v' = v) ∨ (k', v') ∈ d.
Proof.
  induction d as [|[k0 v0] d IH]; simpl.
  - intros [= -> ->]%list_elem_of_singleton. by left.
  - destruct (String.eqb_spec k0 k) as [->|Hne].
    + intros [[= -> ->]|Hin]%elem_of_cons; [by left|].
      right. by apply list_elem_of_further.
    + intros [[= -> ->]|Hin]%elem_of_cons.
      * right. apply list_elem_of_here.
      * destruct (IH Hin) as [?|?]; [by left|]. right. by apply list_elem_of_further.
Qed.

Lemma lowercase4_length (s : string) : lowercase4 s = true → String.length s = 4%nat.
Proof. unfold lowercase4. intros [Hlen _]%andb_true_iff. by apply Nat.eqb_eq in Hlen. Qed.

Lemma _URL_shorten_url_consistent fuel self rnd letters long_url r self' :
  (∀ i, lowercase4 (rnd i) = true) →
  _URL_consistent self →
  _URL.shorten_url fuel self rnd letters long_url = Some (r, self') →
  _URL_consistent self'.
Proof.
  intros Hrnd Hcons Hs.
  destruct (dict_get (_URL.url_to_code self) long_url) as [sc0|] eqn:Hu.
  { rewrite (_URL_shorten_url_known _ _ _ _ _ _ Hu) in Hs. by injection Hs as _ <-. }
  destruct fuel as [|fuel].
  { revert Hs. unfold _URL.shorten_url, dict_in. rewrite Hu.
    destruct (_URL._generate_short_code self rnd 0 long_url) as [[short_code|e'] i];
      [done|]. by intros [= _ <-]. }
  destruct (_URL_shorten_url_new fuel self rnd letters long_url Hu)
    as [(e & i & _ & He)|(sc & i & c & codes & _ & Hnew & (k & p & Hsc & Hp) & Hc & Hok)].
  { rewrite He in Hs. by injection Hs as _ <-. }
  rewrite Hok in Hs. injection Hs as _ <-.
  destruct Hcons as [Hfwd Hbwd Hlen Hdata Hkeys].
  constructor; simpl.
  - intros u sc'. rewrite !dict_get_set.
    destruct (String.eqb_spec long_url u) as [<-|Hne].
    + intros [= <-]. by rewrite String.eqb_refl.
    + intros Hu'. pose proof (Hfwd _ _ Hu') as Hsc'.
      destruct (String.eqb_spec sc sc') as [<-|]; [congruence|done].
  - intros u sc'. rewrite !dict_get_set.
    destruct (String.eqb_spec sc sc') as [<-|Hne].
    + intros [= <-]. by rewrite String.eqb_refl.
    + intros Hsc'. pose proof (Hbwd _ _ Hsc') as Hu'.
      destruct (String.eqb_spec long_url u) as [<-|]; [congruence|done].
  - intros u sc'. rewrite dict_get_set.
    destruct (String.eqb_spec sc sc') as [<-|Hne]; [|apply Hlen].
    intros _. rewrite Hsc, string_app_length, Hp, (lowercase4_length _ (Hrnd k)). done.
  - intros q data [[-> ->]|Hin]%dict_set_elem.
    + exists sc. simpl. by rewrite dict_get_set_eq.
    + destruct (Hdata _ _ Hin) as (sc' & Hsc' & Hc'). exists sc'. split; [|done].
      rewrite dict_get_set. destruct (String.eqb_spec sc sc') as [<-|]; [congruence|done].
  - by apply dict_set_NoDup.
Qed.

Lemma _URL_reachable_consistent self : _URL.reachable self → _URL_consistent self.
Proof.
  induction 1 as [|fuel self rnd letters long_url r self' _ IH Hrnd _ Hs
                  |self q r self' _ IH He].
  - constructor; simpl; try done.
    + intros ? ? Hin. by apply elem_of_nil in Hin.
    + constructor.
  - by eapply _URL_shorten_url_consistent.
  - rewrite _URL_expand_url_spec in He. by injection He as _ <-.
Qed.

(** ** Greedy decoding under a prefix-free table *)

Lemma chars_app (s t : string) : chars (s +:+ t) = chars s ++ chars t.
Proof. induction s as [|a s IH]; simpl; [done|]. by rewrite IH. Qed.

Lemma join_cons (s : string) (l : list string) : join (s :: l) = s +:+ join l.
Proof. reflexivity. Qed.

Lemma join_app (l k : list string) : join (l ++ k) = join l +:+ join k.
Proof.
  induction l as [|s l IH]; [done|].
  rewrite <- app_comm_cons, !join_cons, IH. by rewrite string_app_assoc.
Qed.

Lemma pairwise_prefix_free_NoDup (l : list string) : pairwise_prefix_free l → NoDup l.
Proof.
  intros Hpf. apply NoDup_alt. intros i j p Hi Hj.
  apply (Hpf i j p p Hi Hj). apply prefix_true. exists "". by rewrite string_app_nil_r.
Qed.

(** The reverse mapping of a table whose codes differ has the entries of
    the table, turned around. *)
Lemma reverse_codes_swap (codes : dict string) (d : dict string) :
  NoDup (d.*1 ++ codes.*2) →
  fold_left (fun d '(c, code) => dict_set d code c) codes d
  = d ++ ((fun e => (e.2, e.1)) <$> codes).
Proof.
  revert d. induction codes as [|[c code] codes IH]; intros d Hnd; simpl.
  - by rewrite app_nil_r.
  - assert (code ∉ d.*1) as Hnew.
    { apply NoDup_app in Hnd as (_ & Hd & _). intros Hin. apply (Hd _ Hin), list_elem_of_here. }
    rewrite dict_set_new by done. rewrite IH.
    + by rewrite <- app_assoc.
    + rewrite fmap_app. simpl. rewrite <- app_assoc. simpl.
      by rewrite fmap_cons in Hnd.
Qed.

Section Decoding.
Context (codes : dict string).
Context (Hkeys : NoDup codes.*1).
Context (Hpf : pairwise_prefix_free codes.*2).
Context (Hne : Forall (fun p => p ≠ "") codes.*2).

Let reverse_codes : dict string := reverse_mapping codes.

Lemma reverse_codes_get (code c : string) :
  dict_get reverse_codes code = Some c ↔ dict_get codes c = Some code.
Proof.
  unfold reverse_codes, reverse_mapping. rewrite reverse_codes_swap, app_nil_l
    by (by apply pairwise_prefix_free_NoDup).
  assert (NoDup ((fun e : string * string => (e.2, e.1)) <$> codes).*1) as Hnd.
  { rewrite <- list_fmap_compose. by apply pairwise_prefix_free_NoDup. }
  split.
  - intros Hget. apply dict_get_Some_elem, list_elem_of_fmap in Hget as ([c' code'] & [= -> ->] & Hin).
    by apply dict_elem_get.
  - intros Hget. apply dict_elem_get; [done|].
    apply list_elem_of_fmap. exists (c, code). split; [done|].
    by apply dict_get_Some_elem.
Qed.

(** A proper prefix of a code is not a code. *)
Lemma proper_prefix_not_code (c code buf rest : string) :
  dict_get codes c = Some code → code = buf +:+ rest → rest ≠ "" →
  dict_get reverse_codes buf = None.
Proof.
  intros Hc -> Hrest.
  destruct (dict_get reverse_codes buf) as [c'|] eqn:Hbuf; [|done].
  apply reverse_codes_get in Hbuf.
  apply dict_get_Some_elem, list_elem_of_lookup in Hc as [i Hi].
  apply dict_get_Some_elem, list_elem_of_lookup in Hbuf as [j Hj].
  assert (j = i) as ->.
  { apply (Hpf j i buf (buf +:+ rest)).
    - by rewrite list_lookup_fmap, Hj.
    - by rewrite list_lookup_fmap, Hi.
    - apply prefix_true. eauto. }
  rewrite Hi in Hj. injection Hj as _ Heq.
  exfalso. apply Hrest. apply (String.app_inj buf). by rewrite string_app_nil_r.
Qed.

(** The loop reads the code of a symbol and emits the symbol. *)
Lemma decode_loop_code (c code : string) (binary result : list string) :
  dict_get codes c = Some code →
  ∀ buf suffix, code = buf +:+ suffix → suffix ≠ "" →
    decode_loop reverse_codes (chars suffix ++ binary) buf result
    = decode_loop reverse_codes binary "" (result ++ [c]).
Proof.
  intros Hc buf suffix. revert buf.
  induction suffix as [|b suffix IH]; intros buf Hcode Hsuffix; [done|].
  cbn [chars app decode_loop].
  destruct suffix as [|b' suffix'].
  - rewrite <- Hcode. apply reverse_codes_get in Hc. by rewrite Hc.
  - rewrite (proper_prefix_not_code c code _ (String b' suffix')); [| done | | done].
    + apply IH; [|done]. by rewrite string_app_assoc.
    + by rewrite string_app_assoc.
Qed.

(** The loop decodes the codes of a sequence of symbols to the sequence,
    and goes on with what follows. *)
Lemma decode_loop_symbols (cs ps : list string) (binary result : list string) :
  Forall2 (fun c p => dict_get codes c = Some p) cs ps →
  decode_loop reverse_codes (chars (join ps) ++ binary) "" result
  = decode_loop reverse_codes binary "" (result ++ cs).
Proof.
  intros Hall. revert result.
  induction Hall as [|c p cs ps Hc _ IH]; intros result.
  - by rewrite app_nil_r.
  - rewrite join_cons, chars_app, <- app_assoc.
    rewrite (decode_loop_code c p); [| done | done |].
    + rewrite IH. by rewrite <- app_assoc.
    + apply dict_get_Some_elem, list_elem_of_lookup in Hc as [i Hi].
      rewrite Forall_lookup in Hne. apply (Hne i). by rewrite list_lookup_fmap, Hi.
Qed.
End Decoding.

(** ** Bit strings, integers and bytes *)

Lemma string_snoc_ind (P : string → Prop) :
  P "" → (∀ s c, P s → P (s +:+ String c "")) → ∀ s, P s.
Proof.
  intros Hnil Hsnoc s.
  assert (∀ n s, String.length s = n → P s) as Hlen; [|by eapply Hlen].
  clear s. induction n as [|n IH]; intros s Hs.
  - destruct s; [done|discriminate].
  - assert (∃ s' c, s = s' +:+ String c "") as (s' & c & ->).
    { clear -Hs. revert n Hs. induction s as [|a s IHs]; intros n Hs; [discriminate|].
      destruct s as [|b s].
      - by exists "", a.
      - destruct n as [|n]; [discriminate|].
        destruct (IHs n) as (s' & c & Heq); [simpl in *; lia|].
        exists (String a s'), c. simpl. by rewrite <- Heq. }
    apply Hsnoc, IH. rewrite string_app_length in Hs. simpl in Hs. lia.
Qed.

Lemma int2_loop_app (s t : string) (acc : Z) :
  int2_loop (s +:+ t) acc = int2_loop s acc ≫= int2_loop t.
Proof.
  revert acc. induction s as [|c s IH]; intros acc; simpl; [done|].
  repeat case_match; try done; apply IH.
Qed.

Lemma repeat_char_snoc (c : ascii) (n : nat) :
  repeat_char c (S n) = repeat_char c n +:+ String c "".
Proof. induction n as [|n IH]; [done|]. simpl in *. by rewrite IH. Qed.

Lemma pos_bin_length (p : positive) : (1 ≤ String.length (pos_bin p))%nat.
Proof. induction p; simpl; rewrite ?string_app_length; simpl; lia. Qed.

(** Appending a bit to the digits doubles the number and adds the bit. *)
Lemma zfill_bin_digits_snoc (n : Z) (b : bool) (width : nat) :
  0 ≤ n → (1 ≤ width)%nat →
  zfill (bin_digits (2 * n + (if b then 1 else 0))) (S width)
  = zfill (bin_digits n) width +:+ String (if b then "1" else "0")%char "".
Proof.
  intros Hn Hw. unfold zfill. destruct n as [|p|p]; [| |lia].
  - destruct width as [|w]; [lia|]. destruct b; simpl.
    + rewrite Nat.sub_0_r, <- repeat_char_snoc. reflexivity.
    + rewrite Nat.sub_0_r, <- repeat_char_snoc. apply (repeat_char_snoc "0" (S w)).
  - destruct b.
    + change (2 * Z.pos p + 1) with (Z.pos p~1). cbn [bin_digits pos_bin].
      rewrite string_app_length. cbn [String.length].
      replace (S width - (String.length (pos_bin p) + 1))%nat
        with (width - String.length (pos_bin p))%nat by lia.
      by rewrite string_app_assoc.
    + change (2 * Z.pos p + 0) with (Z.pos p~0). cbn [bin_digits pos_bin].
      rewrite string_app_length. cbn [String.length].
      replace (S width - (String.length (pos_bin p) + 1))%nat
        with (width - String.length (pos_bin p))%nat by lia.
      by rewrite string_app_assoc.
Qed.

(** [int] and [bin] with [zfill] are inverse on the non-empty strings of
    binary digits. *)
Lemma zfill_bin_digits_int2 (s : string) :
  all_chars is_bit s = true → s ≠ "" →
  ∃ n, int2_loop s 0 = Ok n ∧ 0 ≤ n ∧ zfill (bin_digits n) (String.length s) = s.
Proof.
  induction s as [|s c IH] using string_snoc_ind; [done|].
  rewrite all_chars_app. intros [Hs Hc]%andb_true_iff _. simpl in Hc.
  rewrite andb_true_r in Hc. unfold is_bit in Hc.
  rewrite int2_loop_app, string_app_length. simpl.
  assert (∃ b : bool, c = (if b then "1" else "0")%char) as [b ->].
  { destruct (Ascii.eqb_spec c "0") as [->|]; [by exists false|].
    destruct (Ascii.eqb_spec c "1") as [->|]; [by exists true|done]. }
  destruct s as [|a s].
  { destruct b; [exists 1 | exists 0]; done. }
  destruct IH as (n & Hn & Hpos & Hfill); [done..|].
  rewrite Hn, bind_Ok. exists (2 * n + (if b then 1 else 0)).
  replace (String.length (String a s) + 1)%nat with (S (String.length (String a s))) by lia.
  rewrite zfill_bin_digits_snoc by (done || (simpl; lia)). rewrite Hfill.
  split_and!; [|destruct b; lia|done].
  destruct b; simpl; [done|]. by rewrite Z.add_0_r.
Qed.

Lemma from_bytes_be_bytes (n : Z) (len : nat) :
  0 ≤ n < 256 ^ Z.of_nat len → from_bytes (be_bytes n len) = n.
Proof.
  intros Hn. unfold from_bytes.
  assert (∀ len acc, fold_left (fun acc b => acc * 256 + b) (be_bytes n len) acc
                     = acc * 256 ^ Z.of_nat len + n mod 256 ^ Z.of_nat len) as Hloop.
  { clear. induction len as [|len IH]; intros acc.
    - simpl. rewrite Z.mod_1_r. lia.
    - cbn [be_bytes fold_left]. rewrite IH.
      rewrite Nat2Z.inj_succ, Z.pow_succ_r by lia.
      rewrite (Z.mul_comm 256 (256 ^ Z.of_nat len)).
      rewrite (Z.rem_mul_r n (256 ^ Z.of_nat len) 256) by lia. lia. }
  rewrite Hloop. rewrite Z.mod_small by done. lia.
Qed.

(** ** Base64 *)

(** A digit of the URL-safe alphabet is ASCII, is not the pad, and decodes
    to its value. *)
Lemma urlsafe_digit (v : Z) :
  0 ≤ v < 64 →
  let b := ord (urlsafe_encode_char (b64char v)) in
  (b <? 128) = true
  ∧ (urlsafe_decode_translate b =? 61) = false
  ∧ table_a2b_base64 (urlsafe_decode_translate b) = Some v.
Proof.
  intros Hv.
  assert (v ∈ Z.of_nat <$> seq 0 64) as Hin.
  { apply list_elem_of_fmap. exists (Z.to_nat v). split; [lia|].
    apply elem_of_seq. lia. }
  revert Hin. generalize v. apply Forall_forall.
  let l := eval vm_compute in (Z.of_nat <$> seq 0 64) in
  change (Z.of_nat <$> seq 0 64) with l.
  repeat (constructor; [by vm_compute|]). constructor.
Qed.

Lemma a2b_base64_loop_digit (v : Z) (s : string) quad_pos leftchar pads bin_data :
  0 ≤ v < 64 →
  a2b_base64_loop
    (map urlsafe_decode_translate
       (encode (urlsafe_encode_translate (String (b64char v) s))))
    quad_pos leftchar pads bin_data
  = let s' := map urlsafe_decode_translate (encode (urlsafe_encode_translate s)) in
    match quad_pos with
    | 0%nat => a2b_base64_loop s' 1 v 0 bin_data
    | 1%nat => a2b_base64_loop s' 2 (v mod 16) 0 (bin_data ++ [leftchar * 4 + v / 16])
    | 2%nat => a2b_base64_loop s' 3 (v mod 4) 0 (bin_data ++ [leftchar * 16 + v / 4])
    | _ => a2b_base64_loop s' 0 0 0 (bin_data ++ [leftchar * 64 + v])
    end.
Proof.
  intros Hv. destruct (urlsafe_digit v Hv) as (Hascii & Hpad & Hval).
  cbn [urlsafe_encode_translate encode]. rewrite Hascii.
  cbn [map a2b_base64_loop]. by rewrite Hpad, Hval.
Qed.

(** Decoding the encoding of a byte sequence returns the sequence. *)
Lemma a2b_base64_loop_b64encode (bs : list Z) (leftchar : Z) (pads : nat)
    (bin_data : list Z) :
  Forall (fun b => 0 ≤ b < 256) bs →
  a2b_base64_loop
    (map urlsafe_decode_translate (encode (urlsafe_b64encode bs)))
    0 leftchar pads bin_data
  = Ok (bin_data ++ bs).
Proof.
  unfold urlsafe_b64encode.
  assert (∀ n bs, (length bs ≤ n)%nat → ∀ leftchar pads bin_data,
            Forall (fun b => 0 ≤ b < 256) bs →
            a2b_base64_loop
              (map urlsafe_decode_translate
                 (encode (urlsafe_encode_translate (b64encode bs))))
              0 leftchar pads bin_data
            = Ok (bin_data ++ bs)) as Hn; [|by apply (Hn (length bs))].
  clear. induction n as [|n IH]; intros bs Hlen leftchar pads bin_data Hbs.
  { destruct bs; [|simpl in Hlen; lia]. simpl. by rewrite app_nil_r. }
  destruct bs as [|a [|b [|c rest]]].
  - simpl. by rewrite app_nil_r.
  - apply Forall_cons in Hbs as [Ha _].
    cbn [b64encode].
    rewrite !a2b_base64_loop_digit by div_lia.
    cbn zeta iota. simpl. do 3 f_equal. div_lia.
  - apply Forall_cons in Hbs as [Ha [Hb _]%Forall_cons].
    cbn [b64encode].
    rewrite !a2b_base64_loop_digit by div_lia.
    cbn zeta iota. simpl. rewrite <- app_assoc. do 2 f_equal. simpl. f_equal; [div_lia|].
    f_equal. div_lia.
  - apply Forall_cons in Hbs as [Ha [Hb [Hc Hrest]%Forall_cons]%Forall_cons].
    cbn [b64encode].
    rewrite !a2b_base64_loop_digit by div_lia.
    cbn zeta iota. rewrite IH by (done || (simpl in Hlen; lia)).
    rewrite <- !app_assoc. do 2 f_equal. simpl. f_equal; [div_lia|].
    f_equal; [div_lia|]. f_equal. div_lia.
Qed.

Lemma urlsafe_b64decode_b64encode (bs : list Z) :
  Forall (fun b => 0 ≤ b < 256) bs →
  urlsafe_b64decode (encode (urlsafe_b64encode bs)) = Ok bs.
Proof. intros Hbs. unfold urlsafe_b64decode, a2b_base64. by rewrite a2b_base64_loop_b64encode. Qed.

(** ** The round trip, up to the padding *)

Lemma decode_loop_result (reverse_codes : dict string) (binary : list string)
    (current_code : string) (result : list string) :
  decode_loop reverse_codes binary current_code result
  = result ++ decode_loop reverse_codes binary current_code [].
Proof.
  revert current_code result. induction binary as [|bit binary IH];
    intros current_code result; simpl.
  - by rewrite app_nil_r.
  - destruct (dict_get reverse_codes (current_code +:+ bit)) as [c|]; [|apply IH].
    rewrite IH, (IH _ ([] ++ [c])). by rewrite <- app_assoc.
Qed.

(** [_decompress] of what [_compress] returns is the input followed by the
    symbols that the padding bits decode to. *)
Theorem _decompress_compress (data : string) :
  data ≠ "" →
  ∃ compressed_str huffman_codes codes,
    _compress data = Ok (compressed_str, huffman_codes)
    ∧ mapM (dict_item huffman_codes) (chars data) = Ok codes
    ∧ let padding_length := ((8 - String.length (join codes) mod 8) mod 8)%nat in
      _decompress compressed_str huffman_codes
      = Ok (data +:+ join (padding_symbols huffman_codes padding_length)).
Proof.
  intros Hdata.
  destruct (_compress_spec data Hdata)
    as (huffman_codes & codes & n & len & Hbuild & Hcodes & Hpadded & Hn & Hcompress).
  destruct (_build_huffman_tree_spec data) as (? & Hbuild' & Hkeys & _ & Hpf & Hne).
  rewrite Hbuild in Hbuild'. injection Hbuild' as <-.
  exists (urlsafe_b64encode (be_bytes n len)), huffman_codes, codes.
  split; [done|]. split.
  { clear -Hcodes. induction Hcodes as [|c p cs ps Hc _ IH]; [done|].
    simpl. by rewrite (dict_item_Some _ _ _ Hc), bind_Ok, IH. }
  cbv zeta in *. destruct Hpadded as (Hbits & Hnonempty & Hlen & Hint).
  unfold _decompress.
  rewrite urlsafe_b64decode_b64encode by apply be_bytes_range.
  rewrite bind_Ok, from_bytes_be_bytes, be_bytes_length by done.
  destruct (zfill_bin_digits_int2 _ Hbits Hnonempty) as (n' & Hint' & _ & Hfill).
  rewrite Hint in Hint'. injection Hint' as <-.
  rewrite <- Hlen, Hfill, chars_app.
  rewrite (decode_loop_symbols huffman_codes Hkeys Hpf) with (cs := chars data);
    [| eapply Forall_impl; [done|]; by intros ? [? _] | done].
  rewrite app_nil_l, decode_loop_result, join_app, join_chars. done.
Qed.

(** When the code bits fill whole bytes, the round trip is exact. *)
Corollary _decompress_compress_whole_bytes (data : string) :
  data ≠ "" →
  ∃ compressed_str huffman_codes codes,
    _compress data = Ok (compressed_str, huffman_codes)
    ∧ mapM (dict_item huffman_codes) (chars data) = Ok codes
    ∧ ((String.length (join codes) mod 8 = 0)%nat →
       _decompress compressed_str huffman_codes = Ok data).
Proof.
  intros Hdata.
  destruct (_decompress_compress data Hdata) as (c & t & codes & Hc & Hm & Hd).
  exists c, t, codes. split_and!; [done..|].
  intros Hz. cbv zeta in Hd. rewrite Hd, Hz. by rewrite string_app_nil_r.
Qed.

(** ** [_URL.py]: what [expand_url] returns *)

(** On a store the program can hold, a URL that [expand_url] of [_URL.py]
    returns is the URL of the record kept under the query, the query is the
    compression of the short code of that URL, and it decodes to that short
    code: the padding added nothing. *)
Lemma _URL_expand_url_sound self compressed_code url :
  _URL.reachable self →
  (_URL.expand_url self compressed_code).1 = Ok (Some url) →
  ∃ data short_code,
    dict_get (_URL.compressed_data self) compressed_code = Some data
    ∧ _URL.original_url data = url
    ∧ dict_get (_URL.url_to_code self) url = Some short_code
    ∧ _compress short_code = Ok (compressed_code, _URL.huffman_codes data)
    ∧ _decompress compressed_code (_URL.huffman_codes data) = Ok short_code.
Proof.
  intros Hr. destruct (_URL_reachable_consistent _ Hr) as [Hfwd Hbwd Hlen Hdata Hkeys].
  rewrite _URL_expand_url_spec. simpl.
  destruct (dict_get (_URL.compressed_data self) compressed_code) as [data|] eqn:Hq;
    [|done].
  destruct (_decompress compressed_code (_URL.huffman_codes data)) as [sc'|] eqn:Hdec;
    [|done].
  intros [= Hsc'].
  destruct (Hdata _ _ (dict_get_Some_elem _ _ _ Hq)) as (sc & Hsc & Hc).
  assert (sc ≠ "") as Hne.
  { intros ->. by apply Hlen in Hsc. }
  destruct (_decompress_compress sc Hne) as (c & t & codes & Hc' & _ & Hround).
  cbv zeta in Hround. revert Hround. generalize (join (padding_symbols t
    ((8 - String.length (join codes) mod 8) mod 8))). intros extra Hround.
  rewrite Hc in Hc'. injection Hc' as <- <-.
  rewrite Hdec in Hround. injection Hround as ->.
  assert (extra = "") as ->.
  { apply Hlen in Hsc, Hsc'. rewrite string_app_length, Hsc in Hsc'.
    destruct extra; [done|]. simpl in Hsc'. lia. }
  rewrite string_app_nil_r in Hsc', Hdec.
  exists data, sc. split_and!; try done; [congruence|]. apply Hbwd. congruence.
Qed.

(** * The properties of the specification *)

(** ** The codec *)

(** C1. The round trip fails on "abracadabra": the 23 code bits are padded
    with one '0' bit, which is the code of 'a', and [_decompress] returns
    the input with one more 'a'. *)
Theorem roundtrip_abracadabra :
  _compress "abracadabra"
  = Ok ("fIr4", [("a", "0"); ("c", "100"); ("d", "101"); ("r", "110"); ("b", "111")])
  ∧ _decompress "fIr4"
      [("a", "0"); ("c", "100"); ("d", "101"); ("r", "110"); ("b", "111")]
    = Ok "abracadabraa".
Proof. split; vm_compute; reflexivity. Qed.

(** C4. A string of one repeated character gets the table with the single
    code "0"; the round trip of "aaaa" returns eight characters, the four
    padding bits being decoded as well. *)
Theorem single_symbol_aaaa :
  (∀ c n, _build_huffman_tree (repeat_char c (S n)) = Ok [(String c "", "0")])
  ∧ _compress "aaaa" = Ok ("AA==", [("a", "0")])
  ∧ _decompress "AA==" [("a", "0")] = Ok "aaaaaaaa".
Proof.
  split; [|split; vm_compute; reflexivity].
  intros c n. unfold _build_huffman_tree.
  assert (∀ m k, fold_left
                   (fun m e => dict_set m e (default 0 (dict_get m e) + 1))
                   (chars (repeat_char c m)) [(String c "", k)]
                 = [(String c "", k + Z.of_nat m)]) as Hcount.
  { induction m as [|m IH]; intros k; simpl.
    - by rewrite Z.add_0_r.
    - rewrite Ascii.eqb_refl. simpl. rewrite IH. do 2 f_equal. lia. }
  unfold Counter. simpl. by rewrite Hcount.
Qed.

(** C5. For every non-empty input the table is returned and no code of it is
    a prefix of the code of another symbol; in particular the codes of two
    symbols differ. *)
Theorem code_table_prefix_free (data : string) :
  data ≠ "" →
  ∃ codes, _build_huffman_tree data = Ok codes ∧ prefix_free codes.
Proof.
  intros _. destruct (_build_huffman_tree_spec data) as (codes & Hb & Hnd & _ & Hpf & _).
  exists codes. split; [done|]. by apply pairwise_prefix_free_dict.
Qed.

Lemma code_table_prefix_free_witness :
  "abracadabra" ≠ ""
  ∧ ∃ codes, _build_huffman_tree "abracadabra" = Ok codes ∧ prefix_free codes.
Proof.
  split; [discriminate|]. apply (code_table_prefix_free "abracadabra"). discriminate.
Defined.

(** C10. For every non-empty input the table has an entry for every
    character of the input, a non-empty string of binary digits, so that
    the lookups of [_compress] all succeed. *)
Theorem code_table_complete (data : string) :
  data ≠ "" →
  ∃ codes, _build_huffman_tree data = Ok codes
    ∧ (∀ c, c ∈ chars data →
         ∃ code, dict_item codes c = Ok code
           ∧ code ≠ "" ∧ all_chars is_bit code = true)
    ∧ ∃ cs, mapM (dict_item codes) (chars data) = Ok cs.
Proof.
  intros _. destruct (_build_huffman_tree_spec data) as (codes & Hb & Hnd & Hkeys & _ & Hbits).
  exists codes. split_and!; [done| |].
  - intros c Hc. apply Hkeys in Hc.
    destruct (dict_get codes c) as [code|] eqn:Hget.
    2: { by apply dict_get_None in Hget. }
    exists code. split; [by apply dict_item_Some|].
    apply dict_get_Some_elem, list_elem_of_lookup in Hget as [i Hi].
    rewrite Forall_lookup in Hbits. apply (Hbits i). by rewrite list_lookup_fmap, Hi.
  - destruct (mapM_dict_item codes (chars data)) as (ps & Hps & _); [|eauto].
    intros c. apply Hkeys.
Qed.

Lemma code_table_complete_witness :
  "mWPJSCMsabcd" ≠ ""
  ∧ ∃ codes, _build_huffman_tree "mWPJSCMsabcd" = Ok codes
      ∧ (∀ c, c ∈ chars "mWPJSCMsabcd" →
           ∃ code, dict_item codes c = Ok code
             ∧ code ≠ "" ∧ all_chars is_bit code = true)
      ∧ ∃ cs, mapM (dict_item codes) (chars "mWPJSCMsabcd") = Ok cs.
Proof.
  split; [discriminate|]. apply (code_table_complete "mWPJSCMsabcd"). discriminate.
Defined.

(** ** Decoding *)

Lemma a2b_base64_loop_error s quad_pos leftchar pads bin_data e :
  a2b_base64_loop s quad_pos leftchar pads bin_data = Raise e → e = BinasciiError.
Proof.
  revert quad_pos leftchar pads bin_data.
  induction s as [|b s IH]; intros quad_pos leftchar pads bin_data; simpl.
  - destruct (quad_pos =? 0)%nat; [done|]. by intros [= <-].
  - repeat case_match; try done; apply IH.
Qed.

(** Without a pad in the text, the decoder accepts exactly the texts whose
    digits fill whole groups of four. *)
Lemma a2b_base64_loop_no_pad s quad_pos leftchar pads bin_data :
  61 ∉ s → (quad_pos < 4)%nat →
  (∃ bs, a2b_base64_loop (map urlsafe_decode_translate s) quad_pos leftchar pads bin_data
         = Ok bs)
  ↔ ((quad_pos + b64_digits s) mod 4 = 0)%nat.
Proof.
  revert quad_pos leftchar pads bin_data.
  induction s as [|b s IH]; intros quad_pos leftchar pads bin_data Hpad Hq.
  - change (b64_digits []) with 0%nat. rewrite Nat.add_0_r, Nat.mod_small by done.
    cbn [map a2b_base64_loop].
    destruct quad_pos; simpl; split; eauto; try done. by intros [? ?].
  - apply not_elem_of_cons in Hpad as [Hb Hpad].
    assert ((urlsafe_decode_translate b =? 61) = false) as Hne.
    { unfold urlsafe_decode_translate. repeat case_match; lia. }
    cbn [map a2b_base64_loop]. rewrite Hne.
    unfold b64_digits. rewrite filter_cons.
    destruct (table_a2b_base64 (urlsafe_decode_translate b)) as [v|] eqn:Hv.
    + rewrite decide_True by eauto. cbn [length].
      fold (b64_digits s).
      destruct quad_pos as [|[|[|[|?]]]]; try lia; rewrite IH by (done || lia);
        replace (0 + S (b64_digits s))%nat with (1 + b64_digits s)%nat by lia;
        replace (1 + S (b64_digits s))%nat with (2 + b64_digits s)%nat by lia;
        replace (2 + S (b64_digits s))%nat with (3 + b64_digits s)%nat by lia;
        try done.
      replace (3 + S (b64_digits s))%nat with (b64_digits s + 1 * 4)%nat by lia.
      by rewrite Nat.Div0.mod_add.
    + rewrite decide_False by (by intros [? ?]). fold (b64_digits s). by apply IH.
Qed.

(** C7, as the code has it.  [_decompress] raises only when the base64
    decoder does, whatever the table: a buffer that matches no code is
    dropped, however long.  The decoder skips the characters outside its
    alphabet; for a text without '=' it raises exactly when the number of
    digits is not a multiple of four. *)
Theorem _decompress_raises (compressed_str : string) (huffman_codes : dict string) :
  (∀ e, _decompress compressed_str huffman_codes = Raise e
        ↔ urlsafe_b64decode (encode compressed_str) = Raise e)
  ∧ (∀ e, _decompress compressed_str huffman_codes = Raise e → e = BinasciiError)
  ∧ (61 ∉ encode compressed_str →
     (∃ s, _decompress compressed_str huffman_codes = Ok s)
     ↔ (b64_digits (encode compressed_str) mod 4 = 0)%nat).
Proof.
  unfold _decompress.
  split_and!.
  - intros e. destruct (urlsafe_b64decode (encode compressed_str)); simpl; split; congruence.
  - intros e. destruct (urlsafe_b64decode (encode compressed_str)) as [bs|e'] eqn:Hd;
      simpl; [done|].
    intros [= <-]. by apply a2b_base64_loop_error in Hd.
  - intros Hpad.
    rewrite <- (a2b_base64_loop_no_pad (encode compressed_str) 0 0 0 []) by (done || lia).
    fold (a2b_base64 (map urlsafe_decode_translate (encode compressed_str))).
    fold (urlsafe_b64decode (encode compressed_str)).
    destruct (urlsafe_b64decode (encode compressed_str)); simpl; split; eauto.
    + by intros [? ?].
    + by intros [? ?].
Qed.

(** C7, the counterexample.  "!!!!" is not base64, and under the table
    a = "1" the eight bits of "AA==" are all '0': both are decoded to the
    empty string without an error. *)
Lemma _decompress_no_decode_error :
  _decompress "!!!!" [("a", "1")] = Ok ""
  ∧ _decompress "AA==" [("a", "1")] = Ok "".
Proof. split; vm_compute; reflexivity. Qed.

Lemma _decompress_raises_witness :
  ∃ s, _decompress "!not*a*code!" [("a", "1")] = Ok s.
Proof.
  apply (proj2 (proj2 (_decompress_raises "!not*a*code!" [("a", "1")]))).
  - intros Hin. vm_compute in Hin. repeat (apply elem_of_cons in Hin as [Hin|Hin]; [done|]).
    by apply elem_of_nil in Hin.
  - vm_compute. reflexivity.
Defined.

(** ** The store *)

Lemma store_xxyy_reachable : URL.reachable store_xxyy.
Proof.
  eapply (URL.reachable_shorten URL.__init__ (fun _ => "xxyy") first_url).
  - constructor.
  - reflexivity.
  - apply surjective_pairing.
Qed.

Lemma store_xxyy_twice_reachable : URL.reachable store_xxyy_twice.
Proof.
  eapply (URL.reachable_shorten store_xxyy (fun _ => "xxyy") third_url).
  - apply store_xxyy_reachable.
  - reflexivity.
  - apply surjective_pairing.
Qed.

(** C2.  [shorten_url] of the first URL of the example, when the four
    random letters are a, b, c, d, returns the compressed code "ytm30ELw";
    [expand_url] of that code returns [None], in both files: the code
    decodes to the short code followed by one more 'b', made of the four
    padding bits. *)
Theorem inverse_law_first_url :
  URL.shorten_url URL.__init__ (fun _ => "abcd") first_url
  = (Ok ("mWPJSCMsabcd", "ytm30ELw"), store_abcd)
  ∧ URL.expand_url store_abcd "ytm30ELw" = (Ok None, store_abcd)
  ∧ _URL.shorten_url 1 _URL.__init__ (fun _ => "abcd") (fun _ => "a") first_url
    = Some (Ok ("mWPJSCMsabcd", "ytm30ELw"), _store_abcd)
  ∧ _URL.expand_url _store_abcd "ytm30ELw" = (Ok None, _store_abcd)
  ∧ _decompress "ytm30ELw"
      (default [] (URL.huffman_codes <$> dict_get (URL.compressed_data store_abcd)
                                           "mWPJSCMsabcd"))
    = Ok "mWPJSCMsabcdb".
Proof. split_and!; vm_compute; reflexivity. Qed.

(** C3, in [URL.py]: a second call returns what the first call returned and
    leaves the object as it is. *)
Lemma URL_shorten_url_idempotent self rnd rnd' long_url short_code compressed_str self' :
  URL.shorten_url self rnd long_url = (Ok (short_code, compressed_str), self') →
  URL.shorten_url self' rnd' long_url = (Ok (short_code, compressed_str), self').
Proof.
  intros Hs.
  destruct (dict_get (URL.url_to_code self) long_url) as [sc0|] eqn:Hu.
  - rewrite (URL_shorten_url_known _ _ _ _ Hu) in Hs.
    injection Hs as Hr <-. by rewrite (URL_shorten_url_known _ _ _ _ Hu), Hr.
  - apply URL_shorten_url_new in Hs as [(e & ? & _)|Hs]; [done| |done].
    destruct Hs as (sc & c & codes & [= <- <-] & _ & _ & _ & ->).
    rewrite (URL_shorten_url_known _ _ _ short_code); simpl.
    + by rewrite (dict_item_Some _ _ _ (dict_get_set_eq _ _ _)).
    + apply dict_get_set_eq.
Qed.

(** C3, in [_URL.py]: after the first call for the first URL of the example
    (random letters x, x, y, y), the second call raises [KeyError]. *)
Theorem _URL_shorten_url_twice :
  _URL.shorten_url 1 _URL.__init__ (fun _ => "xxyy") (fun _ => "a") first_url
  = Some (Ok ("mWPJSCMsxxyy", "VObIj_Y="), _store_xxyy)
  ∧ _URL.shorten_url 1 _store_xxyy (fun _ => "xxyy") (fun _ => "a") first_url
    = Some (Raise KeyError, _store_xxyy).
Proof. split; vm_compute; reflexivity. Qed.

(** In [_URL.py] every call for a URL that is stored raises [KeyError]. *)
Lemma _URL_shorten_url_again fuel fuel' self rnd letters rnd' letters' long_url r self' :
  _URL.shorten_url (S fuel) self rnd letters long_url = Some (Ok r, self') →
  _URL.shorten_url fuel' self' rnd' letters' long_url = Some (Raise KeyError, self').
Proof.
  intros Hs.
  destruct (dict_get (_URL.url_to_code self) long_url) as [sc0|] eqn:Hu.
  { by rewrite (_URL_shorten_url_known _ _ _ _ _ _ Hu) in Hs. }
  destruct (_URL_shorten_url_new fuel self rnd letters long_url Hu)
    as [(e & i & _ & He)|(sc & i & c & codes & _ & _ & _ & _ & Hok)].
  - by rewrite He in Hs.
  - rewrite Hok in Hs. injection Hs as _ <-.
    apply (_URL_shorten_url_known _ _ _ _ _ sc). simpl. apply dict_get_set_eq.
Qed.

(** C6, as the code has it.  On a store the program can hold, a URL that
    [expand_url] returns belongs to a record whose table, made for the
    short code of that URL, decodes the query to that short code.  When
    several records match, [URL.py] returns the URL of the first of them in
    insertion order, and [None] only when there is none; [_URL.py] keeps one
    record for each compressed code, the last one stored, and returns its
    URL. *)
Theorem expand_url_first_match :
  (∀ self compressed_code,
     URL.reachable self →
     URL.expand_url self compressed_code
     = (Ok (URL.original_url ∘ snd
              <$> find (decodes_to compressed_code) (URL.compressed_data self)),
        self)
     ∧ ∀ url,
         (URL.expand_url self compressed_code).1 = Ok (Some url) →
         ∃ short_code data,
           (short_code, data) ∈ URL.compressed_data self
           ∧ URL.original_url data = url
           ∧ dict_get (URL.url_to_code self) url = Some short_code
           ∧ _compress short_code = Ok (URL.compressed data, URL.huffman_codes data)
           ∧ _decompress compressed_code (URL.huffman_codes data) = Ok short_code)
  ∧ (∀ self compressed_code url,
       _URL.reachable self →
       (_URL.expand_url self compressed_code).1 = Ok (Some url) →
       ∃ data short_code,
         dict_get (_URL.compressed_data self) compressed_code = Some data
         ∧ _URL.original_url data = url
         ∧ dict_get (_URL.url_to_code self) url = Some short_code
         ∧ _compress short_code = Ok (compressed_code, _URL.huffman_codes data)
         ∧ _decompress compressed_code (_URL.huffman_codes data) = Ok short_code).
Proof.
  split; [|apply _URL_expand_url_sound].
  intros self compressed_code Hr.
  pose proof (URL_reachable_consistent _ Hr) as [Hfwd Hbwd Hrec Hdata Hkeys].
  rewrite URL_expand_url_find by done. split; [done|].
  intros url. simpl.
  destruct (find _ _) as [[sc data]|] eqn:Hfind; [|done].
  intros [= <-]. apply find_some in Hfind as [Hin Hdec].
  apply list_elem_of_In in Hin. destruct (Hdata _ _ Hin) as [Hsc Hc].
  exists sc, data. split_and!; try done; [by apply Hbwd|].
  unfold decodes_to in Hdec. simpl in Hdec.
  destruct (_decompress compressed_code (URL.huffman_codes data)) as [d|]; [|done].
  by apply String.eqb_eq in Hdec as ->.
Qed.

(** The theorem at the store after one [shorten_url]. *)
Lemma expand_url_first_match_witness :
  URL.expand_url store_xxyy "VObIj_Y=" = (Ok (Some first_url), store_xxyy).
Proof.
  rewrite (proj1 (proj1 expand_url_first_match store_xxyy "VObIj_Y="
                    store_xxyy_reachable)).
  vm_compute. reflexivity.
Defined.

(** C6, the counterexample.  The first and the third URL of the example,
    each with the random letters x, x, y, y, get different short codes and
    the same compressed code; in [URL.py] two records match it, and
    [expand_url] returns the first URL, not [None]; in [_URL.py] the second
    record replaces the first, and [expand_url] returns the third URL. *)
Lemma expand_url_ambiguous :
  URL.shorten_url URL.__init__ (fun _ => "xxyy") first_url
  = (Ok ("mWPJSCMsxxyy", "VObIj_Y="), store_xxyy)
  ∧ URL.shorten_url store_xxyy (fun _ => "xxyy") third_url
    = (Ok ("wu2HfOzaxxyy", "VObIj_Y="), store_xxyy_twice)
  ∧ URL.compressed <$> (URL.compressed_data store_xxyy_twice).*2
    = ["VObIj_Y="; "VObIj_Y="]
  ∧ List.filter (decodes_to "VObIj_Y=") (URL.compressed_data store_xxyy_twice)
    = URL.compressed_data store_xxyy_twice
  ∧ URL.expand_url store_xxyy_twice "VObIj_Y=" = (Ok (Some first_url), store_xxyy_twice)
  ∧ _URL.expand_url _store_xxyy_twice "VObIj_Y="
    = (Ok (Some third_url), _store_xxyy_twice)
  ∧ first_url ≠ third_url.
Proof. split_and!; try (vm_compute; reflexivity). discriminate. Qed.

Lemma URL_expand_loop_total self compressed_code items :
  ∃ o, URL.expand_loop self compressed_code items = Ok o.
Proof.
  induction items as [|[sc data] items IH]; simpl; [eauto|].
  destruct (URL.expand_try self compressed_code data) as [[url|]|e]; simpl; eauto.
Qed.

(** C8.  In both files: when the URL is new and every candidate of the
    [max_collision_attempts] attempts is a key of [code_to_url],
    [shorten_url] raises the [ValueError] of the generator; a call of
    [shorten_url] that raises, and every call of [expand_url], returns the
    object with its three mappings as they were. *)
Theorem exhaustion_and_atomicity :
  (∀ self rnd long_url,
     dict_in long_url (URL.url_to_code self) = false →
     all_taken (URL.max_collision_attempts self) (URL.code_to_url self) rnd long_url →
     URL.shorten_url self rnd long_url = (Raise ValueError, self))
  ∧ (∀ self rnd long_url e self',
       URL.shorten_url self rnd long_url = (Raise e, self') → self' = self)
  ∧ (∀ self compressed_code r self',
       URL.expand_url self compressed_code = (r, self') → self' = self)
  ∧ (∀ fuel self rnd letters long_url,
       dict_in long_url (_URL.url_to_code self) = false →
       all_taken (_URL.max_collision_attempts self) (_URL.code_to_url self) rnd long_url →
       _URL.shorten_url fuel self rnd letters long_url = Some (Raise ValueError, self))
  ∧ (∀ fuel self rnd letters long_url e self',
       _URL.shorten_url fuel self rnd letters long_url = Some (Raise e, self') →
       self' = self)
  ∧ (∀ self compressed_code r self',
       _URL.expand_url self compressed_code = (r, self') → self' = self).
Proof.
  split_and!.
  - intros self rnd long_url Hnew Htaken.
    unfold URL.shorten_url, URL._generate_short_code, generate_short_code.
    rewrite Hnew, generate_loop_exhausted; [done|].
    intros k Hk. apply Htaken. lia.
  - intros self rnd long_url e self' Hs.
    destruct (dict_get (URL.url_to_code self) long_url) as [sc|] eqn:Hu.
    + rewrite (URL_shorten_url_known _ _ _ _ Hu) in Hs. by injection Hs as _ <-.
    + apply URL_shorten_url_new in Hs as [(e' & _ & -> & _)|Hs]; [done| |done].
      by destruct Hs as (sc & c & codes & ? & _).
  - intros self q r self'. unfold URL.expand_url. by intros [= _ <-].
  - intros fuel self rnd letters long_url Hnew Htaken.
    unfold _URL.shorten_url, _URL._generate_short_code, generate_short_code.
    rewrite Hnew, generate_loop_exhausted; [done|].
    intros k Hk. apply Htaken. lia.
  - intros fuel self rnd letters long_url e self'. apply _URL_shorten_url_failed.
  - intros self q r self'. rewrite _URL_expand_url_spec. by intros [= _ <-].
Qed.

Lemma exhaustion_and_atomicity_witness :
  URL.shorten_url store_taken (fun _ => "xxyy") first_url = (Raise ValueError, store_taken).
Proof.
  apply (proj1 exhaustion_and_atomicity store_taken (fun _ => "xxyy") first_url).
  - reflexivity.
  - intros k Hk. exists "mWPJSCMsxxyy". split; vm_compute; reflexivity.
Defined.

(** C9.  [expand_url] of [URL.py] returns a URL for a query that no call
    of [shorten_url] produced.  After [shorten_url] of the first URL of the
    example (random letters x, x, y, y) the only compressed code stored is
    "VObIj_Y="; the query "VObIj_Y=garbage-never-produced" is decoded as
    that code, the base64 decoder stopping at the pad that completes the
    group, and [expand_url] returns the first URL.  [_URL.py], which looks
    the query up as a key, returns [None]. *)
Theorem expand_url_unknown_input :
  URL.shorten_url URL.__init__ (fun _ => "xxyy") first_url
  = (Ok ("mWPJSCMsxxyy", "VObIj_Y="), store_xxyy)
  ∧ URL.compressed <$> (URL.compressed_data store_xxyy).*2 = ["VObIj_Y="]
  ∧ URL.expand_url store_xxyy "VObIj_Y=garbage-never-produced"
    = (Ok (Some first_url), store_xxyy)
  ∧ _URL.shorten_url 1 _URL.__init__ (fun _ => "xxyy") (fun _ => "a") first_url
    = Some (Ok ("mWPJSCMsxxyy", "VObIj_Y="), _store_xxyy)
  ∧ _URL.expand_url _store_xxyy "VObIj_Y=garbage-never-produced"
    = (Ok None, _store_xxyy).
Proof. split_and!; vm_compute; reflexivity. Qed.

(** * Lemmas for the further properties *)

(** ** The shape of the tree *)

(** What holds of the nodes pushed first and is kept by a merge holds of
    the nodes that are left. *)
Lemma merge_loop_invariant (P : HuffmanNode → Prop) :
  (∀ l r, P l → P r → P (mkNode "" (freq l + freq r) (Some l) (Some r))) →
  ∀ fuel heap heap',
    Forall P heap → merge_loop fuel heap = Ok heap' → Forall P heap'.
Proof.
  intros Hmerge. induction fuel as [|fuel IH]; intros heap heap' HP; simpl.
  { by intros [= <-]. }
  destruct (1 <? length heap)%nat; [|by intros [= <-]].
  destruct (heappop node_lt heap) as [[l h1]|e] eqn:Hpop1; [|done].
  simpl. destruct (heappop node_lt h1) as [[r h2]|e] eqn:Hpop2; [|done].
  simpl. apply IH.
  apply heappop_perm in Hpop1, Hpop2.
  rewrite heappush_perm. rewrite Hpop1 in HP.
  apply Forall_cons in HP as [Hl HP]. rewrite Hpop2 in HP.
  apply Forall_cons in HP as [Hr HP]. constructor; auto.
Qed.

(** For an input with two distinct characters or more, the table is read
    off a tree with two subtrees; what holds of the leaves and is kept by
    a merge holds of the subtrees. *)
Lemma _build_huffman_tree_root (P : HuffmanNode → Prop) (data : string) :
  (∀ c n, (c, n) ∈ Counter (chars data) → P (mkNode c n None None)) →
  (∀ l r, P l → P r → P (mkNode "" (freq l + freq r) (Some l) (Some r))) →
  data ≠ "" → length (Counter (chars data)) ≠ 1%nat →
  ∃ l r,
    P l ∧ P r
    ∧ _build_huffman_tree data
      = Ok (paths (mkNode "" (freq l + freq r) (Some l) (Some r)) "").
Proof.
  intros Hleaf Hmerge Hdata Hone. unfold _build_huffman_tree.
  pose proof (Counter_NoDup (chars data)) as Hnd.
  pose proof (Counter_keys (chars data)) as Hkeys.
  set (counts := Counter (chars data)) in *.
  apply Nat.eqb_neq in Hone as Hone'. rewrite Hone'.
  set (heap := fold_left _ counts []).
  pose proof (push_leaves_perm counts []) as Hheap. fold heap in Hheap. simpl in Hheap.
  pose proof (Permutation_length Hheap) as Hlen. rewrite length_fmap in Hlen.
  assert (2 ≤ length counts)%nat as Htwo.
  { destruct counts as [|e [|e' counts']] eqn:Hc; simpl in *; [|lia|lia].
    destruct data as [|a data]; [done|].
    exfalso. apply (elem_of_nil (String a "")), Hkeys. simpl. apply list_elem_of_here. }
  set (Q := fun n => P n ∧ (left n = None ∨ ∃ l r, P l ∧ P r
            ∧ n = mkNode "" (freq l + freq r) (Some l) (Some r))).
  assert (Forall Q heap) as Hinit.
  { apply Forall_forall. intros n Hn. rewrite Hheap in Hn.
    apply list_elem_of_fmap in Hn as ([c k] & -> & Hin).
    split; [by apply Hleaf | by left]. }
  assert (∀ l r, Q l → Q r → Q (mkNode "" (freq l + freq r) (Some l) (Some r))) as HQ.
  { intros l r [Hl _] [Hr _]. split; [by apply Hmerge|]. right. by exists l, r. }
  destruct (merge_loop_spec (length heap) heap)
    as (heap' & Hloop & Hleaves & _ & Hbig); [done|].
  destruct Hbig as (f & l & r & ->); [lia|].
  pose proof (merge_loop_invariant Q HQ _ _ _ Hinit Hloop) as Hroot.
  apply Forall_singleton in Hroot as [_ [Hroot|(l' & r' & Hl & Hr & Hroot)]]; [done|].
  injection Hroot as -> -> ->.
  exists l', r'. split_and!; [done..|].
  rewrite Hloop. rewrite bind_Ok.
  rewrite bind_singleton in Hleaves.
  rewrite generate_codes_paths. rewrite fold_dict_set_new; [done|].
  rewrite app_nil_l, paths_keys, Hleaves, Hheap. rewrite leaf_of_leaves; [done|].
  apply Forall_forall. intros k Hk. apply (chars_truthy data), Hkeys, Hk.
Qed.

Lemma paths_first (node : HuffmanNode) :
  full node = true →
  ∀ code, ∃ c k rest,
    paths node code = (c, code +:+ repeat_char "0" k) :: rest
    ∧ (truthy (char node) = false → (1 ≤ k)%nat).
Proof.
  induction node as [c f l r IHl IHr] using HuffmanNode_nested_ind.
  intros Hfull code. simpl in *. destruct (truthy c) eqn:Hc.
  - exists c, 0%nat, []. simpl. by rewrite string_app_nil_r.
  - destruct l as [a|]; [|done]. destruct r as [b|]; [|done].
    simpl in Hfull. apply andb_true_iff in Hfull as [Ha Hb].
    destruct (IHl a eq_refl Ha (code +:+ "0")) as (c0 & k & rest & -> & _).
    exists c0, (S k), (rest ++ paths b (code +:+ "1")). split; [|lia].
    simpl. by rewrite string_app_assoc.
Qed.

(** The table of a non-empty input begins with a code made of '0' only. *)
Lemma _build_huffman_tree_first (data : string) :
  data ≠ "" →
  ∃ c0 d rest, _build_huffman_tree data = Ok ((c0, repeat_char "0" (S d)) :: rest).
Proof.
  intros Hdata.
  destruct (decide (length (Counter (chars data)) = 1%nat)) as [Hone|Hone].
  - unfold _build_huffman_tree. apply Nat.eqb_eq in Hone as ->.
    destruct data as [|a data]; [done|]. simpl. by exists (String a ""), 0%nat, [].
  - destruct (_build_huffman_tree_root (fun n => full n = true) data)
      as (l & r & Hl & Hr & ->); [| |done..|].
    + intros c n Hin. simpl.
      rewrite (chars_truthy data c); [done|].
      apply Counter_keys, list_elem_of_fmap. by exists (c, n).
    + intros l r Hl Hr. simpl. by rewrite Hl, Hr.
    + cbn [paths truthy]. destruct (paths_first l Hl ("" +:+ "0")) as (c0 & k & rest & -> & _).
      exists c0, k, (rest ++ paths r ("" +:+ "1")). done.
Qed.

(** ** What the padding decodes to *)

Lemma repeat_char_app (c : ascii) (a b : nat) :
  repeat_char c (a + b) = repeat_char c a +:+ repeat_char c b.
Proof. induction a as [|a IH]; simpl; [done|]. by rewrite IH. Qed.

Section PaddingDecoding.
Context (codes : dict string).
Context (Hkeys : NoDup codes.*1).
Context (Hpf : pairwise_prefix_free codes.*2).
Context (Hne : Forall (fun p => p ≠ "") codes.*2).

(** Bits that stop inside a code are dropped. *)
Lemma decode_loop_proper_prefix (c code s rest : string) (result : list string) :
  dict_get codes c = Some code → rest ≠ "" →
  ∀ buf, code = buf +:+ s +:+ rest →
    decode_loop (reverse_mapping codes) (chars s) buf result = result.
Proof.
  intros Hc Hrest. induction s as [|b s IH]; intros buf Hcode; [done|].
  cbn [chars decode_loop].
  rewrite (proper_prefix_not_code codes Hkeys Hpf c code _ (s +:+ rest)).
  - apply IH. by rewrite string_app_assoc.
  - done.
  - by rewrite string_app_assoc.
  - destruct s; [done|]. discriminate.
Qed.

(** Under a table with a code of [S d] zeros, [n] zeros decode to the
    symbol of that code, once for every [S d] bits. *)
Lemma padding_symbols_zero_code (c0 : string) (d n : nat) :
  dict_get codes c0 = Some (repeat_char "0" (S d)) →
  padding_symbols codes n = replicate (n / S d) c0.
Proof.
  intros Hc0. unfold padding_symbols.
  induction (lt_wf n) as [n _ IH].
  destruct (decide (n < S d)%nat) as [Hlt|Hge].
  - rewrite Nat.div_small by done.
    apply (decode_loop_proper_prefix c0 (repeat_char "0" (S d)) _
             (repeat_char "0" (S d - n))); [done| |].
    + destruct (S d - n)%nat eqn:E; [lia|discriminate].
    + rewrite <- repeat_char_app. by replace (n + (S d - n))%nat with (S d) by lia.
  - replace n with (S d + (n - S d))%nat at 1 by lia.
    rewrite repeat_char_app, chars_app.
    rewrite (decode_loop_code codes Hkeys Hpf c0 (repeat_char "0" (S d)));
      [|done|done|discriminate].
    rewrite decode_loop_result, IH by lia.
    replace n with (1 * S d + (n - S d))%nat at 2 by lia.
    rewrite Nat.div_add_l by lia. done.
Qed.
End PaddingDecoding.

(** ** Every bit string leads to a leaf *)

(** Below a node with two full subtrees, a bit string either begins with
    the code of a leaf or stops inside one. *)
Lemma paths_cover (node : HuffmanNode) :
  full node = true →
  ∀ buf s, all_chars is_bit s = true →
    (∃ c t s', (c, buf +:+ t) ∈ paths node buf ∧ s = t +:+ s')
    ∨ (∃ c t, (c, buf +:+ s +:+ t) ∈ paths node buf ∧ t ≠ "").
Proof.
  induction node as [c f l r IHl IHr] using HuffmanNode_nested_ind.
  intros Hfull buf s Hbits. cbn [full paths] in *. destruct (truthy c) eqn:Hc.
  { left. exists c, "", s. rewrite string_app_nil_r. split; [apply list_elem_of_here|done]. }
  destruct l as [a|]; [|done]. destruct r as [b|]; [|done].
  simpl in Hfull. apply andb_true_iff in Hfull as [Ha Hb].
  destruct s as [|bit s].
  - right. destruct (paths_first a Ha (buf +:+ "0")) as (c0 & k & rest & Hpaths & _).
    exists c0, (String "0" (repeat_char "0" k)). split; [|done].
    rewrite Hpaths. simpl. rewrite string_app_assoc. apply list_elem_of_here.
  - simpl in Hbits. apply andb_true_iff in Hbits as [Hbit Hbits].
    unfold is_bit in Hbit. apply orb_true_iff in Hbit as [H0|H1].
    + apply Ascii.eqb_eq in H0 as ->.
      destruct (IHl a eq_refl Ha (buf +:+ "0") s Hbits)
        as [(c0 & t & s' & Hin & ->)|(c0 & t & Hin & Ht)].
      * left. exists c0, (String "0" t), s'. split; [|done].
        apply elem_of_app. left. by rewrite string_app_assoc in Hin.
      * right. exists c0, t. split; [|done].
        apply elem_of_app. left. by rewrite !string_app_assoc in Hin.
    + apply Ascii.eqb_eq in H1 as ->.
      destruct (IHr b eq_refl Hb (buf +:+ "1") s Hbits)
        as [(c0 & t & s' & Hin & ->)|(c0 & t & Hin & Ht)].
      * left. exists c0, (String "1" t), s'. split; [|done].
        apply elem_of_app. right. by rewrite string_app_assoc in Hin.
      * right. exists c0, t. split; [|done].
        apply elem_of_app. right. by rewrite !string_app_assoc in Hin.
Qed.

Lemma Counter_two (data a b : string) :
  a ∈ chars data → b ∈ chars data → a ≠ b →
  (2 ≤ length (Counter (chars data)))%nat.
Proof.
  intros Ha Hb Hab. pose proof (Counter_NoDup (chars data)) as Hnd.
  apply Counter_keys in Ha, Hb. rewrite <- (length_fmap fst).
  destruct ((Counter (chars data)).*1) as [|x [|y l]]; simpl; [|exfalso|lia].
  - by apply elem_of_nil in Ha.
  - apply list_elem_of_singleton in Ha, Hb. congruence.
Qed.

Section Complete.
Context (codes : dict string).
Context (Hkeys : NoDup codes.*1).
Context (Hpf : pairwise_prefix_free codes.*2).
Context (Hcover : ∀ s, all_chars is_bit s = true →
  (∃ c t s', dict_get codes c = Some t ∧ t ≠ "" ∧ s = t +:+ s')
  ∨ (∃ c t, dict_get codes c = Some (s +:+ t) ∧ t ≠ "")).

(** Under a table that covers the bit strings, the loop decodes every bit
    string but for a tail that stops inside a code. *)
Lemma decode_loop_complete (s : string) :
  all_chars is_bit s = true →
  ∃ symbols ps rest,
    decode_loop (reverse_mapping codes) (chars s) "" [] = symbols
    ∧ Forall2 (fun c p => dict_get codes c = Some p) symbols ps
    ∧ s = join ps +:+ rest
    ∧ ∃ c t, dict_get codes c = Some (rest +:+ t) ∧ t ≠ "".
Proof.
  remember (String.length s) as n eqn:Hn. revert s Hn.
  induction (lt_wf n) as [n _ IH]. intros s -> Hbits.
  destruct (Hcover s Hbits) as [(c & t & s' & Hc & Ht & ->)|(c & t & Hc & Ht)].
  - rewrite all_chars_app in Hbits. apply andb_true_iff in Hbits as [_ Hbits'].
    destruct (IH (String.length s')) with (s := s')
      as (symbols & ps & rest & Hdec & Hall & Hs' & Hrest); [|done..|].
    { rewrite string_app_length. destruct t; [done|]. simpl. lia. }
    exists (c :: symbols), (t :: ps), rest. split_and!; [| |..|done].
    + rewrite chars_app.
      rewrite (decode_loop_code codes Hkeys Hpf c t); [|done|done|done].
      by rewrite decode_loop_result, Hdec.
    + by constructor.
    + rewrite join_cons, string_app_assoc. by rewrite <- Hs'.
  - exists [], [], s. split_and!; [|constructor|done|eauto].
    by apply (decode_loop_proper_prefix codes Hkeys Hpf c (s +:+ t) s t).
Qed.
End Complete.

(** ** One call of [shorten_url], by cases *)

Lemma dict_get_app_Some {V} (d l : dict V) (k : string) (v : V) :
  dict_get d k = Some v → dict_get (d ++ l) k = Some v.
Proof.
  induction d as [|[k' v'] d IH]; simpl; [done|].
  destruct (String.eqb k' k); auto.
Qed.

Lemma find_app_Some {A} (p : A → bool) (l l' : list A) (x : A) :
  find p l = Some x → find p (l ++ l') = Some x.
Proof.
  induction l as [|a l IH]; simpl; [done|]. destruct (p a); auto.
Qed.

Lemma find_app_None {A} (p : A → bool) (l l' : list A) :
  find p l = None → find p (l ++ l') = find p l'.
Proof.
  induction l as [|a l IH]; simpl; [done|]. destruct (p a); [done|auto].
Qed.

Lemma find_None_Forall {A} (p : A → bool) (l : list A) :
  find p l = None ↔ Forall (fun x => p x = false) l.
Proof.
  induction l as [|a l IH]; simpl.
  - split; [constructor|done].
  - rewrite Forall_cons. destruct (p a); [|rewrite IH]; split; try done.
    + by intros [? _].
    + by intros [_ ?].
Qed.

(** A call of [shorten_url] in [URL.py] on a consistent store returns the
    stored pair and changes nothing, or raises in the generator and
    changes nothing, or appends one entry to each mapping. *)
Lemma URL_shorten_url_cases self rnd long_url r self' :
  URL_consistent self →
  URL.shorten_url self rnd long_url = (r, self') →
  (∃ short_code data,
     dict_get (URL.url_to_code self) long_url = Some short_code
     ∧ dict_get (URL.compressed_data self) short_code = Some data
     ∧ r = Ok (short_code, URL.compressed data) ∧ self' = self)
  ∨ (∃ e, dict_get (URL.url_to_code self) long_url = None
       ∧ URL._generate_short_code self rnd long_url = Raise e
       ∧ r = Raise e ∧ self' = self)
  ∨ (∃ short_code compressed_str huffman_codes,
       dict_get (URL.url_to_code self) long_url = None
       ∧ URL._generate_short_code self rnd long_url = Ok short_code
       ∧ _compress short_code = Ok (compressed_str, huffman_codes)
       ∧ r = Ok (short_code, compressed_str)
       ∧ URL.url_to_code self' = URL.url_to_code self ++ [(long_url, short_code)]
       ∧ URL.code_to_url self' = URL.code_to_url self ++ [(short_code, long_url)]
       ∧ URL.compressed_data self'
         = URL.compressed_data self
           ++ [(short_code,
                {| URL.compressed := compressed_str;
                   URL.huffman_codes := huffman_codes;
                   URL.original_url := long_url |})]
       ∧ URL.max_collision_attempts self' = URL.max_collision_attempts self).
Proof.
  intros Hcons Hs.
  destruct (dict_get (URL.url_to_code self) long_url) as [sc0|] eqn:Hu.
  { rewrite (URL_shorten_url_known _ _ _ _ Hu) in Hs.
    destruct (consistent_record _ Hcons _ _ Hu) as [data Hd].
    rewrite (dict_item_Some _ _ _ Hd), bind_Ok in Hs. injection Hs as <- <-.
    left. by exists sc0, data. }
  right.
  apply (URL_shorten_url_new _ _ _ _ _ Hu) in Hs as [(e & -> & -> & Hgen)|Hs].
  { left. by exists e. }
  destruct Hs as (sc & c & codes & -> & Hgen & Hnew & Hc & ->).
  right. exists sc, c, codes. simpl.
  assert (dict_get (URL.compressed_data self) sc = None) as Hfresh.
  { destruct (dict_get (URL.compressed_data self) sc) as [data|] eqn:Hd; [|done].
    apply dict_get_Some_elem, (consistent_data _ Hcons) in Hd as [Hd _]. congruence. }
  rewrite !dict_set_new by (by apply dict_get_None). done.
Qed.

(** The same for [_URL.py], on any store: a call for a stored URL raises
    [KeyError]; the record goes under the compressed code, where it may
    replace another. *)
Lemma _URL_shorten_url_cases fuel self rnd letters long_url r self' :
  _URL.shorten_url fuel self rnd letters long_url = Some (r, self') →
  (∃ short_code,
     dict_get (_URL.url_to_code self) long_url = Some short_code
     ∧ r = Raise KeyError ∧ self' = self)
  ∨ (∃ e i, dict_get (_URL.url_to_code self) long_url = None
       ∧ _URL._generate_short_code self rnd 0 long_url = (Raise e, i)
       ∧ r = Raise e ∧ self' = self)
  ∨ (∃ short_code i compressed_str huffman_codes,
       dict_get (_URL.url_to_code self) long_url = None
       ∧ _URL._generate_short_code self rnd 0 long_url = (Ok short_code, i)
       ∧ _compress short_code = Ok (compressed_str, huffman_codes)
       ∧ r = Ok (short_code, compressed_str)
       ∧ _URL.url_to_code self' = _URL.url_to_code self ++ [(long_url, short_code)]
       ∧ _URL.code_to_url self' = _URL.code_to_url self ++ [(short_code, long_url)]
       ∧ _URL.compressed_data self'
         = dict_set (_URL.compressed_data self) compressed_str
             {| _URL.huffman_codes := huffman_codes; _URL.original_url := long_url |}
       ∧ _URL.max_collision_attempts self' = _URL.max_collision_attempts self).
Proof.
  intros Hs.
  destruct (dict_get (_URL.url_to_code self) long_url) as [sc0|] eqn:Hu.
  { rewrite (_URL_shorten_url_known _ _ _ _ _ _ Hu) in Hs. injection Hs as <- <-.
    left. by exists sc0. }
  right. destruct fuel as [|fuel].
  { revert Hs. unfold _URL.shorten_url, dict_in. rewrite Hu.
    destruct (_URL._generate_short_code self rnd 0 long_url) as [[short_code|e'] i];
      [done|]. intros [= <- <-]. left. by exists e', i. }
  destruct (_URL_shorten_url_new fuel self rnd letters long_url Hu)
    as [(e & i & Hgen & He)|(sc & i & c & codes & Hgen & Hnew & _ & Hc & Hok)].
  { rewrite He in Hs. injection Hs as <- <-. left. by exists e, i. }
  rewrite Hok in Hs. injection Hs as <- <-.
  right. exists sc, i, c, codes. simpl.
  rewrite !dict_set_new by (by apply dict_get_None). done.
Qed.

(** ** The characters of the codes *)

Lemma urlsafe_b64char_safe (v : Z) :
  0 ≤ v < 64 → is_urlsafe (urlsafe_encode_char (b64char v)) = true.
Proof.
  intros Hv.
  assert (v ∈ Z.of_nat <$> seq 0 64) as Hin.
  { apply list_elem_of_fmap. exists (Z.to_nat v). split; [lia|].
    apply elem_of_seq. lia. }
  revert Hin. generalize v. apply Forall_forall.
  let l := eval vm_compute in (Z.of_nat <$> seq 0 64) in
  change (Z.of_nat <$> seq 0 64) with l.
  repeat (constructor; [by vm_compute|]). constructor.
Qed.

Lemma all_chars_impl (p q : ascii → bool) (s : string) :
  (∀ c, p c = true → q c = true) → all_chars p s = true → all_chars q s = true.
Proof.
  intros Hpq. induction s as [|c s IH]; simpl; [done|].
  intros [Hc Hs]%andb_true_iff. by rewrite (Hpq _ Hc), IH.
Qed.

Lemma is_lowercase_urlsafe (c : ascii) : is_lowercase c = true → is_urlsafe c = true.
Proof. intros Hc. unfold is_urlsafe, is_letter. by rewrite Hc. Qed.

(** The encoding has four characters for every three bytes begun, all of
    the URL-safe alphabet or the pad. *)
Lemma urlsafe_b64encode_shape (bs : list Z) :
  Forall (fun b => 0 ≤ b < 256) bs →
  all_chars is_urlsafe_or_pad (urlsafe_b64encode bs) = true
  ∧ String.length (urlsafe_b64encode bs) = (4 * ((length bs + 2) / 3))%nat.
Proof.
  unfold urlsafe_b64encode.
  assert (∀ n bs, (length bs ≤ n)%nat →
            Forall (fun b => 0 ≤ b < 256) bs →
            all_chars is_urlsafe_or_pad (urlsafe_encode_translate (b64encode bs)) = true
            ∧ String.length (urlsafe_encode_translate (b64encode bs))
              = (4 * ((length bs + 2) / 3))%nat) as Hn; [|by apply (Hn (length bs))].
  clear. induction n as [|n IH]; intros bs Hlen Hbs.
  { destruct bs; [|simpl in Hlen; lia]. done. }
  destruct bs as [|a [|b [|c rest]]].
  - done.
  - apply Forall_cons in Hbs as [Ha _].
    cbn [b64encode urlsafe_encode_translate all_chars]. unfold is_urlsafe_or_pad.
    rewrite !urlsafe_b64char_safe by div_lia. done.
  - apply Forall_cons in Hbs as [Ha [Hb _]%Forall_cons].
    cbn [b64encode urlsafe_encode_translate all_chars]. unfold is_urlsafe_or_pad.
    rewrite !urlsafe_b64char_safe by div_lia. done.
  - apply Forall_cons in Hbs as [Ha [Hb [Hc Hrest]%Forall_cons]%Forall_cons].
    destruct (IH rest) as [IHa IHl]; [simpl in Hlen; lia|done|].
    cbn [b64encode urlsafe_encode_translate all_chars String.length length].
    unfold is_urlsafe_or_pad at 1 2 3 4.
    rewrite !urlsafe_b64char_safe by div_lia. rewrite IHa, IHl. split; [done|].
    replace (S (S (S (length rest))) + 2)%nat with (length rest + 2 + 1 * 3)%nat by lia.
    rewrite Nat.div_add by lia. lia.
Qed.

(** The candidate: eight URL-safe characters, then the random letters. *)
Lemma short_code_candidate_shape (url suffix : string) :
  ∃ p,
    short_code_candidate (hex (sha256 (encode url))) suffix = Ok (p +:+ suffix)
    ∧ String.length p = 8%nat
    ∧ all_chars is_urlsafe p = true.
Proof.
  unfold short_code_candidate.
  destruct (sha256_digest (encode url)) as [Hlen Hrange].
  change 16%nat with (2 * 8)%nat. rewrite substring_hex.
  rewrite fromhex_hex by (by apply Forall_take).
  rewrite bind_Ok. eexists. split; [done|].
  destruct (sha256 (encode url))
    as [|b1 [|b2 [|b3 [|b4 [|b5 [|b6 [|b7 [|b8 bs]]]]]]]]; try done.
  repeat (apply Forall_cons in Hrange as [? Hrange]).
  cbn [take b64encode urlsafe_b64encode urlsafe_encode_translate].
  repeat (rewrite rstrip_keep; [|apply urlsafe_b64char_not_pad; div_lia]).
  cbn [substring String.length all_chars].
  rewrite !urlsafe_b64char_safe by div_lia.
  by destruct (rstrip _ _).
Qed.

Lemma generate_short_code_shape n code_to_url rnd i url short_code j :
  (∀ i, lowercase4 (rnd i) = true) →
  generate_short_code n code_to_url rnd i url = (Ok short_code, j) →
  String.length short_code = 12%nat ∧ all_chars is_urlsafe short_code = true.
Proof.
  intros Hrnd. unfold generate_short_code.
  intros [_ (k & _ & Hcand)]%generate_loop_Ok.
  destruct (short_code_candidate_shape url (rnd k)) as (p & Hp & Hlen & Hsafe).
  rewrite Hp in Hcand. injection Hcand as <-.
  specialize (Hrnd k). unfold lowercase4 in Hrnd.
  apply andb_true_iff in Hrnd as [Hl Hlow]. apply Nat.eqb_eq in Hl.
  rewrite string_app_length, all_chars_app, Hlen, Hl, Hsafe. split; [done|].
  apply (all_chars_impl is_lowercase); [apply is_lowercase_urlsafe | done].
Qed.

Lemma dict_get_app {V} (d l : dict V) (k : string) :
  dict_get (d ++ l) k
  = match dict_get d k with
    | Some v => Some v
    | None => dict_get l k
    end.
Proof.
  induction d as [|[k' v'] d IH]; simpl; [done|].
  destruct (String.eqb k' k); auto.
Qed.

Lemma URL_reachable_shape self short_code url :
  URL.reachable self →
  dict_get (URL.code_to_url self) short_code = Some url →
  String.length short_code = 12%nat ∧ all_chars is_urlsafe short_code = true.
Proof.
  intros Hr. revert short_code url.
  induction Hr as [|self rnd long_url r self' Hr IH Hrnd Hs|self q r self' _ IH He];
    intros short_code url.
  - done.
  - apply URL_shorten_url_cases in Hs; [|by apply URL_reachable_consistent].
    destruct Hs as [(? & ? & _ & _ & _ & ->)|[(? & _ & _ & _ & ->)|Hs]]; [apply IH..|].
    destruct Hs as (sc & c & codes & _ & Hgen & _ & _ & _ & -> & _).
    rewrite dict_get_app.
    destruct (dict_get (URL.code_to_url self) short_code) eqn:Hold; [intros _; by eapply IH|].
    simpl. destruct (String.eqb_spec sc short_code) as [<-|]; [|done]. intros _.
    unfold URL._generate_short_code in Hgen.
    destruct (generate_short_code _ _ _ _ _) as [r0 j] eqn:Hg. simpl in Hgen. subst r0.
    by eapply generate_short_code_shape.
  - unfold URL.expand_url in He. injection He as _ <-. apply IH.
Qed.

Lemma _URL_reachable_shape self short_code url :
  _URL.reachable self →
  dict_get (_URL.code_to_url self) short_code = Some url →
  String.length short_code = 12%nat ∧ all_chars is_urlsafe short_code = true.
Proof.
  intros Hr. revert short_code url.
  induction Hr as [|fuel self rnd letters long_url r self' Hr IH Hrnd _ Hs
                  |self q r self' _ IH He]; intros short_code url.
  - done.
  - apply _URL_shorten_url_cases in Hs.
    destruct Hs as [(? & _ & _ & ->)|[(? & ? & _ & _ & _ & ->)|Hs]]; [apply IH..|].
    destruct Hs as (sc & i & c & codes & _ & Hgen & _ & _ & _ & -> & _).
    rewrite dict_get_app.
    destruct (dict_get (_URL.code_to_url self) short_code) eqn:Hold; [intros _; by eapply IH|].
    simpl. destruct (String.eqb_spec sc short_code) as [<-|]; [|done]. intros _.
    by eapply generate_short_code_shape.
  - rewrite _URL_expand_url_spec in He. injection He as _ <-. apply IH.
Qed.

(** The eight characters of a candidate are the base64 encoding of the
    first six bytes of the digest. *)
Lemma short_code_candidate_digest (url suffix : string) :
  short_code_candidate (hex (sha256 (encode url))) suffix
  = Ok (urlsafe_b64encode (take 6 (sha256 (encode url))) +:+ suffix).
Proof.
  unfold short_code_candidate.
  destruct (sha256_digest (encode url)) as [Hlen Hrange].
  change 16%nat with (2 * 8)%nat. rewrite substring_hex.
  rewrite fromhex_hex by (by apply Forall_take).
  rewrite bind_Ok. do 2 f_equal.
  destruct (sha256 (encode url))
    as [|b1 [|b2 [|b3 [|b4 [|b5 [|b6 [|b7 [|b8 bs]]]]]]]]; try done.
  repeat (apply Forall_cons in Hrange as [? Hrange]).
  cbn [take b64encode urlsafe_b64encode urlsafe_encode_translate].
  repeat (rewrite rstrip_keep; [|apply urlsafe_b64char_not_pad; div_lia]).
  cbn [substring]. by destruct (rstrip _ _).
Qed.

(** The generator returns the candidate of the first draw that is not
    taken. *)
Lemma generate_loop_first attempts code_to_url hash_hex rnd i short_code j :
  generate_loop attempts code_to_url hash_hex rnd i = (Ok short_code, j) →
  ∃ k, (i ≤ k < i + attempts)%nat ∧ j = S k
    ∧ short_code_candidate hash_hex (rnd k) = Ok short_code
    ∧ dict_in short_code code_to_url = false
    ∧ ∀ k', (i ≤ k' < k)%nat →
        ∃ sc, short_code_candidate hash_hex (rnd k') = Ok sc
          ∧ dict_in sc code_to_url = true.
Proof.
  revert i. induction attempts as [|n IH]; intros i; simpl; [done|].
  destruct (short_code_candidate hash_hex (rnd i)) as [sc|e] eqn:Hc; [|done].
  destruct (dict_in sc code_to_url) eqn:Hin.
  - intros (k & Hk & -> & Hcand & Hnew & Hbefore)%IH.
    exists k. split; [lia|]. split_and!; [done..|].
    intros k' Hk'. destruct (decide (k' = i)) as [->|]; [eauto|]. apply Hbefore. lia.
  - intros [= <- <-]. exists i. split; [lia|]. split_and!; [done..|]. intros k' Hk'. lia.
Qed.

(** ** The generator, when it raises *)

Lemma generate_loop_Raise attempts code_to_url hash_hex rnd i e j :
  (∀ k, ∃ sc, short_code_candidate hash_hex (rnd k) = Ok sc) →
  generate_loop attempts code_to_url hash_hex rnd i = (Raise e, j) →
  e = ValueError
  ∧ ∀ k, (i ≤ k < i + attempts)%nat →
      ∃ sc, short_code_candidate hash_hex (rnd k) = Ok sc
        ∧ dict_in sc code_to_url = true.
Proof.
  intros Hcand. revert i. induction attempts as [|n IH]; intros i; simpl.
  { intros [= <- <-]. split; [done|]. lia. }
  destruct (Hcand i) as [sc Hsc]. rewrite Hsc.
  destruct (dict_in sc code_to_url) eqn:Hin; [|done].
  intros [-> Hall]%IH. split; [done|].
  intros k Hk. destruct (decide (k = i)) as [->|]; [eauto|]. apply Hall. lia.
Qed.

Lemma generate_short_code_Raise n code_to_url rnd url e j :
  generate_short_code n code_to_url rnd 0 url = (Raise e, j) →
  e = ValueError ∧ all_taken n code_to_url rnd url.
Proof.
  unfold generate_short_code, all_taken. intros Hg.
  apply generate_loop_Raise in Hg as [-> Hall].
  - split; [done|]. intros k Hk. apply Hall. lia.
  - intros k. destruct (short_code_candidate_spec url (rnd k)) as [p [Hp _]]. eauto.
Qed.

Lemma generate_short_code_exhausted n code_to_url rnd url :
  all_taken n code_to_url rnd url →
  generate_short_code n code_to_url rnd 0 url = (Raise ValueError, n).
Proof.
  intros Hall. unfold generate_short_code.
  rewrite generate_loop_exhausted; [done|]. intros k Hk. apply Hall. lia.
Qed.

Lemma mapM_dict_item_Forall2 (codes : dict string) (l ps : list string) :
  Forall2 (fun c p => dict_get codes c = Some p) l ps →
  mapM (dict_item codes) l = Ok ps.
Proof.
  induction 1 as [|c p cs ps Hc _ IH]; [done|].
  simpl. by rewrite (dict_item_Some _ _ _ Hc), bind_Ok, IH.
Qed.

(** ** The example stores of [_URL.py] *)

Lemma _store_xxyy_reachable : _URL.reachable _store_xxyy.
Proof.
  eapply (_URL.reachable_shorten 1 _URL.__init__ (fun _ => "xxyy") (fun _ => "a")
            first_url (Ok ("mWPJSCMsxxyy", "VObIj_Y="))).
  - constructor.
  - reflexivity.
  - reflexivity.
  - vm_compute. reflexivity.
Qed.

(** ** What the decoder skips *)

Lemma encode_app (s t : string) : encode (s +:+ t) = encode s ++ encode t.
Proof.
  induction s as [|c s IH]; simpl; [done|].
  destruct (ord c <? 128); simpl; by rewrite IH.
Qed.

Lemma a2b_base64_loop_skip (junk s : list Z) quad_pos leftchar pads bin_data :
  Forall (fun b => b64_skipped_byte b = true) junk →
  a2b_base64_loop (map urlsafe_decode_translate (junk ++ s)) quad_pos leftchar pads bin_data
  = a2b_base64_loop (map urlsafe_decode_translate s) quad_pos leftchar pads bin_data.
Proof.
  induction 1 as [|b junk Hb _ IH]; [done|].
  cbn [app map a2b_base64_loop].
  unfold b64_skipped_byte in Hb. apply andb_true_iff in Hb as [Hpad Hdigit].
  assert ((urlsafe_decode_translate b =? 61) = false) as ->.
  { unfold urlsafe_decode_translate.
    destruct (b =? 45) eqn:E1; [done|]. destruct (b =? 95) eqn:E2; [done|].
    by apply negb_true_iff. }
  by destruct (table_a2b_base64 (urlsafe_decode_translate b)).
Qed.

Lemma a2b_base64_loop_skip_middle (s1 junk s2 : list Z) quad_pos leftchar pads bin_data :
  Forall (fun b => b64_skipped_byte b = true) junk →
  a2b_base64_loop (map urlsafe_decode_translate (s1 ++ junk ++ s2))
    quad_pos leftchar pads bin_data
  = a2b_base64_loop (map urlsafe_decode_translate (s1 ++ s2))
      quad_pos leftchar pads bin_data.
Proof.
  intros Hjunk. revert quad_pos leftchar pads bin_data.
  induction s1 as [|b s1 IH]; intros quad_pos leftchar pads bin_data.
  - rewrite !app_nil_l. by apply a2b_base64_loop_skip.
  - cbn [app map a2b_base64_loop].
    destruct (urlsafe_decode_translate b =? 61).
    + destruct (2 <=? quad_pos)%nat; [|apply IH].
      destruct (4 <=? quad_pos + (pads + 1))%nat; [done|apply IH].
    + destruct (table_a2b_base64 (urlsafe_decode_translate b)); [|apply IH].
      destruct quad_pos as [|[|[|?]]]; apply IH.
Qed.

Lemma encode_skipped (junk : string) :
  all_chars b64_skipped junk = true →
  Forall (fun b => b64_skipped_byte b = true) (encode junk).
Proof.
  induction junk as [|c junk IH]; simpl; [constructor|].
  intros [Hc Hjunk]%andb_true_iff.
  destruct (ord c <? 128) eqn:Hascii.
  - constructor; [done|auto].
  - apply Z.ltb_ge in Hascii.
    assert (0 ≤ ord c < 256) as Hrange.
    { unfold ord. pose proof (N_ascii_bounded c). lia. }
    assert (∀ b, 128 ≤ b < 256 → b64_skipped_byte b = true) as Hhigh.
    { intros b Hb. unfold b64_skipped_byte, urlsafe_decode_translate, table_a2b_base64.
      repeat match goal with
             | |- context [?x =? ?y] => destruct (Z.eqb_spec x y); [lia|]
             | |- context [?x <=? ?y] =>
                 destruct (Z.leb_spec x y); try lia; cbn [andb negb]
             end. }
    constructor; [apply Hhigh; div_lia|].
    constructor; [apply Hhigh; div_lia|auto].
Qed.

Lemma _decompress_skip (s1 junk s2 : string) (huffman_codes : dict string) :
  all_chars b64_skipped junk = true →
  _decompress (s1 +:+ junk +:+ s2) huffman_codes = _decompress (s1 +:+ s2) huffman_codes.
Proof.
  intros Hjunk. unfold _decompress, urlsafe_b64decode, a2b_base64.
  rewrite !encode_app.
  by rewrite a2b_base64_loop_skip_middle by (by apply encode_skipped).
Qed.

(** ** The symbols of a decoded text *)

Lemma reverse_mapping_elem (huffman_codes : dict string) (code c : string) :
  dict_get (reverse_mapping huffman_codes) code = Some c → (c, code) ∈ huffman_codes.
Proof.
  unfold reverse_mapping.
  assert (∀ d, dict_get (fold_left (fun d '(c, code) => dict_set d code c) huffman_codes d)
                 code = Some c →
               (c, code) ∈ huffman_codes ∨ dict_get d code = Some c) as Hgen.
  { induction huffman_codes as [|[c' code'] l IH]; intros d; simpl; [by right|].
    intros [Hin|Hd]%IH.
    - left. by apply list_elem_of_further.
    - rewrite dict_get_set in Hd.
      destruct (String.eqb_spec code' code) as [->|]; [|by right].
      injection Hd as ->. left. apply list_elem_of_here. }
  intros [?|?]%Hgen; done.
Qed.

Lemma decode_loop_symbols_of (huffman_codes : dict string) (binary : list string)
    (current_code : string) (result : list string) :
  Forall (fun c => c ∈ huffman_codes.*1) result →
  let out := decode_loop (reverse_mapping huffman_codes) binary current_code result in
  Forall (fun c => c ∈ huffman_codes.*1) out
  ∧ (length out ≤ length result + length binary)%nat.
Proof.
  revert current_code result.
  induction binary as [|bit binary IH]; intros current_code result Hres; simpl.
  - split; [done|lia].
  - destruct (dict_get (reverse_mapping huffman_codes) (current_code +:+ bit)) as [c|] eqn:Hc.
    + destruct (IH "" (result ++ [c])) as [Hall Hlen].
      * apply Forall_app. split; [done|]. apply Forall_singleton.
        apply reverse_mapping_elem in Hc. apply list_elem_of_fmap. by exists (c, current_code +:+ bit).
      * split; [done|]. rewrite length_app in Hlen. simpl in Hlen. lia.
    + destruct (IH (current_code +:+ bit) result Hres) as [Hall Hlen]. split; [done|lia].
Qed.

Lemma chars_length (s : string) : length (chars s) = String.length s.
Proof. induction s; simpl; congruence. Qed.

Lemma zfill_length (s : string) (width : nat) :
  (String.length s ≤ width)%nat → String.length (zfill s width) = width.
Proof.
  intros Hle. unfold zfill. rewrite string_app_length, repeat_char_length. lia.
Qed.

(** ** The bits of a decoded text *)

Lemma table_a2b_base64_range (b v : Z) : table_a2b_base64 b = Some v → 0 ≤ v < 64.
Proof.
  unfold table_a2b_base64.
  repeat match goal with
         | |- context [?x =? ?y] => destruct (Z.eqb_spec x y)
         | |- context [?x <=? ?y] => destruct (Z.leb_spec x y); cbn [andb]
         end; intros [= <-]; lia.
Qed.

(** The decoder returns bytes. *)
Lemma a2b_base64_loop_range (s : list Z) quad_pos leftchar pads bin_data bs :
  (quad_pos ≤ 3)%nat → 0 ≤ leftchar < 64 →
  (quad_pos = 2%nat → leftchar < 16) → (quad_pos = 3%nat → leftchar < 4) →
  Forall (fun b => 0 ≤ b < 256) bin_data →
  a2b_base64_loop s quad_pos leftchar pads bin_data = Ok bs →
  Forall (fun b => 0 ≤ b < 256) bs.
Proof.
  revert quad_pos leftchar pads bin_data.
  induction s as [|this_ch s IH]; intros quad_pos leftchar pads bin_data Hq Hl H2 H3 Hbin;
    cbn [a2b_base64_loop].
  - destruct (quad_pos =? 0)%nat; [|done]. by intros [= <-].
  - destruct (this_ch =? 61).
    { destruct (2 <=? quad_pos)%nat; [|by apply IH].
      destruct (4 <=? quad_pos + (pads + 1))%nat; [by intros [= <-]|by apply IH]. }
    destruct (table_a2b_base64 this_ch) as [v|] eqn:Hv; [|by apply IH].
    apply table_a2b_base64_range in Hv.
    assert (∀ x, 0 ≤ x < 256 → Forall (fun b => 0 ≤ b < 256) (bin_data ++ [x])) as Hsnoc.
    { intros x Hx. apply Forall_app. split; [done|]. by apply Forall_singleton. }
    destruct quad_pos as [|[|[|n]]].
    + apply IH; try done; lia.
    + apply IH; [lia|div_lia|intros _; div_lia|done|apply Hsnoc; div_lia].
    + specialize (H2 eq_refl). apply IH; [lia|div_lia|done|intros _; div_lia|].
      apply Hsnoc. div_lia.
    + assert (n = 0%nat) as -> by lia. specialize (H3 eq_refl).
      apply IH; [lia|lia|done|done|]. apply Hsnoc. lia.
Qed.

Lemma urlsafe_b64decode_range (s bs : list Z) :
  urlsafe_b64decode s = Ok bs → Forall (fun b => 0 ≤ b < 256) bs.
Proof.
  unfold urlsafe_b64decode, a2b_base64. apply a2b_base64_loop_range; try done; lia.
Qed.

Lemma from_bytes_range (bs : list Z) :
  Forall (fun b => 0 ≤ b < 256) bs → 0 ≤ from_bytes bs < 256 ^ Z.of_nat (length bs).
Proof.
  unfold from_bytes. intros Hbs.
  assert (∀ acc, 0 ≤ acc →
            acc * 256 ^ Z.of_nat (length bs)
            ≤ fold_left (fun acc b => acc * 256 + b) bs acc
            < (acc + 1) * 256 ^ Z.of_nat (length bs)) as Hgen; [|specialize (Hgen 0); lia].
  induction Hbs as [|b bs Hb _ IH]; intros acc Hacc; cbn [length fold_left].
  - simpl. lia.
  - rewrite Nat2Z.inj_succ, Z.pow_succ_r by lia.
    specialize (IH (acc * 256 + b) ltac:(lia)).
    assert (0 < 256 ^ Z.of_nat (length bs)) by (apply Z.pow_pos_nonneg; lia). nia.
Qed.

Lemma pos_bin_size (p : positive) : String.length (pos_bin p) = Pos.size_nat p.
Proof.
  induction p as [p IH|p IH|]; simpl; [| |done];
    rewrite string_app_length, IH; simpl; lia.
Qed.

Lemma bin_digits_length (n : Z) (k : nat) :
  0 ≤ n < 2 ^ Z.of_nat k → (1 ≤ k)%nat → (String.length (bin_digits n) ≤ k)%nat.
Proof.
  intros Hn Hk. destruct n as [|p|p]; simpl; [lia| |lia].
  rewrite pos_bin_size.
  destruct (decide (Pos.size_nat p ≤ k)%nat) as [|Hgt]; [done|exfalso].
  assert (2 ^ Z.of_nat k ≤ Z.pos p); [|lia].
  revert k Hn Hk Hgt. induction p as [p IH|p IH|]; intros k Hn Hk Hgt; simpl in Hgt.
  - destruct (decide (k = 1%nat)) as [->|]; [simpl; lia|].
    specialize (IH (k - 1)%nat).
    replace (Z.of_nat k) with (Z.succ (Z.of_nat (k - 1))) in * by lia.
    rewrite Z.pow_succ_r in * by lia. lia.
  - destruct (decide (k = 1%nat)) as [->|]; [simpl; lia|].
    specialize (IH (k - 1)%nat).
    replace (Z.of_nat k) with (Z.succ (Z.of_nat (k - 1))) in * by lia.
    rewrite Z.pow_succ_r in * by lia. lia.
  - lia.
Qed.

(** The bit string of [_decompress] has eight bits for each byte. *)
Lemma binary_length (bs : list Z) :
  Forall (fun b => 0 ≤ b < 256) bs →
  String.length (zfill (bin_digits (from_bytes bs)) (length bs * 8))
  = Nat.max 1 (length bs * 8).
Proof.
  intros Hbs. destruct bs as [|b bs].
  - done.
  - rewrite zfill_length; [simpl; lia|].
    apply bin_digits_length; [|simpl; lia].
    pose proof (from_bytes_range _ Hbs) as Hr.
    replace (2 ^ Z.of_nat (length (b :: bs) * 8)) with (256 ^ Z.of_nat (length (b :: bs)));
      [done|].
    rewrite Nat2Z.inj_mul, Z.mul_comm, Z.pow_mul_r by lia. done.
Qed.

(** ** The order of the heap *)

Lemma parent_lt (i : nat) : (0 < i)%nat → ((i - 1) / 2 < i)%nat.
Proof. intros Hi. apply Nat.Div0.div_lt_upper_bound. lia. Qed.

Lemma parent_child (c p : nat) :
  (0 < c)%nat → ((c - 1) / 2)%nat = p ↔ c = (2 * p + 1)%nat ∨ c = (2 * p + 2)%nat.
Proof.
  intros Hc. pose proof (Nat.div_mod_eq (c - 1) 2) as Hd.
  pose proof (Nat.mod_upper_bound (c - 1) 2 ltac:(lia)) as Hm.
  split.
  - intros <-. lia.
  - intros Hcase. symmetry. apply (Nat.div_unique (c - 1) 2 p (c - 1 - 2 * p)); lia.
Qed.

Ltac heap_side := first [done | lia | congruence | by symmetry].

Section HeapOrder.
Context {A : Type} (lt : A → A → bool) (key : A → Z).
Context (Hlt : ∀ a b, lt a b = (key a <? key b)).

Lemma heap_ordered_key (heap : list A) :
  heap_ordered lt heap
  ↔ ∀ i x p, (0 < i)%nat →
      heap !! i = Some x → heap !! ((i - 1) / 2)%nat = Some p → key p ≤ key x.
Proof.
  unfold heap_ordered. split; intros H i x p Hi Hx Hp; specialize (H i x p Hi Hx Hp).
  - rewrite Hlt in H. lia.
  - rewrite Hlt. lia.
Qed.

(** The first element of an ordered heap is a least one. *)
Lemma heap_ordered_min (heap : list A) (m : A) :
  heap_ordered lt heap → heap !! 0%nat = Some m →
  Forall (fun x => key m ≤ key x) heap.
Proof.
  intros Hord' Hm. pose proof (proj1 (heap_ordered_key heap) Hord') as Hord.
  apply Forall_lookup. intros i.
  induction (lt_wf i) as [i _ IH]. intros x Hx.
  destruct (decide (i = 0%nat)) as [->|Hi]; [rewrite Hm in Hx; injection Hx as ->; lia|].
  pose proof (parent_lt i ltac:(lia)) as Hpar.
  destruct (lookup_lt_is_Some_2 heap ((i - 1) / 2)%nat) as [p Hp].
  { apply lookup_lt_Some in Hx. lia. }
  specialize (IH _ Hpar p Hp). specialize (Hord i x p ltac:(lia) Hx Hp). lia.
Qed.

(** [_siftdown] to the root: the heap with [newitem] at [pos] is ordered
    but for [newitem] and its parent. *)
Lemma _siftdown_loop_ordered fuel heap pos newitem :
  (pos ≤ fuel)%nat → (pos < length heap)%nat →
  (∀ i x p, (0 < i)%nat → i ≠ pos → ((i - 1) / 2)%nat ≠ pos →
     heap !! i = Some x → heap !! ((i - 1) / 2)%nat = Some p → key p ≤ key x) →
  (∀ c x, (0 < c)%nat → ((c - 1) / 2)%nat = pos →
     heap !! c = Some x → key newitem ≤ key x) →
  (∀ c x g, (0 < pos)%nat → (0 < c)%nat → ((c - 1) / 2)%nat = pos →
     heap !! c = Some x → heap !! ((pos - 1) / 2)%nat = Some g → key g ≤ key x) →
  heap_ordered lt (_siftdown_loop lt fuel heap 0 pos newitem).
Proof.
  revert heap pos. induction fuel as [|fuel IH]; intros heap pos Hfuel Hpos HA HB HC.
  - assert (pos = 0%nat) as -> by lia. cbn [_siftdown_loop].
    apply heap_ordered_key. intros i x p Hi Hx Hp.
    rewrite list_lookup_insert_ne in Hx by lia.
    apply list_lookup_insert_Some in Hp as [(Hpar & <- & _)|[Hpar Hp]].
    + eapply (HB i x); heap_side.
    + eapply (HA i x p); heap_side.
  - cbn [_siftdown_loop].
    assert (∀ heap', heap' = <[pos:=newitem]> heap →
              ((0 < pos)%nat → ∀ p, heap !! ((pos - 1) / 2)%nat = Some p →
               key p ≤ key newitem) →
              heap_ordered lt heap') as Hstop.
    { intros heap' -> Hparent. apply heap_ordered_key. intros i x p Hi Hx Hp.
      apply list_lookup_insert_Some in Hx as [(<- & <- & _)|[Hne Hx]].
      - rewrite list_lookup_insert_ne in Hp by (pose proof (parent_lt pos Hi); lia).
        by eapply Hparent.
      - apply list_lookup_insert_Some in Hp as [(Hpar & <- & _)|[Hpar Hp]].
        + eapply (HB i x); heap_side.
        + eapply (HA i x p); heap_side. }
    destruct (0 <? pos)%nat eqn:Hgt.
    2: { apply Nat.ltb_ge in Hgt. apply Hstop; [done|lia]. }
    apply Nat.ltb_lt in Hgt. pose proof (parent_lt pos Hgt) as Hpar.
    destruct (heap !! ((pos - 1) / 2)%nat) as [parent|] eqn:Hparent.
    2: { apply lookup_ge_None in Hparent. lia. }
    destruct (lt newitem parent) eqn:Hless.
    2: { apply Hstop; [done|]. intros _ p [= <-]. rewrite Hlt in Hless. lia. }
    rewrite Hlt in Hless. apply Z.ltb_lt in Hless.
    apply IH; [lia|rewrite length_insert; lia| | |].
    + intros i x p Hi Hne Hparne Hx Hp.
      apply list_lookup_insert_Some in Hx as [(<- & <- & _)|[Hipos Hx]]; [done|].
      apply list_lookup_insert_Some in Hp as [(Hpareq & <- & _)|[Hparpos Hp]].
      * eapply (HC i x parent); heap_side.
      * eapply (HA i x p); heap_side.
    + intros c x Hc Hcpar Hx.
      apply list_lookup_insert_Some in Hx as [(<- & <- & _)|[Hcpos Hx]]; [lia|].
      assert (key parent ≤ key x); [|lia].
      eapply (HA c x parent); heap_side.
    + intros c x g Hpos' Hc Hcpar Hx Hg.
      pose proof (parent_lt _ Hpos') as Hgp.
      rewrite list_lookup_insert_ne in Hg by lia.
      assert (key g ≤ key parent) as Hgparent.
      { eapply (HA ((pos - 1) / 2)%nat parent g); heap_side. }
      apply list_lookup_insert_Some in Hx as [(<- & <- & _)|[Hcpos Hx]]; [done|].
      assert (key parent ≤ key x); [|lia].
      eapply (HA c x parent); heap_side.
Qed.

Lemma heappush_ordered heap item :
  heap_ordered lt heap → heap_ordered lt (heappush lt heap item).
Proof.
  intros Hord'. pose proof (proj1 (heap_ordered_key heap) Hord') as Hord.
  unfold heappush, _siftdown. rewrite list_lookup_middle by done.
  apply _siftdown_loop_ordered.
  - done.
  - rewrite length_app. simpl. lia.
  - intros i x p Hi Hne Hparne Hx Hp.
    apply lookup_snoc_Some in Hx as [[Hlen Hx]|[-> _]]; [|done].
    apply lookup_snoc_Some in Hp as [[Hlenp Hp]|[Hpar _]]; [|done].
    by eapply Hord.
  - intros c x Hc Hcpar Hx. apply lookup_lt_Some in Hx.
    rewrite length_app in Hx. simpl in Hx. pose proof (parent_lt c Hc). lia.
  - intros c x g _ Hc Hcpar Hx Hg. apply lookup_lt_Some in Hx.
    rewrite length_app in Hx. simpl in Hx. pose proof (parent_lt c Hc). lia.
Qed.

(** The loop of [_siftup] from the root: it ends at a leaf, and the heap
    is ordered but for what is at that leaf. *)
Lemma _siftup_loop_ordered fuel heap pos heap' pos' :
  (length heap ≤ fuel + pos)%nat → (pos < length heap)%nat →
  (∀ i x p, (0 < i)%nat → (((i - 1) / 2)%nat = pos → (0 < pos)%nat) →
     heap !! i = Some x → heap !! ((i - 1) / 2)%nat = Some p → key p ≤ key x) →
  _siftup_loop lt fuel heap pos = (heap', pos') →
  length heap' = length heap
  ∧ (pos' < length heap')%nat
  ∧ (length heap' ≤ 2 * pos' + 1)%nat
  ∧ (∀ i x p, (0 < i)%nat → i ≠ pos' →
       heap' !! i = Some x → heap' !! ((i - 1) / 2)%nat = Some p → key p ≤ key x).
Proof.
  revert heap pos. induction fuel as [|fuel IH]; intros heap pos Hfuel Hpos HU; [lia|].
  cbn [_siftup_loop]. cbv zeta.
  assert ((heap, pos) = (heap', pos') →
          (length heap ≤ 2 * pos + 1)%nat →
          length heap' = length heap
          ∧ (pos' < length heap')%nat
          ∧ (length heap' ≤ 2 * pos' + 1)%nat
          ∧ (∀ i x p, (0 < i)%nat → i ≠ pos' →
               heap' !! i = Some x → heap' !! ((i - 1) / 2)%nat = Some p →
               key p ≤ key x)) as Hstop.
  { intros [= <- <-] Hleaf. split_and!; [done..|].
    intros i x p Hi Hne Hx Hp. eapply (HU i x p); try done.
    intros Hpar. apply parent_child in Hpar; [|done].
    apply lookup_lt_Some in Hx. lia. }
  destruct (2 * pos + 1 <? length heap)%nat eqn:Hchild.
  2: { apply Nat.ltb_ge in Hchild. intros Heq. by apply Hstop. }
  apply Nat.ltb_lt in Hchild.
  assert (∀ cpos c,
            (cpos = 2 * pos + 1 ∨ cpos = 2 * pos + 2)%nat → heap !! cpos = Some c →
            (∀ s x, (s = 2 * pos + 1 ∨ s = 2 * pos + 2)%nat → heap !! s = Some x →
               key c ≤ key x) →
            _siftup_loop lt fuel (<[pos:=c]> heap) cpos = (heap', pos') →
            length heap' = length heap
            ∧ (pos' < length heap')%nat
            ∧ (length heap' ≤ 2 * pos' + 1)%nat
            ∧ (∀ i x p, (0 < i)%nat → i ≠ pos' →
                 heap' !! i = Some x → heap' !! ((i - 1) / 2)%nat = Some p →
                 key p ≤ key x)) as Hstep.
  { intros cpos c Hcpos Hc Hsmall Hloop.
    pose proof (lookup_lt_Some _ _ _ Hc) as Hclen.
    apply IH in Hloop; [by rewrite length_insert in Hloop| | |].
    - rewrite length_insert. lia.
    - rewrite length_insert. lia.
    - intros i x p Hi _ Hx Hp.
      apply list_lookup_insert_Some in Hx as [(<- & <- & _)|[Hipos Hx]].
      + rewrite list_lookup_insert_ne in Hp by (pose proof (parent_lt pos Hi); lia).
        destruct (lookup_lt_is_Some_2 heap pos Hpos) as [y Hy].
        assert (key p ≤ key y).
        { eapply (HU pos y p); done. }
        assert (key y ≤ key c); [|lia].
        assert (((cpos - 1) / 2)%nat = pos) as Hcpar by (apply parent_child; lia).
        eapply (HU cpos c y); [lia|done|done|by rewrite Hcpar].
      + apply list_lookup_insert_Some in Hp as [(Hpar & <- & _)|[Hpar Hp]].
        * apply (Hsmall i x); [|done]. by apply parent_child.
        * eapply (HU i x p); done. }
  destruct (heap !! (2 * pos + 1)%nat) as [cl|] eqn:Hcl.
  2: { apply lookup_ge_None in Hcl. lia. }
  destruct (heap !! (2 * pos + 1 + 1)%nat) as [r|] eqn:Hr.
  - destruct (lt cl r) eqn:Hless; cbn [negb]; rewrite Hlt in Hless.
    + rewrite Hcl. apply Hstep; [lia|done|].
      intros s x [->| ->] Hx; [rewrite Hcl in Hx; injection Hx as <-; lia|].
      replace (2 * pos + 2)%nat with (2 * pos + 1 + 1)%nat in Hx by lia.
      rewrite Hr in Hx. injection Hx as <-. lia.
    + rewrite Hr. apply Hstep; [lia|done|].
      intros s x [->| ->] Hx; [rewrite Hcl in Hx; injection Hx as <-; lia|].
      replace (2 * pos + 2)%nat with (2 * pos + 1 + 1)%nat in Hx by lia.
      rewrite Hr in Hx. injection Hx as <-. lia.
  - rewrite Hcl. apply Hstep; [lia|done|].
    intros s x [->| ->] Hx; [rewrite Hcl in Hx; injection Hx as <-; lia|].
    replace (2 * pos + 2)%nat with (2 * pos + 1 + 1)%nat in Hx by lia.
    rewrite Hr in Hx. done.
Qed.

Lemma _siftup_ordered heap :
  (∀ i x p, (0 < i)%nat → ((i - 1) / 2)%nat ≠ 0%nat →
     heap !! i = Some x → heap !! ((i - 1) / 2)%nat = Some p → key p ≤ key x) →
  heap_ordered lt (_siftup lt heap 0).
Proof.
  intros HU. unfold _siftup.
  destruct (heap !! 0%nat) as [newitem|] eqn:Hnew.
  2: { apply lookup_ge_None in Hnew. intros i x p Hi Hx. apply lookup_lt_Some in Hx. lia. }
  pose proof (lookup_lt_Some _ _ _ Hnew) as Hlen.
  destruct (_siftup_loop lt (length heap) heap 0) as [heap' pos'] eqn:Hloop.
  apply _siftup_loop_ordered in Hloop as (Hlen' & Hpos' & Hleaf & Hord); [|lia|done|].
  2: { intros i x p Hi Hpar. apply HU; [done|]. intros Hz. specialize (Hpar Hz). lia. }
  unfold _siftdown. rewrite list_lookup_insert_eq by done.
  apply _siftdown_loop_ordered.
  - done.
  - by rewrite length_insert.
  - intros i x p Hi Hne Hparne Hx Hp.
    rewrite list_lookup_insert_ne in Hx, Hp by done. by eapply Hord.
  - intros c x Hc Hcpar Hx. apply lookup_lt_Some in Hx. rewrite length_insert in Hx.
    apply parent_child in Hcpar; [|done]. lia.
  - intros c x g _ Hc Hcpar Hx Hg. apply lookup_lt_Some in Hx. rewrite length_insert in Hx.
    apply parent_child in Hcpar; [|done]. lia.
Qed.

(** [heappop] returns the first element, which is a least one, and leaves
    an ordered heap. *)
Lemma heappop_ordered heap item heap' :
  heap_ordered lt heap → heappop lt heap = Ok (item, heap') →
  heap_ordered lt heap' ∧ Forall (fun x => key item ≤ key x) heap.
Proof.
  intros Hord' Hpop. pose proof (proj1 (heap_ordered_key heap) Hord') as Hord.
  assert (heap !! 0%nat = Some item ∧ heap_ordered lt heap') as [Hitem Hord''];
    [|split; [done|by apply heap_ordered_min]].
  revert Hpop. unfold heappop.
  destruct (last heap) as [lastelt|] eqn:Hlast; [|done].
  apply last_Some in Hlast as [heap0 ->]. cbv zeta. rewrite removelast_last.
  destruct heap0 as [|returnitem t]; intros [= <- <-].
  - split; [done|]. intros i x p Hi Hx. by destruct i.
  - split; [done|]. apply _siftup_ordered.
    intros i x p Hi Hpar Hx Hp. apply (Hord i x p Hi).
    + destruct i as [|i']; [lia|]. by apply (lookup_app_l_Some (returnitem :: t)).
    + destruct ((i - 1) / 2)%nat as [|j]; [done|].
      by apply (lookup_app_l_Some (returnitem :: t)).
Qed.
End HeapOrder.

(** ** Huffman's algorithm *)

Lemma node_lt_freq (a b : HuffmanNode) : node_lt a b = (freq a <? freq b).
Proof. reflexivity. Qed.

Lemma huffman_step_perm (forest0 forest forest' : list HuffmanNode) :
  forest0 ≡ₚ forest → huffman_step forest forest' → huffman_step forest0 forest'.
Proof.
  intros Hperm (l & r & rest & Hf & Hl & Hr & Hf'). exists l, r, rest.
  split_and!; [|done..]. by rewrite Hperm.
Qed.

(** The loop of [_build_huffman_tree] does Huffman's steps. *)
Lemma merge_loop_huffman fuel heap heap' :
  heap_ordered node_lt heap →
  merge_loop fuel heap = Ok heap' →
  huffman_steps heap heap'.
Proof.
  revert heap. induction fuel as [|fuel IH]; intros heap Hord; cbn [merge_loop].
  { intros [= <-]. constructor. }
  destruct (1 <? length heap)%nat; [|intros [= <-]; constructor].
  destruct (heappop node_lt heap) as [[l h1]|e] eqn:Hpop1; [|done].
  rewrite bind_Ok.
  destruct (heappop node_lt h1) as [[r h2]|e] eqn:Hpop2; [|done].
  rewrite bind_Ok. intros Hloop.
  destruct (heappop_ordered node_lt freq node_lt_freq _ _ _ Hord Hpop1) as [Hord1 Hmin1].
  destruct (heappop_ordered node_lt freq node_lt_freq _ _ _ Hord1 Hpop2) as [Hord2 Hmin2].
  apply heappop_perm in Hpop1, Hpop2.
  eapply huffman_steps_step; [|apply (IH _ (heappush_ordered node_lt freq node_lt_freq _ _ Hord2) Hloop)].
  exists l, r, h2. split_and!.
  - by rewrite Hpop1, Hpop2.
  - rewrite Hpop1, Hpop2 in Hmin1. by apply Forall_cons in Hmin1 as [_ ?].
  - rewrite Hpop2 in Hmin2. by apply Forall_cons in Hmin2 as [_ ?].
  - apply heappush_perm.
Qed.

Lemma push_leaves_ordered (counts : dict Z) (heap : list HuffmanNode) :
  heap_ordered node_lt heap →
  heap_ordered node_lt
    (fold_left (fun heap '(c, count) => heappush node_lt heap (mkNode c count None None))
       counts heap).
Proof.
  revert heap. induction counts as [|[c n] counts IH]; intros heap Hord; [done|].
  cbn [fold_left]. apply IH. by apply (heappush_ordered node_lt freq node_lt_freq).
Qed.

(** [Counter] counts. *)
Lemma Counter_occurrences (elems : list string) (c : string) :
  dict_get (Counter elems) c
  = if occurrences c elems =? 0 then None else Some (occurrences c elems).
Proof.
  unfold Counter.
  assert (∀ m, dict_get (fold_left (fun m e => dict_set m e (default 0 (dict_get m e) + 1))
                           elems m) c
               = if occurrences c elems =? 0 then dict_get m c
                 else Some (default 0 (dict_get m c) + occurrences c elems)) as Hgen.
  { induction elems as [|e elems IH]; intros m; [done|].
    cbn [fold_left]. rewrite IH, dict_get_set. unfold occurrences. cbn [List.filter].
    rewrite (String.eqb_sym c e).
    destruct (String.eqb_spec e c) as [->|Hne]; cbn [length default].
    - rewrite Nat2Z.inj_succ.
      destruct (Z.eqb_spec (Z.of_nat (length (List.filter (String.eqb c) elems))) 0)
        as [->|Hnz].
      + done.
      + destruct (Z.eqb_spec (Z.succ (Z.of_nat (length (List.filter (String.eqb c) elems)))) 0);
          [lia|]. unfold id. f_equal. lia.
    - done. }
  rewrite Hgen. simpl. by destruct (occurrences c elems =? 0).
Qed.

(** For an input with two distinct characters or more, the table is read
    off the one tree the loop leaves. *)
Lemma _build_huffman_tree_loop (data : string) :
  (2 ≤ length (Counter (chars data)))%nat →
  let heap :=
    fold_left (fun heap '(c, count) => heappush node_lt heap (mkNode c count None None))
      (Counter (chars data)) [] in
  heap ≡ₚ leaf_of <$> Counter (chars data)
  ∧ heap_ordered node_lt heap
  ∧ ∃ root,
      merge_loop (length heap) heap = Ok [root]
      ∧ _build_huffman_tree data = Ok (paths root "").
Proof.
  intros Htwo heap. unfold _build_huffman_tree.
  pose proof (Counter_NoDup (chars data)) as Hnd.
  pose proof (Counter_keys (chars data)) as Hkeys.
  set (counts := Counter (chars data)) in *.
  assert ((length counts =? 1)%nat = false) as -> by (apply Nat.eqb_neq; lia).
  fold heap.
  pose proof (push_leaves_perm counts []) as Hheap. fold heap in Hheap. simpl in Hheap.
  pose proof (Permutation_length Hheap) as Hlen. rewrite length_fmap in Hlen.
  split; [done|]. split.
  { apply push_leaves_ordered. intros i x p Hi Hx. by destruct i. }
  destruct (merge_loop_spec (length heap) heap)
    as (heap' & Hloop & Hleaves & _ & Hbig); [done|].
  destruct Hbig as (f & l & r & ->); [lia|].
  exists (mkNode "" f (Some l) (Some r)). split; [done|].
  rewrite Hloop, bind_Ok. rewrite bind_singleton in Hleaves.
  rewrite generate_codes_paths. rewrite fold_dict_set_new; [done|].
  rewrite app_nil_l, paths_keys, Hleaves, Hheap. rewrite leaf_of_leaves; [done|].
  apply Forall_forall. intros k Hk. apply (chars_truthy data), Hkeys, Hk.
Qed.

(** ** Renaming the characters *)

Section Rename.
Context (f : ascii → ascii) (Hinj : Inj (=) (=) f).

#[local] Instance rename_inj : Inj (=) (=) (rename f).
Proof.
  intros s. induction s as [|a s IH]; intros [|b t]; simpl; try done.
  intros [= Hab Hst]. f_equal; [by apply Hinj | by apply IH].
Qed.

Lemma rename_app (s t : string) : rename f (s +:+ t) = rename f s +:+ rename f t.
Proof. induction s as [|a s IH]; simpl; [done|]. by rewrite IH. Qed.

Lemma rename_chars (s : string) : chars (rename f s) = rename f <$> chars s.
Proof. induction s as [|a s IH]; simpl; [done|]. by rewrite IH. Qed.

Lemma rename_join (l : list string) : join (rename f <$> l) = rename f (join l).
Proof.
  induction l as [|s l IH]; [done|].
  rewrite fmap_cons, !join_cons, rename_app. by rewrite IH.
Qed.

Lemma rename_truthy (s : string) : truthy (rename f s) = truthy s.
Proof. by destruct s. Qed.

Lemma rename_eqb (s t : string) : String.eqb (rename f s) (rename f t) = String.eqb s t.
Proof.
  destruct (String.eqb_spec s t) as [->|Hne].
  - apply String.eqb_refl.
  - apply String.eqb_neq. intros Heq. by apply rename_inj in Heq.
Qed.

Lemma rename_dict_get {V} (d : dict V) (k : string) :
  dict_get (rename_keys f d) (rename f k) = dict_get d k.
Proof.
  induction d as [|[k' v] d IH]; simpl; [done|].
  by rewrite rename_eqb, IH.
Qed.

Lemma rename_dict_set {V} (d : dict V) (k : string) (v : V) :
  dict_set (rename_keys f d) (rename f k) v = rename_keys f (dict_set d k v).
Proof.
  induction d as [|[k' v'] d IH]; simpl; [done|].
  rewrite rename_eqb. destruct (String.eqb k' k); [done|].
  unfold rename_keys in *. simpl. by rewrite IH.
Qed.

Lemma rename_Counter (elems : list string) :
  Counter (rename f <$> elems) = rename_keys f (Counter elems).
Proof.
  unfold Counter.
  assert (∀ m, fold_left (fun m e => dict_set m e (default 0 (dict_get m e) + 1))
                 (rename f <$> elems) (rename_keys f m)
               = rename_keys f
                   (fold_left (fun m e => dict_set m e (default 0 (dict_get m e) + 1))
                      elems m)) as Hgen; [|apply (Hgen [])].
  induction elems as [|e elems IH]; intros m; simpl; [done|].
  by rewrite rename_dict_get, rename_dict_set, IH.
Qed.

Lemma rename_node_freq (n : HuffmanNode) : freq (rename_node f n) = freq n.
Proof. by destruct n. Qed.

Lemma rename_node_lt (a b : HuffmanNode) :
  node_lt (rename_node f a) (rename_node f b) = node_lt a b.
Proof. unfold node_lt. by rewrite !rename_node_freq. Qed.
End Rename.

(** The heap operations commute with a map that keeps the order. *)
Section HeapqMap.
Context {A B : Type} (lt : A → A → bool) (lt' : B → B → bool) (h : A → B).
Context (Hlt : ∀ a b, lt' (h a) (h b) = lt a b).

Lemma _siftdown_loop_fmap fuel heap startpos pos newitem :
  _siftdown_loop lt' fuel (h <$> heap) startpos pos (h newitem)
  = h <$> _siftdown_loop lt fuel heap startpos pos newitem.
Proof.
  revert heap pos. induction fuel as [|fuel IH]; intros heap pos; cbn [_siftdown_loop].
  - by rewrite list_fmap_insert.
  - destruct (startpos <? pos)%nat; [|by rewrite list_fmap_insert].
    rewrite list_lookup_fmap.
    destruct (heap !! ((pos - 1) / 2)%nat) as [parent|]; [|by rewrite list_fmap_insert].
    simpl (h <$> Some parent); cbv beta iota.
    rewrite Hlt. destruct (lt newitem parent); [|by rewrite list_fmap_insert].
    by rewrite <- list_fmap_insert, IH.
Qed.

Lemma _siftdown_fmap heap startpos pos :
  _siftdown lt' (h <$> heap) startpos pos = h <$> _siftdown lt heap startpos pos.
Proof.
  unfold _siftdown. rewrite list_lookup_fmap.
  destruct (heap !! pos) as [newitem|]; [|done].
  simpl (h <$> Some newitem); cbv beta iota. apply _siftdown_loop_fmap.
Qed.

Lemma _siftup_loop_fmap fuel heap pos :
  _siftup_loop lt' fuel (h <$> heap) pos
  = let '(heap', pos') := _siftup_loop lt fuel heap pos in (h <$> heap', pos').
Proof.
  revert heap pos. induction fuel as [|fuel IH]; intros heap pos; cbn [_siftup_loop];
    [done|].
  cbv zeta. rewrite length_fmap. destruct (2 * pos + 1 <? length heap)%nat; [|done].
  rewrite !list_lookup_fmap.
  destruct (heap !! (2 * pos + 1)%nat) as [c|] eqn:Hc.
  2: { simpl (h <$> None); cbv beta iota. by rewrite Hc. }
  simpl (h <$> Some c); cbv beta iota.
  destruct (heap !! (2 * pos + 1 + 1)%nat) as [r|] eqn:Hr.
  - simpl (h <$> Some r); cbv beta iota. rewrite Hlt. destruct (lt c r); cbn [negb].
    + rewrite Hc. simpl (h <$> Some c); cbv beta iota.
      by rewrite <- list_fmap_insert, IH.
    + rewrite Hr. simpl (h <$> Some r); cbv beta iota.
      by rewrite <- list_fmap_insert, IH.
  - simpl (h <$> None); cbv beta iota. rewrite Hc. simpl (h <$> Some c); cbv beta iota.
    by rewrite <- list_fmap_insert, IH.
Qed.

Lemma _siftup_fmap heap pos :
  _siftup lt' (h <$> heap) pos = h <$> _siftup lt heap pos.
Proof.
  unfold _siftup. rewrite list_lookup_fmap.
  destruct (heap !! pos) as [newitem|]; [|done].
  simpl (h <$> Some newitem); cbv beta iota.
  rewrite length_fmap, _siftup_loop_fmap.
  destruct (_siftup_loop lt (length heap) heap pos) as [heap' pos'].
  by rewrite <- list_fmap_insert, _siftdown_fmap.
Qed.

Lemma heappush_fmap heap item :
  heappush lt' (h <$> heap) (h item) = h <$> heappush lt heap item.
Proof.
  unfold heappush. rewrite length_fmap.
  by rewrite <- _siftdown_fmap, fmap_app.
Qed.

Lemma heappop_fmap heap :
  heappop lt' (h <$> heap)
  = match heappop lt heap with
    | Ok (item, heap') => Ok (h item, h <$> heap')
    | Raise e => Raise e
    end.
Proof.
  unfold heappop. cbv zeta. rewrite fmap_last.
  destruct (last heap) as [lastelt|] eqn:Hlast; [|done].
  simpl (h <$> Some lastelt); cbv beta iota.
  apply last_Some in Hlast as [heap0 ->].
  rewrite removelast_last.
  replace (removelast (h <$> heap0 ++ [lastelt])) with (h <$> heap0)
    by (rewrite fmap_app; change (h <$> [lastelt]) with [h lastelt];
        by rewrite removelast_last).
  destruct heap0 as [|returnitem t]; [done|].
  rewrite fmap_cons. cbn [insert list_insert].
  by rewrite <- _siftup_fmap.
Qed.
End HeapqMap.

Section RenameCodec.
Context (f : ascii → ascii) (Hinj : Inj (=) (=) f).

Lemma rename_merge_loop fuel heap :
  merge_loop fuel (rename_node f <$> heap)
  = match merge_loop fuel heap with
    | Ok heap' => Ok (rename_node f <$> heap')
    | Raise e => Raise e
    end.
Proof.
  revert heap. induction fuel as [|fuel IH]; intros heap; cbn [merge_loop]; [done|].
  rewrite length_fmap. destruct (1 <? length heap)%nat; [|done].
  rewrite (heappop_fmap node_lt node_lt (rename_node f)) by apply rename_node_lt.
  destruct (heappop node_lt heap) as [[l h1]|e]; [|done].
  rewrite !bind_Ok.
  rewrite (heappop_fmap node_lt node_lt (rename_node f)) by apply rename_node_lt.
  destruct (heappop node_lt h1) as [[r h2]|e]; [|done].
  rewrite !bind_Ok. rewrite <- IH. f_equal.
  rewrite <- (heappush_fmap node_lt node_lt (rename_node f)) by apply rename_node_lt.
  by rewrite !rename_node_freq.
Qed.

Lemma rename_generate_codes node code codes :
  generate_codes (rename_node f node) code (rename_keys f codes)
  = rename_keys f (generate_codes node code codes).
Proof.
  revert code codes.
  induction node as [c n l r IHl IHr] using HuffmanNode_nested_ind. intros code codes.
  cbn [rename_node generate_codes]. rewrite rename_truthy.
  destruct (truthy c); [by apply rename_dict_set|].
  destruct l as [a|], r as [b|]; try done.
  - by rewrite (IHl a eq_refl), (IHr b eq_refl).
  - by rewrite (IHl a eq_refl).
  - by rewrite (IHr b eq_refl).
Qed.

Lemma rename_build_huffman_tree (data : string) :
  _build_huffman_tree (rename f data)
  = match _build_huffman_tree data with
    | Ok codes => Ok (rename_keys f codes)
    | Raise e => Raise e
    end.
Proof.
  unfold _build_huffman_tree.
  rewrite rename_chars, rename_Counter by done.
  unfold rename_keys at 1. rewrite length_fmap.
  destruct (length (Counter (chars data)) =? 1)%nat.
  { by destruct (chars data). }
  set (push := fun heap '(c, count) => heappush node_lt heap (mkNode c count None None)).
  assert (∀ counts heap,
            fold_left push (rename_keys f counts) (rename_node f <$> heap)
            = rename_node f <$> fold_left push counts heap) as Hpush.
  { induction counts as [|[c n] counts IH]; intros heap; [done|].
    cbn [rename_keys fmap list_fmap fold_left] in *. rewrite <- IH. f_equal.
    unfold push. cbn [fst snd].
    by rewrite <- (heappush_fmap node_lt node_lt (rename_node f))
      by apply rename_node_lt. }
  specialize (Hpush (Counter (chars data)) []). rewrite fmap_nil in Hpush.
  rewrite Hpush, length_fmap, rename_merge_loop.
  destruct (merge_loop _ _) as [[|root heap']|e]; [done| |done].
  rewrite !bind_Ok, fmap_cons. f_equal.
  apply (rename_generate_codes root "" []).
Qed.

Lemma rename_mapM_dict_item (codes : dict string) (l : list string) :
  mapM (dict_item (rename_keys f codes)) (rename f <$> l) = mapM (dict_item codes) l.
Proof.
  induction l as [|c l IH]; [done|].
  assert (dict_item (rename_keys f codes) (rename f c) = dict_item codes c) as Hc.
  { unfold dict_item. by rewrite rename_dict_get. }
  rewrite fmap_cons. cbn [mapM]. by rewrite Hc, IH.
Qed.

Lemma rename_compress (data : string) :
  _compress (rename f data)
  = match _compress data with
    | Ok (compressed_str, huffman_codes) => Ok (compressed_str, rename_keys f huffman_codes)
    | Raise e => Raise e
    end.
Proof.
  unfold _compress. rewrite rename_build_huffman_tree.
  destruct (_build_huffman_tree data) as [huffman_codes|e]; [|done].
  rewrite !bind_Ok, rename_chars, rename_mapM_dict_item.
  destruct (mapM (dict_item huffman_codes) (chars data)) as [codes|e]; [|done].
  rewrite !bind_Ok. cbv zeta.
  destruct (int2 _) as [n|e]; [|done]. rewrite !bind_Ok.
  by destruct (to_bytes _ _).
Qed.

Lemma rename_reverse_mapping (huffman_codes : dict string) :
  reverse_mapping (rename_keys f huffman_codes)
  = (fun e => (e.1, rename f e.2)) <$> reverse_mapping huffman_codes.
Proof.
  unfold reverse_mapping.
  assert (∀ d, fold_left (fun d '(c, code) => dict_set d code c)
                 (rename_keys f huffman_codes) ((fun e => (e.1, rename f e.2)) <$> d)
               = (fun e => (e.1, rename f e.2))
                   <$> fold_left (fun d '(c, code) => dict_set d code c) huffman_codes d)
    as Hgen; [|apply (Hgen [])].
  induction huffman_codes as [|[c code] l IH]; intros d; [done|].
  cbn [rename_keys fmap list_fmap fold_left fst snd] in *. rewrite <- IH. f_equal.
  clear. induction d as [|[k v] d IH]; [done|].
  rewrite fmap_cons. cbn [dict_set fst snd].
  destruct (String.eqb k code); [by rewrite fmap_cons|]. by rewrite fmap_cons, IH.
Qed.

Lemma rename_decode_loop (reverse_codes : dict string) binary current_code result :
  decode_loop ((fun e => (e.1, rename f e.2)) <$> reverse_codes) binary current_code
    (rename f <$> result)
  = rename f <$> decode_loop reverse_codes binary current_code result.
Proof.
  revert current_code result.
  induction binary as [|bit binary IH]; intros current_code result; [done|].
  cbn [decode_loop].
  assert (∀ k, dict_get ((fun e => (e.1, rename f e.2)) <$> reverse_codes) k
               = rename f <$> dict_get reverse_codes k) as Hget.
  { intros k. clear. induction reverse_codes as [|[k' v] d IHd]; simpl; [done|].
    by destruct (String.eqb k' k). }
  rewrite Hget. destruct (dict_get reverse_codes (current_code +:+ bit)) as [c|]; simpl.
  - rewrite <- IH. by rewrite fmap_app.
  - apply IH.
Qed.

Lemma rename_decompress (compressed_str : string) (huffman_codes : dict string) :
  _decompress compressed_str (rename_keys f huffman_codes)
  = match _decompress compressed_str huffman_codes with
    | Ok s => Ok (rename f s)
    | Raise e => Raise e
    end.
Proof.
  unfold _decompress. rewrite rename_reverse_mapping.
  destruct (urlsafe_b64decode (encode compressed_str)) as [bytes_data|e]; [|done].
  rewrite !bind_Ok.
  change (@nil string) with (rename f <$> @nil string) at 1.
  by rewrite rename_decode_loop, rename_join.
Qed.
End RenameCodec.

Lemma exchange_inj : Inj (=) (=) exchange.
Proof.
  assert (∀ c, exchange (exchange c) = c) as Hinv.
  { intros [[] [] [] [] [] [] [] []]; vm_compute; reflexivity. }
  intros a b Hab. rewrite <- (Hinv a), <- (Hinv b). by rewrite Hab.
Qed.

(** ** The example of [URL.py] *)

(** One pass of the loop, when the URL is new and the candidate of the
    first draw is free. *)
Lemma URL_main_loop_step self draws k url urls out p :
  urlsafe_b64encode (take 6 (sha256 (encode url))) = p → p ≠ "" →
  dict_in url (URL.url_to_code self) = false →
  dict_in (p +:+ draws k 0%nat) (URL.code_to_url self) = false →
  (0 < URL.max_collision_attempts self)%nat →
  ∃ compressed huffman_codes expanded,
    URL.main_loop self draws k (url :: urls) out
    = URL.main_loop
        {| URL.url_to_code := dict_set (URL.url_to_code self) url (p +:+ draws k 0%nat);
           URL.code_to_url := dict_set (URL.code_to_url self) (p +:+ draws k 0%nat) url;
           URL.compressed_data :=
             dict_set (URL.compressed_data self) (p +:+ draws k 0%nat)
               {| URL.compressed := compressed;
                  URL.huffman_codes := huffman_codes;
                  URL.original_url := url |};
           URL.max_collision_attempts := URL.max_collision_attempts self |}
        draws (S k) urls
        (((out ++ ["Original URL: " +:+ url])
          ++ ["Short Code: " +:+ (p +:+ draws k 0%nat); "Compressed Code: " +:+ compressed])
         ++ ["Expanded URL: " +:+ str_option expanded;
             "Matches original: " +:+ str_bool (matches expanded url) +:+ newline]).
Proof.
  intros Hp Hne Hnew Hfree Hmax.
  assert (p +:+ draws k 0%nat ≠ "") as Hsc by (by destruct p).
  destruct (_compress_returns _ Hsc) as (c & codes & Hc & _).
  set (self' := {| URL.url_to_code := dict_set (URL.url_to_code self) url (p +:+ draws k 0%nat);
                   URL.code_to_url := dict_set (URL.code_to_url self) (p +:+ draws k 0%nat) url;
                   URL.compressed_data :=
                     dict_set (URL.compressed_data self) (p +:+ draws k 0%nat)
                       {| URL.compressed := c; URL.huffman_codes := codes;
                          URL.original_url := url |};
                   URL.max_collision_attempts := URL.max_collision_attempts self |}).
  destruct (URL_expand_loop_total self' c (URL.compressed_data self')) as [o Ho].
  exists c, codes, o. fold self'.
  assert (URL.shorten_url self (draws k) url = (Ok (p +:+ draws k 0%nat, c), self')) as Hs.
  { unfold URL.shorten_url. rewrite Hnew.
    unfold URL._generate_short_code, generate_short_code.
    destruct (URL.max_collision_attempts self) as [|n] eqn:Hn; [lia|].
    cbn [generate_loop]. rewrite short_code_candidate_digest, Hp, Hfree.
    cbn [fst]. by rewrite Hc. }
  cbn [URL.main_loop]. rewrite Hs. unfold URL.expand_url. by rewrite Ho.
Qed.

(** * Further properties *)

(** X1.  The round trip, up to the padding: for every non-empty string,
    [_decompress] of what [_compress] returns is the string followed by the
    symbols that the padding bits decode to under the table; the round trip
    is exact when the code bits fill whole bytes. *)
Theorem roundtrip_up_to_padding (data : string) :
  data ≠ "" →
  ∃ compressed_str huffman_codes codes,
    _compress data = Ok (compressed_str, huffman_codes)
    ∧ mapM (dict_item huffman_codes) (chars data) = Ok codes
    ∧ _decompress compressed_str huffman_codes
      = Ok (data +:+ join (padding_symbols huffman_codes
                             ((8 - String.length (join codes) mod 8) mod 8)))
    ∧ ((String.length (join codes) mod 8 = 0)%nat →
       _decompress compressed_str huffman_codes = Ok data).
Proof.
  intros Hdata.
  destruct (_decompress_compress data Hdata) as (c & t & codes & Hc & Hm & Hd).
  destruct (_decompress_compress_whole_bytes data Hdata) as (c' & t' & codes' & Hc' & Hm' & Hd').
  rewrite Hc in Hc'. injection Hc' as <- <-. rewrite Hm in Hm'. injection Hm' as <-.
  exists c, t, codes. split_and!; done.
Qed.

Lemma roundtrip_up_to_padding_witness :
  ∃ compressed_str huffman_codes codes,
    _compress "mWPJSCMsxxyy" = Ok (compressed_str, huffman_codes)
    ∧ mapM (dict_item huffman_codes) (chars "mWPJSCMsxxyy") = Ok codes
    ∧ _decompress compressed_str huffman_codes
      = Ok ("mWPJSCMsxxyy"
            +:+ join (padding_symbols huffman_codes
                        ((8 - String.length (join codes) mod 8) mod 8)))
    ∧ ((String.length (join codes) mod 8 = 0)%nat →
       _decompress compressed_str huffman_codes = Ok "mWPJSCMsxxyy").
Proof. apply (roundtrip_up_to_padding "mWPJSCMsxxyy"). discriminate. Defined.

(** X2.  [_compress] returns on every non-empty string, with the table of
    [_build_huffman_tree]; on the empty string it raises [ValueError], the
    one of [int('', 2)]. *)
Theorem _compress_total :
  (∀ data, data ≠ "" →
     ∃ compressed_str huffman_codes,
       _compress data = Ok (compressed_str, huffman_codes)
       ∧ _build_huffman_tree data = Ok huffman_codes)
  ∧ _compress "" = Raise ValueError.
Proof. split; [apply _compress_returns | reflexivity]. Qed.

Lemma _compress_total_witness :
  ∃ compressed_str huffman_codes,
    _compress "abracadabra" = Ok (compressed_str, huffman_codes)
    ∧ _build_huffman_tree "abracadabra" = Ok huffman_codes.
Proof. apply (proj1 _compress_total "abracadabra"). discriminate. Defined.

(** X3.  [_build_huffman_tree] returns on every string; the keys of the
    table are the distinct characters of the string, each once. *)
Theorem _build_huffman_tree_keys (data : string) :
  ∃ codes, _build_huffman_tree data = Ok codes
    ∧ NoDup codes.*1
    ∧ ∀ c, c ∈ codes.*1 ↔ c ∈ chars data.
Proof.
  destruct (_build_huffman_tree_spec data) as (codes & Hb & Hnd & Hkeys & _).
  eauto.
Qed.

(** X4.  In [URL.py], on every store, a second call of [shorten_url] for
    the same URL returns the pair of the first call and leaves the object
    as it is, whatever the random draws. *)
Theorem shorten_url_idempotent self rnd rnd' long_url short_code compressed_str self' :
  URL.shorten_url self rnd long_url = (Ok (short_code, compressed_str), self') →
  URL.shorten_url self' rnd' long_url = (Ok (short_code, compressed_str), self').
Proof. apply URL_shorten_url_idempotent. Qed.

Lemma shorten_url_idempotent_witness :
  URL.shorten_url store_xxyy (fun _ => "qrst") first_url
  = (Ok ("mWPJSCMsxxyy", "VObIj_Y="), store_xxyy).
Proof.
  apply (shorten_url_idempotent URL.__init__ (fun _ => "xxyy")).
  vm_compute. reflexivity.
Defined.

(** X5.  On a store the program can hold, two URLs with the same short
    code are the same URL, in both files. *)
Theorem short_codes_unique :
  (∀ self u1 u2 short_code,
     URL.reachable self →
     dict_get (URL.url_to_code self) u1 = Some short_code →
     dict_get (URL.url_to_code self) u2 = Some short_code →
     u1 = u2)
  ∧ (∀ self u1 u2 short_code,
       _URL.reachable self →
       dict_get (_URL.url_to_code self) u1 = Some short_code →
       dict_get (_URL.url_to_code self) u2 = Some short_code →
       u1 = u2).
Proof.
  split; intros self u1 u2 sc Hr H1 H2.
  - destruct (URL_reachable_consistent _ Hr) as [Hfwd _ _ _ _].
    apply Hfwd in H1, H2. congruence.
  - destruct (_URL_reachable_consistent _ Hr) as [Hfwd _ _ _ _].
    apply Hfwd in H1, H2. congruence.
Qed.

Lemma short_codes_unique_witness : first_url = first_url.
Proof.
  apply (proj1 short_codes_unique store_xxyy_twice first_url first_url "mWPJSCMsxxyy").
  - apply store_xxyy_twice_reachable.
  - vm_compute. reflexivity.
  - vm_compute. reflexivity.
Defined.

(** X6.  A short code that [_generate_short_code] returns is no key of
    [code_to_url]; it is eight characters, the URL-safe base64 encoding of
    the first six bytes of the SHA-256 digest of the URL, followed by the
    letters of one of the first [max_collision_attempts] draws. *)
Theorem _generate_short_code_new self rnd url short_code :
  URL._generate_short_code self rnd url = Ok short_code →
  dict_in short_code (URL.code_to_url self) = false
  ∧ ∃ k p, (k < URL.max_collision_attempts self)%nat
      ∧ short_code = p +:+ rnd k ∧ String.length p = 8%nat
      ∧ p = urlsafe_b64encode (take 6 (sha256 (encode url))).
Proof.
  unfold URL._generate_short_code, generate_short_code.
  destruct (generate_loop _ _ _ _ _) as [r j] eqn:Hg. simpl. intros ->.
  apply generate_loop_Ok in Hg as (Hnew & k & Hk & Hcand).
  rewrite short_code_candidate_digest in Hcand. injection Hcand as <-.
  split; [done|]. exists k, (urlsafe_b64encode (take 6 (sha256 (encode url)))).
  split_and!; [lia|done| |done].
  destruct (short_code_candidate_spec url "") as (p & Hp & Hlen).
  rewrite short_code_candidate_digest in Hp. injection Hp as Hp.
  rewrite !string_app_nil_r in Hp. by rewrite Hp.
Qed.

(** The theorem at the store after one call, for the same URL, when the
    first draw gives the short code that is taken. *)
Lemma _generate_short_code_new_witness :
  dict_in "mWPJSCMsabcd" (URL.code_to_url store_xxyy) = false
  ∧ ∃ k p, (k < URL.max_collision_attempts store_xxyy)%nat
      ∧ "mWPJSCMsabcd"
        = p +:+ (fun i : nat => if (i =? 0)%nat then "xxyy" else "abcd") k
      ∧ String.length p = 8%nat
      ∧ p = urlsafe_b64encode (take 6 (sha256 (encode first_url))).
Proof.
  apply (_generate_short_code_new store_xxyy
           (fun i => if (i =? 0)%nat then "xxyy" else "abcd") first_url).
  vm_compute. reflexivity.
Defined.

(** X7.  In [_URL.py], on every store, every call of [shorten_url] for a
    URL that an earlier call stored raises [KeyError] and changes
    nothing. *)
Theorem _URL_shorten_url_repeated fuel fuel' self rnd letters rnd' letters' long_url r self' :
  _URL.shorten_url (S fuel) self rnd letters long_url = Some (Ok r, self') →
  _URL.shorten_url fuel' self' rnd' letters' long_url = Some (Raise KeyError, self').
Proof. apply _URL_shorten_url_again. Qed.

Lemma _URL_shorten_url_repeated_witness :
  _URL.shorten_url 5 _store_abcd (fun _ => "qrst") (fun _ => "Z") first_url
  = Some (Raise KeyError, _store_abcd).
Proof.
  apply (_URL_shorten_url_repeated 0 5 _URL.__init__ (fun _ => "abcd") (fun _ => "a")
           (fun _ => "qrst") (fun _ => "Z") first_url ("mWPJSCMsabcd", "ytm30ELw")).
  vm_compute. reflexivity.
Defined.

(** X8.  [heappush] and [heappop] keep the elements of the heap: the heap
    after [heappush] is a permutation of the heap with the item, and
    [heappop] of a non-empty heap returns an element and a permutation of
    the others. *)
Theorem heapq_permutes {A : Type} (lt : A → A → bool) (heap : list A) :
  (∀ item, heappush lt heap item ≡ₚ item :: heap)
  ∧ (heap ≠ [] → ∃ item heap', heappop lt heap = Ok (item, heap') ∧ heap ≡ₚ item :: heap')
  ∧ heappop lt (@nil A) = Raise IndexError.
Proof.
  split_and!.
  - intros item. apply heappush_perm.
  - intros Hne. destruct (heappop_nonempty lt heap Hne) as (item & heap' & Hpop).
    exists item, heap'. split; [done|]. by eapply heappop_perm.
  - reflexivity.
Qed.

Lemma heapq_permutes_witness :
  ∃ item heap', heappop Z.ltb [1; 3; 2] = Ok (item, heap') ∧ [1; 3; 2] ≡ₚ item :: heap'.
Proof. apply (proj1 (proj2 (heapq_permutes Z.ltb [1; 3; 2]))). discriminate. Defined.

(** ** More on the codec *)

(** X9.  For every non-empty string the table begins with a code made of
    '0' only; [_decompress] of what [_compress] returns is the string
    followed by that entry's character, once for every full code among the
    padding bits.  The round trip is exact exactly when the padding is
    shorter than that code. *)
Theorem roundtrip_exact_iff (data : string) :
  data ≠ "" →
  ∃ compressed_str c0 d rest codes,
    let huffman_codes := (c0, repeat_char "0" (S d)) :: rest in
    let padding_length := ((8 - String.length (join codes) mod 8) mod 8)%nat in
    _compress data = Ok (compressed_str, huffman_codes)
    ∧ mapM (dict_item huffman_codes) (chars data) = Ok codes
    ∧ _decompress compressed_str huffman_codes
      = Ok (data +:+ join (replicate (padding_length / S d) c0))
    ∧ (_decompress compressed_str huffman_codes = Ok data ↔ (padding_length < S d)%nat).
Proof.
  intros Hdata.
  destruct (_decompress_compress data Hdata)
    as (compressed_str & huffman_codes & codes & Hcompress & Hcodes & Hround).
  destruct (_compress_returns data Hdata) as (? & ? & Hcompress' & Hbuild).
  rewrite Hcompress in Hcompress'. injection Hcompress' as <- <-.
  destruct (_build_huffman_tree_first data Hdata) as (c0 & d & rest & Hfirst).
  destruct (_build_huffman_tree_spec data) as (? & Hbuild' & Hkeys & Hchars & Hpf & Hne).
  rewrite Hbuild in Hbuild', Hfirst. injection Hbuild' as <-.
  assert (huffman_codes = (c0, repeat_char "0" (S d)) :: rest) as Hfirst' by congruence.
  clear Hfirst. rename Hfirst' into Hfirst.
  exists compressed_str, c0, d, rest, codes. cbv zeta in *. rewrite <- Hfirst.
  set (padding_length := ((8 - String.length (join codes) mod 8) mod 8)%nat) in *.
  assert (padding_symbols huffman_codes padding_length
          = replicate (padding_length / S d) c0) as Hpad.
  { apply (padding_symbols_zero_code huffman_codes Hkeys Hpf).
    rewrite Hfirst. simpl. by rewrite String.eqb_refl. }
  rewrite Hpad in Hround. split_and!; [done..|].
  rewrite Hround.
  assert (truthy c0 = true) as Hc0.
  { apply (chars_truthy data), Hchars. rewrite Hfirst. simpl. apply list_elem_of_here. }
  pose proof (Nat.div_small_iff padding_length (S d) ltac:(lia)) as Hsmall.
  destruct (padding_length / S d)%nat as [|q]; simpl.
  - rewrite string_app_nil_r. split; [|done]. intros _. by apply Hsmall.
  - split.
    + intros Heq. exfalso. injection Heq as Heq.
      rewrite <- (string_app_nil_r data) in Heq at 2.
      apply String.app_inj in Heq. destruct c0; done.
    + intros Hlt. apply Hsmall in Hlt. done.
Qed.

(** The theorem at "abracadabra": one padding bit, and the code of 'a' is
    one '0'. *)
Lemma roundtrip_exact_iff_witness :
  ∃ compressed_str c0 d rest codes,
    let huffman_codes := (c0, repeat_char "0" (S d)) :: rest in
    let padding_length := ((8 - String.length (join codes) mod 8) mod 8)%nat in
    _compress "abracadabra" = Ok (compressed_str, huffman_codes)
    ∧ mapM (dict_item huffman_codes) (chars "abracadabra") = Ok codes
    ∧ _decompress compressed_str huffman_codes
      = Ok ("abracadabra" +:+ join (replicate (padding_length / S d) c0))
    ∧ (_decompress compressed_str huffman_codes = Ok "abracadabra"
       ↔ (padding_length < S d)%nat).
Proof. apply (roundtrip_exact_iff "abracadabra"). discriminate. Defined.

(** X21.  [_decompress] does not see the characters that are neither
    base64 digits of either alphabet nor the pad: a text with such
    characters inside decodes as the text without them.  So does
    [expand_url] of [URL.py], which only decodes its argument. *)
Theorem _decompress_skips (s1 junk s2 : string) :
  all_chars b64_skipped junk = true →
  (∀ huffman_codes,
     _decompress (s1 +:+ junk +:+ s2) huffman_codes
     = _decompress (s1 +:+ s2) huffman_codes)
  ∧ (∀ self, URL.expand_url self (s1 +:+ junk +:+ s2) = URL.expand_url self (s1 +:+ s2)).
Proof.
  intros Hjunk. split; [intros; by apply _decompress_skip|].
  intros self. unfold URL.expand_url. f_equal.
  induction (URL.compressed_data self) as [|[sc data] items IH]; [done|].
  cbn [URL.expand_loop]. unfold URL.expand_try.
  by rewrite _decompress_skip, IH.
Qed.

(** The theorem at a compressed code of the example with a '!' and a
    space inside. *)
Lemma _decompress_skips_witness :
  (∀ huffman_codes,
     _decompress "VObI! j_Y=" huffman_codes = _decompress "VObIj_Y=" huffman_codes)
  ∧ (∀ self, URL.expand_url self "VObI! j_Y=" = URL.expand_url self "VObIj_Y=").
Proof. apply (_decompress_skips "VObI" "! " "j_Y="). reflexivity. Defined.

(** X22.  What [_decompress] returns is made of characters of the table,
    at most one for each bit, and there are eight bits for each byte of
    the decoded text (one bit when there is no byte). *)
Theorem _decompress_symbols (compressed_str : string) (huffman_codes : dict string)
    (s : string) :
  _decompress compressed_str huffman_codes = Ok s →
  ∃ bytes_data symbols,
    urlsafe_b64decode (encode compressed_str) = Ok bytes_data
    ∧ s = join symbols
    ∧ Forall (fun c => c ∈ huffman_codes.*1) symbols
    ∧ (length symbols ≤ Nat.max 1 (length bytes_data * 8))%nat.
Proof.
  unfold _decompress.
  destruct (urlsafe_b64decode (encode compressed_str)) as [bytes_data|] eqn:Hb; [|done].
  rewrite bind_Ok. intros [= <-].
  eexists bytes_data, _. split; [done|]. split; [done|].
  destruct (decode_loop_symbols_of huffman_codes
              (chars (zfill (bin_digits (from_bytes bytes_data)) (length bytes_data * 8)))
              "" []) as [Hall Hlen]; [constructor|].
  split; [done|].
  rewrite chars_length, binary_length in Hlen by (by eapply urlsafe_b64decode_range).
  done.
Qed.

Lemma _decompress_symbols_witness :
  ∃ bytes_data symbols,
    urlsafe_b64decode (encode "fIr4") = Ok bytes_data
    ∧ "abracadabraa" = join symbols
    ∧ Forall (fun c => c ∈ [("a", "0"); ("c", "100"); ("d", "101"); ("r", "110");
                             ("b", "111")].*1) symbols
    ∧ (length symbols ≤ Nat.max 1 (length bytes_data * 8))%nat.
Proof.
  apply (_decompress_symbols "fIr4"
           [("a", "0"); ("c", "100"); ("d", "101"); ("r", "110"); ("b", "111")]).
  vm_compute. reflexivity.
Defined.

(** X26.  The compressed code of a string does not depend on which
    characters the string is made of, only on where they repeat: replacing
    the characters by others, different ones by different ones, changes
    the keys of the table and nothing else.  Under the table with the new
    keys every text decodes to what it decoded to, with the characters
    replaced. *)
Theorem _compress_rename (f : ascii → ascii) (data : string) :
  Inj (=) (=) f →
  _compress (rename f data)
  = match _compress data with
    | Ok (compressed_str, huffman_codes) => Ok (compressed_str, rename_keys f huffman_codes)
    | Raise e => Raise e
    end
  ∧ ∀ compressed_str huffman_codes,
      _decompress compressed_str (rename_keys f huffman_codes)
      = match _decompress compressed_str huffman_codes with
        | Ok s => Ok (rename f s)
        | Raise e => Raise e
        end.
Proof.
  intros Hinj. split.
  - by apply rename_compress.
  - intros. by apply rename_decompress.
Qed.

(** The theorem at two short codes of the example: they have the same
    compressed code. *)
Lemma _compress_rename_witness :
  _compress "wu2HfOzaxxyy"
  = match _compress "mWPJSCMsxxyy" with
    | Ok (compressed_str, huffman_codes) =>
        Ok (compressed_str, rename_keys exchange huffman_codes)
    | Raise e => Raise e
    end
  ∧ ∀ compressed_str huffman_codes,
      _decompress compressed_str (rename_keys exchange huffman_codes)
      = match _decompress compressed_str huffman_codes with
        | Ok s => Ok (rename exchange s)
        | Raise e => Raise e
        end.
Proof.
  change "wu2HfOzaxxyy" with (rename exchange "mWPJSCMsxxyy").
  apply (_compress_rename exchange "mWPJSCMsxxyy" exchange_inj).
Defined.

(** X27.  The tree is Huffman's: for an input in which two different
    characters occur, the leaves are the characters, each with the number
    of times it occurs, and the tree that the table is read off is what is
    left after joining, again and again, a tree of least frequency (to the
    left) and a tree of least frequency among the others (to the right). *)
Theorem _build_huffman_tree_huffman (data a b : string) :
  a ∈ chars data → b ∈ chars data → a ≠ b →
  (∀ c, dict_get (Counter (chars data)) c
        = if occurrences c (chars data) =? 0 then None
          else Some (occurrences c (chars data)))
  ∧ ∃ root,
      huffman_steps (leaf_of <$> Counter (chars data)) [root]
      ∧ _build_huffman_tree data = Ok (paths root "").
Proof.
  intros Ha Hb Hab. split; [apply Counter_occurrences|].
  pose proof (Counter_two data a b Ha Hb Hab) as Htwo.
  destruct (_build_huffman_tree_loop data Htwo) as (Hperm & Hord & root & Hloop & Hbuild).
  exists root. split; [|done].
  pose proof (merge_loop_huffman _ _ _ Hord Hloop) as Hsteps.
  remember (fold_left _ _ _) as heap eqn:Hheap in Hperm, Hsteps. clear Hheap.
  remember [root] as final eqn:Hfinal in Hsteps.
  destruct Hsteps as [forest|forest forest' forest'' Hstep Hrest].
  - subst forest. apply Permutation_length in Hperm. rewrite length_fmap in Hperm.
    simpl in Hperm. lia.
  - subst forest''. eapply huffman_steps_step; [|done].
    eapply huffman_step_perm; [|done]. done.
Qed.

Lemma _build_huffman_tree_huffman_witness :
  (∀ c, dict_get (Counter (chars "abracadabra")) c
        = if occurrences c (chars "abracadabra") =? 0 then None
          else Some (occurrences c (chars "abracadabra")))
  ∧ ∃ root,
      huffman_steps (leaf_of <$> Counter (chars "abracadabra")) [root]
      ∧ _build_huffman_tree "abracadabra" = Ok (paths root "").
Proof.
  apply (_build_huffman_tree_huffman "abracadabra" "a" "b").
  - apply list_elem_of_here.
  - apply list_elem_of_further, list_elem_of_here.
  - discriminate.
Defined.

(** X28.  The table of an input in which two different characters occur
    is complete: the decoding loop turns every string of bits into
    symbols whose codes, one after the other, are the string but for a
    tail that stops inside a code.  (The table of an input with one
    character only, with its single code "0", decodes no '1'.) *)
Theorem decode_complete (data a b : string) :
  a ∈ chars data → b ∈ chars data → a ≠ b →
  ∃ huffman_codes,
    _build_huffman_tree data = Ok huffman_codes
    ∧ ∀ binary, all_chars is_bit binary = true →
        ∃ symbols codes rest,
          decode_loop (reverse_mapping huffman_codes) (chars binary) "" [] = symbols
          ∧ Forall2 (fun c p => dict_get huffman_codes c = Some p) symbols codes
          ∧ binary = join codes +:+ rest
          ∧ ∃ c t, dict_get huffman_codes c = Some (rest +:+ t) ∧ t ≠ "".
Proof.
  intros Ha Hb Hab. pose proof (Counter_two data a b Ha Hb Hab) as Htwo.
  destruct (_build_huffman_tree_spec data) as (codes & Hbuild & Hkeys & _ & Hpf & Hne).
  exists codes. split; [done|].
  destruct (_build_huffman_tree_root (fun n => full n = true) data)
    as (l & r & Hl & Hr & Hroot).
  { intros c n Hin. simpl. rewrite (chars_truthy data c); [done|].
    apply Counter_keys, list_elem_of_fmap. by exists (c, n). }
  { intros l r Hl Hr. simpl. by rewrite Hl, Hr. }
  { intros ->. by apply elem_of_nil in Ha. }
  { lia. }
  assert (paths (mkNode "" (freq l + freq r) (Some l) (Some r)) "" = codes) as Hpaths
    by congruence.
  clear Hroot. apply (decode_loop_complete codes Hkeys Hpf).
  intros s Hbits.
  destruct (paths_cover (mkNode "" (freq l + freq r) (Some l) (Some r))) with (buf := "") (s := s)
    as [(c & t & s' & Hin & ->)|(c & t & Hin & Ht)]; [by simpl; rewrite Hl, Hr|done| |].
  - rewrite Hpaths in Hin. left. exists c, t, s'. split_and!; [|..|done].
    + by apply dict_elem_get.
    + apply list_elem_of_lookup in Hin as [i Hi]. rewrite Forall_lookup in Hne.
      apply (Hne i t). by rewrite list_lookup_fmap, Hi.
  - rewrite Hpaths in Hin. right. exists c, t. split; [|done]. by apply dict_elem_get.
Qed.

Lemma decode_complete_witness :
  ∃ huffman_codes,
    _build_huffman_tree "abracadabra" = Ok huffman_codes
    ∧ ∀ binary, all_chars is_bit binary = true →
        ∃ symbols codes rest,
          decode_loop (reverse_mapping huffman_codes) (chars binary) "" [] = symbols
          ∧ Forall2 (fun c p => dict_get huffman_codes c = Some p) symbols codes
          ∧ binary = join codes +:+ rest
          ∧ ∃ c t, dict_get huffman_codes c = Some (rest +:+ t) ∧ t ≠ "".
Proof.
  apply (decode_complete "abracadabra" "a" "b").
  - apply list_elem_of_here.
  - apply list_elem_of_further, list_elem_of_here.
  - discriminate.
Defined.

(** X29.  The heap of [heapq] keeps its order: on a heap in which no
    node has a lower frequency than its parent, [heappush] leaves such a
    heap, and [heappop] returns a node of least frequency and leaves such
    a heap. *)
Theorem heapq_ordered (heap : list HuffmanNode) :
  heap_ordered node_lt heap →
  (∀ item, heap_ordered node_lt (heappush node_lt heap item))
  ∧ (∀ item heap',
       heappop node_lt heap = Ok (item, heap') →
       heap_ordered node_lt heap' ∧ Forall (fun n => freq item ≤ freq n) heap).
Proof.
  intros Hord. split.
  - intros item. by apply (heappush_ordered node_lt freq node_lt_freq).
  - intros item heap' Hpop. by apply (heappop_ordered node_lt freq node_lt_freq).
Qed.

(** The theorem at a heap of three nodes, with a push and a pop. *)
Lemma heapq_ordered_witness :
  let heap := [mkNode "a" 1 None None; mkNode "b" 3 None None; mkNode "c" 2 None None] in
  heap_ordered node_lt (heappush node_lt heap (mkNode "d" 0 None None))
  ∧ heappush node_lt heap (mkNode "d" 0 None None)
    = [mkNode "d" 0 None None; mkNode "a" 1 None None; mkNode "c" 2 None None;
       mkNode "b" 3 None None]
  ∧ heappop node_lt heap
    = Ok (mkNode "a" 1 None None, [mkNode "c" 2 None None; mkNode "b" 3 None None])
  ∧ heap_ordered node_lt [mkNode "c" 2 None None; mkNode "b" 3 None None]
  ∧ Forall (fun n => freq (mkNode "a" 1 None None) ≤ freq n) heap.
Proof.
  intros heap.
  assert (heap_ordered node_lt heap) as Hord.
  { intros i x p Hi Hx Hp.
    destruct i as [|[|[|i]]]; [lia| | |done]; simpl in Hx, Hp;
      injection Hx as <-; injection Hp as <-; reflexivity. }
  destruct (heapq_ordered heap Hord) as [Hpush Hpop].
  split; [apply Hpush|]. split; [reflexivity|]. split; [reflexivity|].
  apply (Hpop (mkNode "a" 1 None None)). reflexivity.
Defined.

(** ** More on the store *)

(** X10.  On a store the program can hold, in both files, every short
    code has twelve characters, all of them letters, digits, '-' or '_'. *)
Theorem short_codes_url_safe :
  (∀ self short_code url,
     URL.reachable self →
     dict_get (URL.code_to_url self) short_code = Some url →
     String.length short_code = 12%nat ∧ all_chars is_urlsafe short_code = true)
  ∧ (∀ self short_code url,
       _URL.reachable self →
       dict_get (_URL.code_to_url self) short_code = Some url →
       String.length short_code = 12%nat ∧ all_chars is_urlsafe short_code = true).
Proof.
  split; intros self short_code url Hr Hget.
  - by eapply URL_reachable_shape.
  - by eapply _URL_reachable_shape.
Qed.

Lemma short_codes_url_safe_witness :
  String.length "mWPJSCMsxxyy" = 12%nat ∧ all_chars is_urlsafe "mWPJSCMsxxyy" = true.
Proof.
  apply (proj1 short_codes_url_safe store_xxyy "mWPJSCMsxxyy" first_url).
  - apply store_xxyy_reachable.
  - vm_compute. reflexivity.
Defined.

(** X11.  The compressed code of a non-empty string is made of characters
    of the URL-safe alphabet and the pad '='; it has four characters for
    every three bytes begun, the bytes being the code bits, eight a byte. *)
Theorem compressed_code_url_safe (data : string) :
  data ≠ "" →
  ∃ compressed_str huffman_codes codes,
    _compress data = Ok (compressed_str, huffman_codes)
    ∧ mapM (dict_item huffman_codes) (chars data) = Ok codes
    ∧ all_chars is_urlsafe_or_pad compressed_str = true
    ∧ String.length compressed_str
      = (4 * (((String.length (join codes) + 7) / 8 + 2) / 3))%nat.
Proof.
  intros Hdata.
  destruct (_compress_spec data Hdata)
    as (huffman_codes & codes & n & len & Hbuild & Hcodes & Hpadded & Hn & Hcompress).
  cbv zeta in Hpadded. destruct Hpadded as (_ & _ & Hlen & _).
  exists (urlsafe_b64encode (be_bytes n len)), huffman_codes, codes.
  split; [done|]. split; [by apply mapM_dict_item_Forall2|].
  destruct (urlsafe_b64encode_shape (be_bytes n len) (be_bytes_range n len)) as [Hsafe Hl].
  split; [done|]. rewrite Hl, be_bytes_length.
  rewrite string_app_length, repeat_char_length in Hlen.
  do 3 f_equal. revert Hlen. generalize (String.length (join codes)). intros a Ha.
  clear -Ha. pose proof (Nat.mod_upper_bound a 8 ltac:(lia)) as Hr.
  destruct (decide (a mod 8 = 0)%nat) as [Hz|Hnz].
  - rewrite Hz in Ha. change ((8 - 0) mod 8)%nat with 0%nat in Ha.
    apply (Nat.div_unique _ 8 len 7); lia.
  - rewrite (Nat.mod_small (8 - a mod 8) 8) in Ha by lia.
    apply (Nat.div_unique _ 8 len (a mod 8 - 1)); lia.
Qed.

Lemma compressed_code_url_safe_witness :
  ∃ compressed_str huffman_codes codes,
    _compress "mWPJSCMsxxyy" = Ok (compressed_str, huffman_codes)
    ∧ mapM (dict_item huffman_codes) (chars "mWPJSCMsxxyy") = Ok codes
    ∧ all_chars is_urlsafe_or_pad compressed_str = true
    ∧ String.length compressed_str
      = (4 * (((String.length (join codes) + 7) / 8 + 2) / 3))%nat.
Proof. apply (compressed_code_url_safe "mWPJSCMsxxyy"). discriminate. Defined.

(** X12.  A call of [shorten_url] never changes or removes an entry: in
    [URL.py], on a store the program can hold, every entry of the three
    mappings is still there after the call; in [_URL.py], on any store,
    every entry of [url_to_code] and [code_to_url] is. *)
Theorem shorten_url_keeps_entries :
  (∀ self rnd long_url r self',
     URL.reachable self →
     URL.shorten_url self rnd long_url = (r, self') →
     (∀ u sc, dict_get (URL.url_to_code self) u = Some sc →
              dict_get (URL.url_to_code self') u = Some sc)
     ∧ (∀ sc u, dict_get (URL.code_to_url self) sc = Some u →
                dict_get (URL.code_to_url self') sc = Some u)
     ∧ (∀ sc data, dict_get (URL.compressed_data self) sc = Some data →
                   dict_get (URL.compressed_data self') sc = Some data)
     ∧ URL.max_collision_attempts self' = URL.max_collision_attempts self)
  ∧ (∀ fuel self rnd letters long_url r self',
       _URL.shorten_url fuel self rnd letters long_url = Some (r, self') →
       (∀ u sc, dict_get (_URL.url_to_code self) u = Some sc →
                dict_get (_URL.url_to_code self') u = Some sc)
       ∧ (∀ sc u, dict_get (_URL.code_to_url self) sc = Some u →
                  dict_get (_URL.code_to_url self') sc = Some u)
       ∧ _URL.max_collision_attempts self' = _URL.max_collision_attempts self).
Proof.
  split.
  - intros self rnd long_url r self' Hr Hs.
    apply URL_shorten_url_cases in Hs; [|by apply URL_reachable_consistent].
    destruct Hs as [(? & ? & _ & _ & _ & ->)|[(? & _ & _ & _ & ->)|Hs]]; [done..|].
    destruct Hs as (sc & c & codes & _ & _ & _ & _ & -> & -> & -> & ->).
    split_and!; [| | |done]; intros ? ?; apply dict_get_app_Some.
  - intros fuel self rnd letters long_url r self' Hs.
    apply _URL_shorten_url_cases in Hs.
    destruct Hs as [(? & _ & _ & ->)|[(? & ? & _ & _ & _ & ->)|Hs]]; [done..|].
    destruct Hs as (sc & i & c & codes & _ & _ & _ & _ & -> & -> & _ & ->).
    split_and!; [| |done]; intros ? ?; apply dict_get_app_Some.
Qed.

(** The theorem at the second call of the example: the first URL keeps
    its short code. *)
Lemma shorten_url_keeps_entries_witness :
  dict_get (URL.url_to_code store_xxyy_twice) first_url = Some "mWPJSCMsxxyy".
Proof.
  apply (proj1 (proj1 shorten_url_keeps_entries store_xxyy (fun _ => "xxyy") third_url
                  (URL.shorten_url store_xxyy (fun _ => "xxyy") third_url).1
                  store_xxyy_twice store_xxyy_reachable (surjective_pairing _))).
  vm_compute. reflexivity.
Defined.

(** X13.  In [URL.py], on a store the program can hold, [shorten_url]
    raises nothing but the [ValueError] of the generator, and raises it
    exactly when the URL is new and every candidate of the
    [max_collision_attempts] attempts is taken. *)
Theorem shorten_url_raises_iff self rnd long_url e :
  URL.reachable self →
  (URL.shorten_url self rnd long_url).1 = Raise e
  ↔ e = ValueError
    ∧ dict_in long_url (URL.url_to_code self) = false
    ∧ all_taken (URL.max_collision_attempts self) (URL.code_to_url self) rnd long_url.
Proof.
  intros Hr. split.
  - destruct (URL.shorten_url self rnd long_url) as [r self'] eqn:Hs. simpl. intros ->.
    apply URL_shorten_url_cases in Hs; [|by apply URL_reachable_consistent].
    destruct Hs as [(? & ? & _ & _ & ? & _)|[(e' & Hu & Hgen & [= <-] & _)|Hs]]; [done| |].
    + unfold URL._generate_short_code in Hgen.
      destruct (generate_short_code _ _ _ _ _) as [r0 j] eqn:Hg. simpl in Hgen. subst r0.
      apply generate_short_code_Raise in Hg as [-> Hall].
      split_and!; [done| |done]. by apply dict_in_false.
    + by destruct Hs as (? & ? & ? & _ & _ & _ & ? & _).
  - intros (-> & Hnew & Hall). unfold URL.shorten_url. rewrite Hnew.
    unfold URL._generate_short_code. by rewrite generate_short_code_exhausted.
Qed.

Lemma shorten_url_raises_iff_witness :
  (URL.shorten_url store_xxyy (fun _ => "abcd") third_url).1 = Raise ValueError
  ↔ ValueError = ValueError
    ∧ dict_in third_url (URL.url_to_code store_xxyy) = false
    ∧ all_taken (URL.max_collision_attempts store_xxyy) (URL.code_to_url store_xxyy)
        (fun _ => "abcd") third_url.
Proof. apply (shorten_url_raises_iff store_xxyy). apply store_xxyy_reachable. Defined.

(** X14.  [_URL.py], on any store: [shorten_url] raises [KeyError] exactly
    when the URL is stored, and [ValueError] exactly when the URL is new
    and every candidate is taken; it raises nothing else. *)
Theorem _URL_shorten_url_raises_iff fuel self rnd letters long_url e :
  fst <$> _URL.shorten_url (S fuel) self rnd letters long_url = Some (Raise e)
  ↔ (e = KeyError ∧ dict_in long_url (_URL.url_to_code self) = true)
    ∨ (e = ValueError
       ∧ dict_in long_url (_URL.url_to_code self) = false
       ∧ all_taken (_URL.max_collision_attempts self) (_URL.code_to_url self)
           rnd long_url).
Proof.
  split.
  - destruct (_URL.shorten_url (S fuel) self rnd letters long_url) as [[r self']|] eqn:Hs;
      [|done].
    simpl. intros [= ->]. apply _URL_shorten_url_cases in Hs.
    destruct Hs as [(sc & Hu & [= <-] & _)|[(e' & i & Hu & Hgen & [= <-] & _)|Hs]].
    + left. split; [done|]. apply dict_in_true. eauto.
    + right. apply generate_short_code_Raise in Hgen as [-> Hall].
      split_and!; [done| |done]. by apply dict_in_false.
    + by destruct Hs as (? & ? & ? & ? & _ & _ & _ & ? & _).
  - intros [[-> Hin]|(-> & Hnew & Hall)].
    + apply dict_in_true in Hin as [sc Hu].
      by rewrite (_URL_shorten_url_known _ _ _ _ _ _ Hu).
    + unfold _URL.shorten_url. rewrite Hnew. unfold _URL._generate_short_code.
      by rewrite generate_short_code_exhausted.
Qed.

(** X15.  In [URL.py], on a store the program can hold, what [expand_url]
    returns for a code is what it returns after any further call of
    [shorten_url]: the records are scanned in insertion order and new
    records go last. *)
Theorem expand_url_stable self rnd long_url r self' compressed_code url :
  URL.reachable self →
  URL.shorten_url self rnd long_url = (r, self') →
  (URL.expand_url self compressed_code).1 = Ok (Some url) →
  (URL.expand_url self' compressed_code).1 = Ok (Some url).
Proof.
  intros Hr Hs. pose proof (URL_reachable_consistent _ Hr) as Hcons.
  pose proof (URL_shorten_url_consistent _ _ _ _ _ Hcons Hs) as Hcons'.
  unfold URL.expand_url. simpl. rewrite !URL_expand_loop_find by done.
  apply URL_shorten_url_cases in Hs; [|done].
  destruct Hs as [(? & ? & _ & _ & _ & ->)|[(? & _ & _ & _ & ->)|Hs]]; [done..|].
  destruct Hs as (sc & c & codes & _ & _ & _ & _ & _ & _ & -> & _).
  destruct (find _ (URL.compressed_data self)) as [e|] eqn:Hfind; [|done].
  by rewrite (find_app_Some _ _ _ _ Hfind).
Qed.

(** The theorem at the second call of the example. *)
Lemma expand_url_stable_witness :
  (URL.expand_url store_xxyy_twice "VObIj_Y=").1 = Ok (Some first_url).
Proof.
  apply (expand_url_stable store_xxyy (fun _ => "xxyy") third_url
           (URL.shorten_url store_xxyy (fun _ => "xxyy") third_url).1).
  - apply store_xxyy_reachable.
  - apply surjective_pairing.
  - vm_compute. reflexivity.
Defined.

(** X16.  In [URL.py], on a store the program can hold, for a stored URL
    with its record: [expand_url] of the compressed code of the record
    returns the URL only if the record's table decodes the compressed code
    to the short code; when it does, [expand_url] returns a URL, and it
    returns this one when no record of another short code decodes the
    compressed code to its own short code. *)
Theorem expand_url_inverse self long_url short_code data :
  URL.reachable self →
  dict_get (URL.url_to_code self) long_url = Some short_code →
  dict_get (URL.compressed_data self) short_code = Some data →
  ((URL.expand_url self (URL.compressed data)).1 = Ok (Some long_url) →
   _decompress (URL.compressed data) (URL.huffman_codes data) = Ok short_code)
  ∧ (_decompress (URL.compressed data) (URL.huffman_codes data) = Ok short_code →
     (∃ url, (URL.expand_url self (URL.compressed data)).1 = Ok (Some url))
     ∧ ((∀ sc' data', (sc', data') ∈ URL.compressed_data self → sc' ≠ short_code →
           decodes_to (URL.compressed data) (sc', data') = false) →
        (URL.expand_url self (URL.compressed data)).1 = Ok (Some long_url))).
Proof.
  intros Hr Hu Hd. pose proof (URL_reachable_consistent _ Hr) as Hcons.
  rewrite URL_expand_url_find by done. simpl.
  assert (URL.original_url data = long_url) as Hurl.
  { apply dict_get_Some_elem, (consistent_data _ Hcons) in Hd as [Hd _].
    apply (consistent_fwd _ Hcons) in Hu. congruence. }
  assert (∀ e, e ∈ URL.compressed_data self → e.1 = short_code → e = (short_code, data))
    as Hone.
  { intros [sc' data'] Hin Hsc'. simpl in Hsc'. subst sc'.
    apply dict_elem_get in Hin; [|apply (consistent_keys _ Hcons)]. congruence. }
  split.
  - destruct (find _ _) as [[sc' data']|] eqn:Hfind; [|done].
    apply find_some in Hfind as [Hin Hdec]. apply list_elem_of_In in Hin.
    simpl. intros [= Hurl'].
    assert (sc' = short_code) as ->.
    { apply (consistent_data _ Hcons) in Hin as [Hin _]. rewrite Hurl' in Hin.
      apply (consistent_bwd _ Hcons) in Hin. congruence. }
    apply Hone in Hin as [= ->]; [|done].
    unfold decodes_to in Hdec. simpl in Hdec.
    destruct (_decompress _ _) as [s|]; [|done].
    by apply String.eqb_eq in Hdec as ->.
  - intros Hexact.
    assert (decodes_to (URL.compressed data) (short_code, data) = true) as Hdec.
    { unfold decodes_to. simpl. rewrite Hexact. apply String.eqb_refl. }
    destruct (find _ _) as [[sc' data']|] eqn:Hfind.
    + split; [simpl; eauto|]. intros Hothers.
      apply find_some in Hfind as [Hin Hdec']. apply list_elem_of_In in Hin.
      destruct (decide (sc' = short_code)) as [->|Hne].
      * apply Hone in Hin as [= ->]; [|done]. simpl. by rewrite Hurl.
      * rewrite (Hothers _ _ Hin Hne) in Hdec'. done.
    + apply find_None_Forall in Hfind. rewrite Forall_forall in Hfind.
      rewrite (Hfind (short_code, data)) in Hdec; [done|].
      by apply dict_get_Some_elem.
Qed.

(** The theorem at the store after one call: the round trip of the short
    code is exact, and [expand_url] returns the URL. *)
Lemma expand_url_inverse_witness :
  (URL.expand_url store_xxyy "VObIj_Y=").1 = Ok (Some first_url).
Proof.
  pose (data := {| URL.compressed := "VObIj_Y=";
                   URL.huffman_codes :=
                     default [] (URL.huffman_codes
                                   <$> dict_get (URL.compressed_data store_xxyy)
                                         "mWPJSCMsxxyy");
                   URL.original_url := first_url |}).
  assert (dict_get (URL.url_to_code store_xxyy) first_url = Some "mWPJSCMsxxyy") as Hu
    by (vm_compute; reflexivity).
  assert (dict_get (URL.compressed_data store_xxyy) "mWPJSCMsxxyy" = Some data) as Hd
    by (vm_compute; reflexivity).
  assert (_decompress (URL.compressed data) (URL.huffman_codes data) = Ok "mWPJSCMsxxyy")
    as Hexact by (vm_compute; reflexivity).
  assert (URL.compressed_data store_xxyy = [("mWPJSCMsxxyy", data)]) as Hall
    by (vm_compute; reflexivity).
  apply (proj2 (proj2 (expand_url_inverse store_xxyy first_url "mWPJSCMsxxyy" data
                         store_xxyy_reachable Hu Hd) Hexact)).
  intros sc' data' Hin Hne. rewrite Hall in Hin.
  apply list_elem_of_singleton in Hin. congruence.
Defined.

(** X17.  In [_URL.py], on a store the program can hold, right after a
    call of [shorten_url] that returned a short code and its compressed
    code: [expand_url] of the compressed code returns the URL when the
    table decodes the compressed code to the short code, and [None]
    otherwise. *)
Theorem _URL_expand_url_after_shorten fuel self rnd letters long_url short_code
    compressed_str self' :
  _URL.reachable self →
  (∀ i, lowercase4 (rnd i) = true) →
  _URL.shorten_url fuel self rnd letters long_url
  = Some (Ok (short_code, compressed_str), self') →
  ∃ data,
    dict_get (_URL.compressed_data self') compressed_str = Some data
    ∧ _URL.original_url data = long_url
    ∧ _compress short_code = Ok (compressed_str, _URL.huffman_codes data)
    ∧ (_decompress compressed_str (_URL.huffman_codes data) = Ok short_code →
       _URL.expand_url self' compressed_str = (Ok (Some long_url), self'))
    ∧ (_decompress compressed_str (_URL.huffman_codes data) ≠ Ok short_code →
       _URL.expand_url self' compressed_str = (Ok None, self')).
Proof.
  intros Hr Hrnd Hs.
  pose proof (_URL_shorten_url_consistent _ _ _ _ _ _ _ Hrnd
                (_URL_reachable_consistent _ Hr) Hs) as Hcons'.
  apply _URL_shorten_url_cases in Hs.
  destruct Hs as [(? & _ & ? & _)|[(? & ? & _ & _ & ? & _)|Hs]]; [done..|].
  destruct Hs as (sc & i & c & codes & Hu & Hgen & Hc & [= -> ->] & Hu2c & Hc2u & Hcd & _).
  apply generate_short_code_Ok in Hgen as (Hnew & Hne & _).
  apply dict_in_false in Hnew.
  assert (dict_get (_URL.code_to_url self') sc = Some long_url) as Hsc.
  { rewrite Hc2u, dict_get_app, Hnew. simpl. by rewrite String.eqb_refl. }
  exists {| _URL.huffman_codes := codes; _URL.original_url := long_url |}.
  assert (dict_get (_URL.compressed_data self') c
          = Some {| _URL.huffman_codes := codes; _URL.original_url := long_url |}) as Hd.
  { rewrite Hcd. apply dict_get_set_eq. }
  split_and!; [done..| |]; simpl; rewrite _URL_expand_url_spec, Hd; simpl.
  - intros ->. by rewrite Hsc.
  - intros Hno.
    destruct (_decompress_compress sc Hne) as (c' & codes' & ps & Hc' & _ & Hround).
    rewrite Hc in Hc'. injection Hc' as <- <-. cbv zeta in Hround.
    rewrite Hround in Hno |- *.
    apply (_consistent_length _ Hcons') in Hsc.
    destruct (dict_get (_URL.code_to_url self') _) as [u|] eqn:Hget; [|done].
    exfalso. apply (_consistent_length _ Hcons') in Hget.
    rewrite string_app_length, Hsc in Hget.
    destruct (join _) as [|a x]; [|simpl in Hget; lia].
    apply Hno. by rewrite string_app_nil_r.
Qed.

(** The theorem at the first call of the example. *)
Lemma _URL_expand_url_after_shorten_witness :
  _URL.expand_url _store_xxyy "VObIj_Y=" = (Ok (Some first_url), _store_xxyy).
Proof.
  destruct (_URL_expand_url_after_shorten 1 _URL.__init__ (fun _ => "xxyy")
              (fun _ => "a") first_url "mWPJSCMsxxyy" "VObIj_Y=" _store_xxyy)
    as (data & Hd & _ & _ & Hexact & _).
  - constructor.
  - reflexivity.
  - vm_compute. reflexivity.
  - apply Hexact. vm_compute in Hd. injection Hd as <-. vm_compute. reflexivity.
Defined.

(** X18.  The [while] loop of [shorten_url] in [_URL.py] never runs its
    body: the short code the generator returned is new.  The call returns
    at the first test of the loop, and what it returns does not depend on
    the letters [random.choice] would give. *)
Theorem _URL_collision_loop_never_runs fuel self rnd letters letters' long_url :
  _URL.shorten_url (S fuel) self rnd letters long_url
  = _URL.shorten_url 1 self rnd letters' long_url
  ∧ ∃ r self', _URL.shorten_url 1 self rnd letters' long_url = Some (r, self').
Proof.
  split; [|apply _URL_shorten_url_returns].
  destruct (dict_get (_URL.url_to_code self) long_url) as [sc0|] eqn:Hu.
  { by rewrite !(_URL_shorten_url_known _ _ _ _ _ _ Hu). }
  destruct (_URL_shorten_url_new fuel self rnd letters long_url Hu)
    as [(e & i & Hgen & ->)|(sc & i & c & codes & Hgen & _ & _ & Hc & ->)];
  destruct (_URL_shorten_url_new 0 self rnd letters' long_url Hu)
    as [(e' & i' & Hgen' & ->)|(sc' & i' & c' & codes' & Hgen' & _ & _ & Hc' & ->)];
  congruence.
Qed.

(** X19.  For a new URL the two files do the same: on objects with the
    same [url_to_code], [code_to_url] and [max_collision_attempts], and
    with the same random draws, [shorten_url] returns the same pair or
    raises the same exception, and leaves the same two mappings. *)
Theorem shorten_url_files_agree (self : URL.URLShortener) (_self : _URL.URLShortener)
    fuel rnd letters long_url :
  URL.url_to_code self = _URL.url_to_code _self →
  URL.code_to_url self = _URL.code_to_url _self →
  URL.max_collision_attempts self = _URL.max_collision_attempts _self →
  dict_in long_url (URL.url_to_code self) = false →
  ∃ r self' _self',
    URL.shorten_url self rnd long_url = (r, self')
    ∧ _URL.shorten_url (S fuel) _self rnd letters long_url = Some (r, _self')
    ∧ URL.url_to_code self' = _URL.url_to_code _self'
    ∧ URL.code_to_url self' = _URL.code_to_url _self'
    ∧ URL.max_collision_attempts self' = _URL.max_collision_attempts _self'.
Proof.
  intros Hu2c Hc2u Hmax Hnew. apply dict_in_false in Hnew.
  destruct (URL.shorten_url self rnd long_url) as [r self'] eqn:Hs.
  pose proof (URL_shorten_url_new _ _ _ _ _ Hnew Hs) as Hcase.
  rewrite Hu2c in Hnew.
  destruct (_URL_shorten_url_new fuel _self rnd letters long_url Hnew) as [H_|H_];
    unfold URL._generate_short_code, _URL._generate_short_code in *;
    rewrite Hc2u, Hmax in Hcase.
  - destruct H_ as (e & i & Hgen & ->).
    rewrite Hgen in Hcase. simpl in Hcase.
    destruct Hcase as [(e' & -> & -> & [= <-])|(? & ? & ? & _ & ? & _)]; [|done].
    by exists (Raise e), self, _self.
  - destruct H_ as (sc & i & c & codes & Hgen & _ & _ & Hc & ->).
    rewrite Hgen in Hcase. simpl in Hcase.
    destruct Hcase as [(? & _ & _ & ?)|(sc' & c' & codes' & -> & [= <-] & _ & Hc' & ->)];
      [done|].
    rewrite Hc in Hc'. injection Hc' as <- <-.
    eexists _, _, _. split_and!; [done..| | |]; simpl; congruence.
Qed.

(** The theorem at the first call on new objects. *)
Lemma shorten_url_files_agree_witness :
  ∃ r self' _self',
    URL.shorten_url URL.__init__ (fun _ => "abcd") first_url = (r, self')
    ∧ _URL.shorten_url 1 _URL.__init__ (fun _ => "abcd") (fun _ => "a") first_url
      = Some (r, _self')
    ∧ URL.url_to_code self' = _URL.url_to_code _self'
    ∧ URL.code_to_url self' = _URL.code_to_url _self'
    ∧ URL.max_collision_attempts self' = _URL.max_collision_attempts _self'.
Proof.
  apply (shorten_url_files_agree URL.__init__ _URL.__init__ 0 (fun _ => "abcd")
           (fun _ => "a") first_url); reflexivity.
Defined.

(** X20.  On a store the program can hold, [url_to_code] and
    [code_to_url] are inverse to each other.  In [URL.py] every stored URL
    has its record under its short code, holding the URL and what
    [_compress] returns for the short code, and there is no other record.
    In [_URL.py] every record is stored under the compressed code of the
    short code of its URL, with the table of that compression. *)
Theorem stores_agree :
  (∀ self, URL.reachable self →
     (∀ u sc, dict_get (URL.url_to_code self) u = Some sc
              ↔ dict_get (URL.code_to_url self) sc = Some u)
     ∧ (∀ u sc data,
          dict_get (URL.url_to_code self) u = Some sc
          ∧ _compress sc = Ok (URL.compressed data, URL.huffman_codes data)
          ∧ URL.original_url data = u
          ↔ dict_get (URL.compressed_data self) sc = Some data
            ∧ URL.original_url data = u))
  ∧ (∀ self, _URL.reachable self →
       (∀ u sc, dict_get (_URL.url_to_code self) u = Some sc
                ↔ dict_get (_URL.code_to_url self) sc = Some u)
       ∧ (∀ compressed_str data,
            dict_get (_URL.compressed_data self) compressed_str = Some data →
            ∃ sc, dict_get (_URL.url_to_code self) (_URL.original_url data) = Some sc
              ∧ _compress sc = Ok (compressed_str, _URL.huffman_codes data))).
Proof.
  split.
  - intros self [Hfwd Hbwd Hrec Hdata Hkeys]%URL_reachable_consistent.
    split; [split; auto|].
    intros u sc data. split.
    + intros (Hu & Hc & Hurl). split; [|done].
      destruct (Hrec _ _ Hu) as [data' Hd]. rewrite Hd. f_equal.
      apply dict_get_Some_elem, Hdata in Hd as [Hd Hc'].
      apply Hfwd in Hu. rewrite Hc in Hc'.
      destruct data, data'. simpl in *. congruence.
    + intros [Hd Hurl]. apply dict_get_Some_elem, Hdata in Hd as [Hd Hc].
      split_and!; [|done..]. apply Hbwd. congruence.
  - intros self Hr.
    destruct (_URL_reachable_consistent _ Hr) as [Hfwd Hbwd _ Hdata _].
    split; [split; auto|].
    intros q data Hd. apply dict_get_Some_elem, Hdata in Hd as (sc & Hsc & Hc).
    exists sc. split; [by apply Hbwd|done].
Qed.

(** The theorem at the store after two calls of the example. *)
Lemma stores_agree_witness :
  dict_get (URL.code_to_url store_xxyy_twice) "wu2HfOzaxxyy" = Some third_url.
Proof.
  apply (proj1 (proj1 (proj1 stores_agree store_xxyy_twice store_xxyy_twice_reachable)
                  third_url "wu2HfOzaxxyy")).
  vm_compute. reflexivity.
Defined.

(** X23.  What [_generate_short_code] returns: the URL-safe base64
    encoding of the first six bytes of the SHA-256 digest of the URL, which
    is eight characters, followed by the letters of the first draw for
    which the result is not taken. *)
Theorem _generate_short_code_first_free self rnd url short_code :
  URL._generate_short_code self rnd url = Ok short_code →
  let prefix := urlsafe_b64encode (take 6 (sha256 (encode url))) in
  String.length prefix = 8%nat
  ∧ ∃ k, (k < URL.max_collision_attempts self)%nat
      ∧ short_code = prefix +:+ rnd k
      ∧ dict_in short_code (URL.code_to_url self) = false
      ∧ ∀ k', (k' < k)%nat →
          dict_in (prefix +:+ rnd k') (URL.code_to_url self) = true.
Proof.
  unfold URL._generate_short_code, generate_short_code.
  destruct (generate_loop _ _ _ _ _) as [r j] eqn:Hg. simpl. intros ->.
  apply generate_loop_first in Hg as (k & Hk & _ & Hcand & Hnew & Hbefore).
  rewrite short_code_candidate_digest in Hcand. injection Hcand as <-.
  split.
  - destruct (short_code_candidate_spec url "") as (p & Hp & Hlen).
    rewrite short_code_candidate_digest in Hp. injection Hp as Hp.
    rewrite !string_app_nil_r in Hp. by rewrite Hp.
  - exists k. split_and!; [lia|done..|].
    intros k' Hk'. destruct (Hbefore k') as (sc & Hsc & Hin); [lia|].
    rewrite short_code_candidate_digest in Hsc. by injection Hsc as <-.
Qed.

Lemma _generate_short_code_first_free_witness :
  let prefix := urlsafe_b64encode (take 6 (sha256 (encode first_url))) in
  String.length prefix = 8%nat
  ∧ ∃ k, (k < URL.max_collision_attempts URL.__init__)%nat
      ∧ "mWPJSCMsabcd" = prefix +:+ (fun _ : nat => "abcd") k
      ∧ dict_in "mWPJSCMsabcd" (URL.code_to_url URL.__init__) = false
      ∧ ∀ k', (k' < k)%nat →
          dict_in (prefix +:+ (fun _ : nat => "abcd") k') (URL.code_to_url URL.__init__)
          = true.
Proof.
  apply (_generate_short_code_first_free URL.__init__ (fun _ => "abcd") first_url).
  vm_compute. reflexivity.
Defined.

(** X24.  After a call of [shorten_url] that returned a pair, the URL is
    stored under the short code and the short code under the URL; the
    compressed code is the one [_compress] returns for the short code, and
    the record holds its table and the URL ([URL.py]: under the short code,
    on a store the program can hold; [_URL.py]: under the compressed code,
    on any store). *)
Theorem shorten_url_stores :
  (∀ self rnd long_url short_code compressed_str self',
     URL.reachable self →
     URL.shorten_url self rnd long_url = (Ok (short_code, compressed_str), self') →
     dict_get (URL.url_to_code self') long_url = Some short_code
     ∧ dict_get (URL.code_to_url self') short_code = Some long_url
     ∧ ∃ huffman_codes,
         _compress short_code = Ok (compressed_str, huffman_codes)
         ∧ dict_get (URL.compressed_data self') short_code
           = Some {| URL.compressed := compressed_str;
                     URL.huffman_codes := huffman_codes;
                     URL.original_url := long_url |})
  ∧ (∀ fuel self rnd letters long_url short_code compressed_str self',
       _URL.shorten_url fuel self rnd letters long_url
       = Some (Ok (short_code, compressed_str), self') →
       dict_get (_URL.url_to_code self') long_url = Some short_code
       ∧ dict_get (_URL.code_to_url self') short_code = Some long_url
       ∧ ∃ huffman_codes,
           _compress short_code = Ok (compressed_str, huffman_codes)
           ∧ dict_get (_URL.compressed_data self') compressed_str
             = Some {| _URL.huffman_codes := huffman_codes;
                       _URL.original_url := long_url |}).
Proof.
  split.
  - intros self rnd long_url short_code compressed_str self' Hr Hs.
    pose proof (URL_reachable_consistent _ Hr) as Hcons.
    pose proof (URL_shorten_url_consistent _ _ _ _ _ Hcons Hs) as Hcons'.
    apply URL_shorten_url_cases in Hs; [|done].
    assert (dict_get (URL.url_to_code self') long_url = Some short_code) as Hu.
    { destruct Hs as [(sc & data & Hu & _ & [= -> _] & ->)|[(? & _ & _ & ? & _)|Hs]];
        [done..|].
      destruct Hs as (sc & c & codes & Hu & _ & _ & [= -> ->] & -> & _).
      rewrite dict_get_app, Hu. simpl. by rewrite String.eqb_refl. }
    split; [done|]. split; [by apply (consistent_fwd _ Hcons')|].
    destruct (consistent_record _ Hcons' _ _ Hu) as [data Hd].
    pose proof Hd as Hd'.
    apply dict_get_Some_elem, (consistent_data _ Hcons') in Hd' as [Hurl Hc].
    apply (consistent_fwd _ Hcons') in Hu. rewrite Hu in Hurl. injection Hurl as Hurl.
    assert (URL.compressed data = compressed_str) as Hcomp.
    { destruct Hs as [(sc & data' & Hu' & Hd0 & [= -> ->] & ->)|[(? & _ & _ & ? & _)|Hs]];
        [congruence|done|].
      destruct Hs as (sc & c & codes & _ & _ & Hc' & [= -> ->] & _). congruence. }
    exists (URL.huffman_codes data). split; [congruence|].
    rewrite Hd. f_equal. destruct data. simpl in *. congruence.
  - intros fuel self rnd letters long_url short_code compressed_str self' Hs.
    apply _URL_shorten_url_cases in Hs.
    destruct Hs as [(? & _ & ? & _)|[(? & ? & _ & _ & ? & _)|Hs]]; [done..|].
    destruct Hs as (sc & i & c & codes & Hu & Hgen & Hc & [= -> ->] & -> & -> & -> & _).
    apply generate_short_code_Ok in Hgen as (Hnew & _). apply dict_in_false in Hnew.
    rewrite !dict_get_app, Hu, Hnew. simpl. rewrite !String.eqb_refl.
    split_and!; [done..|]. exists codes. split; [done|]. apply dict_get_set_eq.
Qed.

(** The theorem at the first call of the example. *)
Lemma shorten_url_stores_witness :
  dict_get (URL.url_to_code store_xxyy) first_url = Some "mWPJSCMsxxyy"
  ∧ dict_get (URL.code_to_url store_xxyy) "mWPJSCMsxxyy" = Some first_url
  ∧ ∃ huffman_codes,
      _compress "mWPJSCMsxxyy" = Ok ("VObIj_Y=", huffman_codes)
      ∧ dict_get (URL.compressed_data store_xxyy) "mWPJSCMsxxyy"
        = Some {| URL.compressed := "VObIj_Y=";
                  URL.huffman_codes := huffman_codes;
                  URL.original_url := first_url |}.
Proof.
  apply (proj1 shorten_url_stores URL.__init__ (fun _ => "xxyy") first_url).
  - constructor.
  - vm_compute. reflexivity.
Defined.



(** ** The example *)

(** X25.  The example at the end of [URL.py] never raises, whatever the
    random draws: the three URLs have different digests, so every short
    code is the candidate of the first draw.  It prints sixteen times;
    the short codes it prints begin with "mWPJSCMs", "Wx_ARLhu" and
    "wu2HfOza". *)
Theorem main_never_raises (draws : nat → nat → string) :
  ∃ out,
    URL.main draws = (out, None)
    ∧ length out = 16%nat
    ∧ out !! 2%nat = Some ("Short Code: mWPJSCMs" +:+ draws 0%nat 0%nat)
    ∧ out !! 7%nat = Some ("Short Code: Wx_ARLhu" +:+ draws 1%nat 0%nat)
    ∧ out !! 12%nat = Some ("Short Code: wu2HfOza" +:+ draws 2%nat 0%nat).
Proof.
  unfold URL.main, URL.test_urls.
  match goal with
  | |- context [URL.main_loop ?s draws 0%nat (?u :: ?us) ?o] =>
      destruct (URL_main_loop_step s draws 0 u us o "mWPJSCMs") as (c1 & t1 & e1 & ->);
        [vm_compute; reflexivity | discriminate | reflexivity | reflexivity
        | simpl; lia |]
  end.
  match goal with
  | |- context [URL.main_loop ?s draws 1%nat (?u :: ?us) ?o] =>
      destruct (URL_main_loop_step s draws 1 u us o "Wx_ARLhu") as (c2 & t2 & e2 & ->);
        [vm_compute; reflexivity | discriminate | reflexivity | reflexivity
        | simpl; lia |]
  end.
  match goal with
  | |- context [URL.main_loop ?s draws 2%nat (?u :: ?us) ?o] =>
      destruct (URL_main_loop_step s draws 2 u us o "wu2HfOza") as (c3 & t3 & e3 & ->);
        [vm_compute; reflexivity | discriminate | reflexivity | reflexivity
        | simpl; lia |]
  end.
  eexists. split; [reflexivity|]. split_and!; reflexivity.
Qed.
